(** * Music Assistant server: provider lifecycle, sync scheduling, event bus,
      library database setup and filesystem sync

    A shallow embedding of
      - [music_assistant/server/server.py]            (class MusicAssistant: the
        event bus, the provider registry, task tracking, loading and
        unloading of providers, the reading of manifests, [stop]),
      - [music_assistant/server/controllers/music.py] (class MusicController:
        sync scheduling, the library database, [browse], [get_controller]),
      - [music_assistant/server/models/provider.py]   (class Provider),
      - [music_assistant/common/models/provider.py]   (ProviderManifest, SyncTask),
      - [music_assistant/server/providers/filesystem_local/base.py]
        (FileSystemItem, FileSystemProviderBase.sync_library and
        [_process_deletions]).

    Python objects that are mutated in place live in one explicit state
    record; a method is a function from states to a state and an outcome
    (normal return or raised exception). *)

From Stdlib Require Import ZArith Ascii String DecimalString DecimalPos DecimalZ.
From stdpp Require Import gmap strings list fin_maps.

Local Open Scope string_scope.
Local Open Scope list_scope.

(** ** Exceptions

    Modelled from the spec: [common/models/errors.py] is not part of the
    sources at hand. Section 7 of the specification names the taxonomy
    ([SetupFailed], [MediaNotFound], [ProviderUnavailable]); all of them
    derive from [MusicAssistantError], which derives from [Exception].
    [CancelledError] is asyncio's cancellation signal: it derives from
    [BaseException], so [except Exception] does not catch it. *)
Inductive Exn : Type :=
| MusicAssistantError (msg : string)
| SetupFailedError (msg : string)
| ProviderUnavailableError (msg : string)
| MediaNotFoundError (msg : string)
| AttributeError (msg : string)
| ModuleNotFoundError (msg : string)
| KeyError (key : string)
| ValueError (msg : string)
| OtherException (msg : string)
| CancelledError.

#[global] Instance Exn_eq_dec : EqDecision Exn.
Proof. solve_decision. Defined.

(** [isinstance(e, MusicAssistantError)] *)
Definition is_MusicAssistantError (e : Exn) : bool :=
  match e with
  | MusicAssistantError _ | SetupFailedError _
  | ProviderUnavailableError _ | MediaNotFoundError _ => true
  | _ => false
  end.

(** [isinstance(e, Exception)] *)
Definition is_Exception (e : Exn) : bool :=
  match e with
  | CancelledError => false
  | _ => true
  end.

(** [str(err)] *)
Definition str_of_exn (e : Exn) : string :=
  match e with
  | MusicAssistantError m | SetupFailedError m | ProviderUnavailableError m
  | MediaNotFoundError m | AttributeError m | ModuleNotFoundError m
  | ValueError m | OtherException m => m
  | KeyError k => "'" +:+ k +:+ "'"
  | CancelledError => ""
  end.

(** The outcome of running a piece of Python code. *)
Inductive Outcome (A : Type) : Type :=
| Ok (a : A)
| Raise (e : Exn).
Arguments Ok {A} a.
Arguments Raise {A} e.

(** ** Enumerations

    Modelled from the spec: [common/models/enums.py] is not part of the
    sources at hand. The media types are the five entity kinds of the
    library (section 3), the provider types the four variants of
    section 2, the event types those of section 6 together with
    [QUEUE_TIME_UPDATED], which [signal_event] names. *)
Inductive MediaType : Type := ARTIST | ALBUM | TRACK | PLAYLIST | RADIO.

Inductive ProviderType : Type := MUSIC | PLAYER | METADATA | PLUGIN.

Inductive EventType : Type :=
| PROVIDERS_UPDATED
| SYNC_TASKS_UPDATED
| SHUTDOWN
| QUEUE_TIME_UPDATED
| MEDIA_ITEM_UPDATED.

#[global] Instance MediaType_eq_dec : EqDecision MediaType.
Proof. solve_decision. Defined.
#[global] Instance ProviderType_eq_dec : EqDecision ProviderType.
Proof. solve_decision. Defined.
#[global] Instance EventType_eq_dec : EqDecision EventType.
Proof. solve_decision. Defined.

(** [MediaType.ALL] *)
Definition MediaType_ALL : list MediaType := [ARTIST; ALBUM; TRACK; PLAYLIST; RADIO].

(** ** A state-and-exception monad

    A method of a stateful Python object is a function from the state
    before the call to the state after it and the call's outcome.  The
    state after a raised exception is kept: mutations made before the
    [raise] stay visible to whoever catches it. *)
Definition M (St A : Type) : Type := St -> St * Outcome A.

Definition ret {St A : Type} (a : A) : M St A := fun s => (s, Ok a).

Definition raise {St A : Type} (e : Exn) : M St A := fun s => (s, Raise e).

Definition bind {St A B : Type} (m : M St A) (k : A -> M St B) : M St B :=
  fun s =>
    match m s with
    | (s', Ok a) => k a s'
    | (s', Raise e) => (s', Raise e)
    end.

Definition gets {St A : Type} (f : St -> A) : M St A := fun s => (s, Ok (f s)).

Definition modify {St : Type} (f : St -> St) : M St unit := fun s => (f s, Ok tt).

(** [try: body  except <catches> as e: handler e] *)
Definition try_except {St A : Type}
    (body : M St A) (catches : Exn -> bool) (handler : Exn -> M St A) : M St A :=
  fun s =>
    match body s with
    | (s', Ok a) => (s', Ok a)
    | (s', Raise e) => if catches e then handler e s' else (s', Raise e)
    end.

Notation "'let*' x ':=' m 'in' k" := (bind m (fun x => k))
  (at level 10, x name, m at level 100, k at level 200).
Notation "m >> k" := (bind m (fun _ => k))
  (at level 90, right associativity).

(** [for x in xs: body x], over a list that the body does not mutate. *)
Fixpoint for_each {St A : Type} (xs : list A) (body : A -> M St unit) : M St unit :=
  match xs with
  | [] => ret tt
  | x :: xs' => body x >> for_each xs' body
  end.

(** Python truthiness of an [str | None] value. *)
Definition truthy (o : option string) : bool :=
  match o with
  | None => false
  | Some s => negb (bool_decide (s = ""))
  end.

(** ** Insertion-ordered dictionaries

    [MusicAssistant._providers] is a Python [dict]: iteration follows
    insertion order, assignment to an existing key keeps its position. *)
Module Dict.

Fixpoint get {V : Type} (k : string) (d : list (string * V)) : option V :=
  match d with
  | [] => None
  | (k', v) :: d' => if decide (k = k') then Some v else get k d'
  end.

Fixpoint set {V : Type} (k : string) (v : V) (d : list (string * V)) : list (string * V) :=
  match d with
  | [] => [(k, v)]
  | (k', v') :: d' =>
      if decide (k = k') then (k, v) :: d' else (k', v') :: set k v d'
  end.

Definition pop {V : Type} (k : string) (d : list (string * V)) : list (string * V) :=
  List.filter (fun kv => negb (bool_decide (kv.1 = k))) d.

Definition values {V : Type} (d : list (string * V)) : list V := map snd d.

(** [d[k] = f(d[k])] for a key that is present; used for attribute
    assignments on an object that the dictionary holds. *)
Definition update {V : Type} (k : string) (f : V -> V) (d : list (string * V)) : list (string * V) :=
  match get k d with
  | Some v => set k (f v) d
  | None => d
  end.

End Dict.

(** [list.remove(x)]: drops the first element equal to [x]; [None] stands
    for the [ValueError] of a missing element. *)
Fixpoint list_remove {A : Type} `{EqDecision A} (x : A) (l : list A) : option (list A) :=
  match l with
  | [] => None
  | y :: l' => if decide (x = y) then Some l' else cons y <$> list_remove x l'
  end.

(** ** Data model *)

(** [ProviderManifest] ([common/models/provider.py]); the fields that the
    lifecycle code reads. *)
Record ProviderManifest : Type := mkManifest {
  manifest_type : ProviderType;
  manifest_domain : string;
  manifest_name : string;
  init_class : option string;
  multi_instance : bool;
  builtin : bool;
  load_by_default : bool;
  depends_on : option string
}.

(** Modelled from the spec: [ProviderConfig] is declared in
    [common/models/config_entries.py], which is not part of the sources at
    hand; section 3 gives it an instance id, a domain and the [enabled]
    flag. *)
Record ProviderConfig : Type := mkConfig {
  conf_instance_id : string;
  conf_domain : string;
  enabled : bool
}.

(** How the coroutine behind a task answers [task.cancel()], as seen by
    whoever awaits the task afterwards. [Cancelled]: the coroutine lets the
    [CancelledError] thrown into it propagate, the task ends cancelled and
    [await task] raises [CancelledError] in the awaiter. [Returned]: the
    coroutine finishes normally (it swallowed the cancellation or was
    already past its last suspension point). [Failed e]: it ends with the
    exception [e], which [await task] re-raises. *)
Inductive CancelResponse : Type :=
| Cancelled
| Returned
| Failed (e : Exn).

(** The overridable coroutines of a provider class, abstracted to what the
    core observes of them: whether [setup()] and [close()] return or raise,
    and how a running [sync_library()] answers cancellation. *)
Record ProviderBehaviour : Type := mkBehaviour {
  on_setup : option Exn;
  on_close : option Exn;
  sync_on_cancel : CancelResponse
}.

(** A runtime provider instance ([server/models/provider.py]). *)
Record Provider : Type := mkProvider {
  manifest : ProviderManifest;
  config : ProviderConfig;
  available : bool;
  last_error : option string;
  behaviour : ProviderBehaviour
}.

(** [Provider.__init__] *)
Definition Provider__init__
    (manifest : ProviderManifest) (config : ProviderConfig) (cls : ProviderBehaviour) : Provider :=
  {| manifest := manifest; config := config;
     available := false; last_error := None; behaviour := cls |}.

(** The properties [Provider.type], [Provider.domain], [Provider.instance_id]. *)
Definition type (p : Provider) : ProviderType := manifest_type (manifest p).
Definition domain (p : Provider) : string := manifest_domain (manifest p).
Definition instance_id (p : Provider) : string := conf_instance_id (config p).

Definition set_available (b : bool) (p : Provider) : Provider :=
  {| manifest := manifest p; config := config p;
     available := b; last_error := last_error p; behaviour := behaviour p |}.

Definition set_last_error (e : option string) (p : Provider) : Provider :=
  {| manifest := manifest p; config := config p;
     available := available p; last_error := e; behaviour := behaviour p |}.

(** An [asyncio.Task] made by [MusicAssistant.create_task]: its identity
    and the cancellation behaviour of the coroutine it runs. *)
Record Task : Type := mkTask {
  task_id : nat;
  task_on_cancel : CancelResponse
}.

(** [SyncTask] ([common/models/provider.py]) *)
Record SyncTask : Type := mkSyncTask {
  provider_domain : string;
  provider_instance : string;
  media_types : list MediaType;
  task : Task
}.

(** The [data] payload of the events the core signals itself. *)
Inductive EventData : Type :=
| NoData
| ProvidersData (providers : list Provider)
| SyncTasksData (syncs : list SyncTask).

(** [MassEvent] *)
Record MassEvent : Type := mkEvent {
  event : EventType;
  object_id : option string;
  data : EventData
}.

(** A callback handed to [subscribe]: its identity and whether
    [asyncio.iscoroutinefunction] holds of it. *)
Record Callback : Type := mkCallback {
  cb_id : nat;
  cb_is_coroutine : bool
}.

(** [EventSubscriptionType]: the tuple [(cb_func, event_filter, id_filter)]. *)
Record Subscription : Type := mkSubscription {
  cb_func : Callback;
  event_filter : option (list EventType);
  id_filter : option (list string)
}.

(** A filter argument of [subscribe]: absent, a single value, or a tuple. *)
Inductive FilterArg (A : Type) : Type :=
| NoFilter
| Single (a : A)
| Several (l : list A).
Arguments NoFilter {A}.
Arguments Single {A} a.
Arguments Several {A} l.

(** What the event loop was asked to run for one listener: the loop body of
    [signal_event] hands [cb_func(event_obj)] to
    [asyncio.run_coroutine_threadsafe] or to [loop.call_soon_threadsafe]. *)
Inductive Delivery : Type :=
| RunCoroutine (listener : Subscription) (ev : MassEvent)
| CallSoon (listener : Subscription) (ev : MassEvent).

(** A member of an imported provider package as [inspect.getmembers] lists
    it: anything that is not a class, or a class together with its relation
    to the four provider base classes. *)
Inductive ClassKind : Type :=
| ProviderBaseClass
| ProviderSubclass
| UnrelatedClass.

Inductive Member : Type :=
| NotAClass
| AClass (kind : ClassKind) (cls : ProviderBehaviour).

(** Calls into collaborators, recorded in the order they are made. *)
Inductive Call : Type :=
| SetupCalled (instance_id : string)
| CloseCalled (instance_id : string)
| TaskCancelled (task_id : nat)
| TaskAwaited (task_id : nat)
| MetadataScanStarted.

#[global] Instance ClassKind_eq_dec : EqDecision ClassKind.
Proof. solve_decision. Defined.
#[global] Instance CancelResponse_eq_dec : EqDecision CancelResponse.
Proof. solve_decision. Defined.
#[global] Instance ProviderManifest_eq_dec : EqDecision ProviderManifest.
Proof. solve_decision. Defined.
#[global] Instance ProviderConfig_eq_dec : EqDecision ProviderConfig.
Proof. solve_decision. Defined.
#[global] Instance ProviderBehaviour_eq_dec : EqDecision ProviderBehaviour.
Proof. solve_decision. Defined.
#[global] Instance Provider_eq_dec : EqDecision Provider.
Proof. solve_decision. Defined.
#[global] Instance Task_eq_dec : EqDecision Task.
Proof. solve_decision. Defined.
#[global] Instance SyncTask_eq_dec : EqDecision SyncTask.
Proof. solve_decision. Defined.
#[global] Instance EventData_eq_dec : EqDecision EventData.
Proof. solve_decision. Defined.
#[global] Instance MassEvent_eq_dec : EqDecision MassEvent.
Proof. solve_decision. Defined.
#[global] Instance Callback_eq_dec : EqDecision Callback.
Proof. solve_decision. Defined.
#[global] Instance Subscription_eq_dec : EqDecision Subscription.
Proof. solve_decision. Defined.
#[global] Instance Delivery_eq_dec : EqDecision Delivery.
Proof. solve_decision. Defined.

(** ** The server state

    The attributes of [MusicAssistant] and of its [MusicController] that the
    lifecycle code touches, the importable provider packages, and the record
    of what has been handed to the event loop and to collaborators. *)
Record MusicAssistant : Type := mkMass {
  closing : bool;
  _subscribers : list Subscription;
  _available_providers : gmap string ProviderManifest;
  _providers : list (string * Provider);
  _tracked_tasks : list Task;
  in_progress_syncs : list SyncTask;       (* self.music.in_progress_syncs *)
  provider_modules : gmap string (list (string * Member));
  next_task_id : nat;
  scheduled : list Delivery;               (* callbacks handed to self.loop *)
  signalled : list MassEvent;              (* every MassEvent constructed *)
  calls : list Call
}.

Definition with_subscribers (f : list Subscription -> list Subscription) (s : MusicAssistant) : MusicAssistant :=
  {| closing := closing s; _subscribers := f (_subscribers s);
     _available_providers := _available_providers s; _providers := _providers s;
     _tracked_tasks := _tracked_tasks s; in_progress_syncs := in_progress_syncs s;
     provider_modules := provider_modules s; next_task_id := next_task_id s;
     scheduled := scheduled s; signalled := signalled s; calls := calls s |}.

Definition with_providers (f : list (string * Provider) -> list (string * Provider)) (s : MusicAssistant) : MusicAssistant :=
  {| closing := closing s; _subscribers := _subscribers s;
     _available_providers := _available_providers s; _providers := f (_providers s);
     _tracked_tasks := _tracked_tasks s; in_progress_syncs := in_progress_syncs s;
     provider_modules := provider_modules s; next_task_id := next_task_id s;
     scheduled := scheduled s; signalled := signalled s; calls := calls s |}.

Definition with_tracked_tasks (f : list Task -> list Task) (s : MusicAssistant) : MusicAssistant :=
  {| closing := closing s; _subscribers := _subscribers s;
     _available_providers := _available_providers s; _providers := _providers s;
     _tracked_tasks := f (_tracked_tasks s); in_progress_syncs := in_progress_syncs s;
     provider_modules := provider_modules s; next_task_id := next_task_id s;
     scheduled := scheduled s; signalled := signalled s; calls := calls s |}.

Definition with_in_progress_syncs (f : list SyncTask -> list SyncTask) (s : MusicAssistant) : MusicAssistant :=
  {| closing := closing s; _subscribers := _subscribers s;
     _available_providers := _available_providers s; _providers := _providers s;
     _tracked_tasks := _tracked_tasks s; in_progress_syncs := f (in_progress_syncs s);
     provider_modules := provider_modules s; next_task_id := next_task_id s;
     scheduled := scheduled s; signalled := signalled s; calls := calls s |}.

Definition with_next_task_id (n : nat) (s : MusicAssistant) : MusicAssistant :=
  {| closing := closing s; _subscribers := _subscribers s;
     _available_providers := _available_providers s; _providers := _providers s;
     _tracked_tasks := _tracked_tasks s; in_progress_syncs := in_progress_syncs s;
     provider_modules := provider_modules s; next_task_id := n;
     scheduled := scheduled s; signalled := signalled s; calls := calls s |}.

Definition with_signal (ds : list Delivery) (ev : MassEvent) (s : MusicAssistant) : MusicAssistant :=
  {| closing := closing s; _subscribers := _subscribers s;
     _available_providers := _available_providers s; _providers := _providers s;
     _tracked_tasks := _tracked_tasks s; in_progress_syncs := in_progress_syncs s;
     provider_modules := provider_modules s; next_task_id := next_task_id s;
     scheduled := scheduled s ++ ds; signalled := signalled s ++ [ev]; calls := calls s |}.

Definition with_call (c : Call) (s : MusicAssistant) : MusicAssistant :=
  {| closing := closing s; _subscribers := _subscribers s;
     _available_providers := _available_providers s; _providers := _providers s;
     _tracked_tasks := _tracked_tasks s; in_progress_syncs := in_progress_syncs s;
     provider_modules := provider_modules s; next_task_id := next_task_id s;
     scheduled := scheduled s; signalled := signalled s; calls := calls s ++ [c] |}.

(** The monad of the server's methods. *)
Abbreviation Mass := (M MusicAssistant).

(** ** Event bus ([MusicAssistant.signal_event], [MusicAssistant.subscribe]) *)

(** [event_filter is None or event in event_filter] *)
Definition event_filter_matches (flt : option (list EventType)) (ev : EventType) : bool :=
  match flt with
  | None => true
  | Some evs => bool_decide (ev ∈ evs)
  end.

(** [id_filter is None or object_id in id_filter]; the filter is a tuple of
    strings, so an absent object id ([None]) is in no filter. *)
Definition id_filter_matches (flt : option (list string)) (oid : option string) : bool :=
  match flt with
  | None => true
  | Some ids =>
      match oid with
      | Some i => bool_decide (i ∈ ids)
      | None => false
      end
  end.

Definition listener_matches (ev : EventType) (oid : option string) (l : Subscription) : bool :=
  event_filter_matches (event_filter l) ev && id_filter_matches (id_filter l) oid.

(** The last four lines of [signal_event]'s loop body. *)
Definition deliver (event_obj : MassEvent) (l : Subscription) : Delivery :=
  if cb_is_coroutine (cb_func l)
  then RunCoroutine l event_obj
  else CallSoon l event_obj.

(** [MusicAssistant.signal_event]; the debug logging has no effect on the
    state. [_subscribers] is a Python [set]: the order of the loop is not
    fixed by the language, the model walks the listeners in list order. *)
Definition signal_event (ev : EventType) (oid : option string) (d : EventData) : Mass unit :=
  fun s =>
    if closing s then (s, Ok tt)
    else
      let event_obj := {| event := ev; object_id := oid; data := d |} in
      let ds := map (deliver event_obj) (List.filter (listener_matches ev oid) (_subscribers s)) in
      (with_signal ds event_obj s, Ok tt).

(** The normalisation of a filter argument in [subscribe]. *)
Definition filter_of_arg {A : Type} (a : FilterArg A) : option (list A) :=
  match a with
  | NoFilter => None
  | Single x => Some [x]
  | Several l => Some l
  end.

(** [set.add] *)
Definition set_add {A : Type} `{EqDecision A} (x : A) (l : list A) : list A :=
  if decide (x ∈ l) then l else l ++ [x].

(** [MusicAssistant.subscribe]: returns the listener tuple, which is what
    the returned [remove_listener] closure holds on to. *)
Definition subscribe (cb : Callback) (ef : FilterArg EventType) (idf : FilterArg string) : Mass Subscription :=
  let listener := {| cb_func := cb; event_filter := filter_of_arg ef; id_filter := filter_of_arg idf |} in
  modify (with_subscribers (set_add listener)) >> ret listener.

(** The closure [remove_listener]; [set.remove] raises [KeyError] on a
    missing element. *)
Definition remove_listener (listener : Subscription) : Mass unit :=
  fun s =>
    match list_remove listener (_subscribers s) with
    | Some l => (with_subscribers (fun _ => l) s, Ok tt)
    | None => (s, Raise (KeyError "listener"))
    end.

(** ** Provider registry queries *)

(** [MusicAssistant.get_providers] *)
Definition get_providers (provider_type : option ProviderType) (s : MusicAssistant) : list Provider :=
  List.filter (fun x => match provider_type with
                        | None => true
                        | Some t => bool_decide (t = type x)
                        end)
              (Dict.values (_providers s)).

(** The property [MusicAssistant.providers]. *)
Definition providers (s : MusicAssistant) : list Provider := Dict.values (_providers s).

(** The property [MusicController.providers]. *)
Definition music_providers (s : MusicAssistant) : list Provider := get_providers (Some MUSIC) s.

(** [MusicAssistant.get_provider] *)
Definition get_provider (provider_instance_or_domain : string) : Mass Provider :=
  fun s =>
    match Dict.get provider_instance_or_domain (_providers s) with
    | Some prov => (s, Ok prov)
    | None =>
        match find (fun prov => bool_decide (domain prov = provider_instance_or_domain))
                   (Dict.values (_providers s)) with
        | Some prov => (s, Ok prov)
        | None =>
            (s, Raise (ProviderUnavailableError
                         ("Provider " +:+ provider_instance_or_domain +:+ " is not available")))
        end
    end.

(** ** Task tracking ([MusicAssistant.create_task]) *)

(** [create_task(provider.sync_library(media_types))]: a new task running
    the provider's sync coroutine is appended to [_tracked_tasks]; its done
    callback is [task_done_callback] below. *)
Definition create_task (job : CancelResponse) : Mass Task :=
  fun s =>
    let t := {| task_id := next_task_id s; task_on_cancel := job |} in
    (with_tracked_tasks (fun l => l ++ [t]) (with_next_task_id (S (next_task_id s)) s), Ok t).

(** The closure [task_done_callback] of [create_task]. An exception raised
    inside a done callback ([list.remove] of a missing task) is reported to
    the loop's exception handler and goes no further. *)
Definition task_done_callback (t : Task) : Mass unit :=
  fun s =>
    match list_remove t (_tracked_tasks s) with
    | Some l => (with_tracked_tasks (fun _ => l) s, Ok tt)
    | None => (s, Ok tt)
    end.

(** ** Sync scheduling ([MusicController]) *)

(** The closure [on_sync_task_done] of [_start_provider_sync]. *)
Definition on_sync_task_done (sync_spec : SyncTask) : Mass unit :=
  fun s =>
    match list_remove sync_spec (in_progress_syncs s) with
    | Some l =>
        let s' := with_in_progress_syncs (fun _ => l) s in
        signal_event SYNC_TASKS_UPDATED None (SyncTasksData (in_progress_syncs s')) s'
    | None => (s, Ok tt)
    end.

(** The dedup test of [_start_provider_sync]: some in-flight task of this
    provider instance holds one of the requested media types. *)
Definition sync_in_progress (provider_instance' : string) (media_types' : list MediaType)
    (syncs : list SyncTask) : bool :=
  existsb (fun sync_task =>
             bool_decide (provider_instance sync_task = provider_instance')
             && existsb (fun media_type => bool_decide (media_type ∈ media_types sync_task))
                        media_types')
          syncs.

(** [MusicController._start_provider_sync] *)
Definition _start_provider_sync (provider_instance' : string) (media_types' : list MediaType) : Mass unit :=
  fun s =>
    if sync_in_progress provider_instance' media_types' (in_progress_syncs s)
    then (s, Ok tt)
    else
      (let* provider := get_provider provider_instance' in
       let* task := create_task (sync_on_cancel (behaviour provider)) in
       let sync_spec := {| provider_domain := domain provider;
                           provider_instance := instance_id provider;
                           media_types := media_types';
                           task := task |} in
       modify (with_in_progress_syncs (fun l => l ++ [sync_spec])) >>
       let* syncs := gets in_progress_syncs in
       signal_event SYNC_TASKS_UPDATED None (SyncTasksData syncs)) s.

(** [self.mass.metadata.start_scan()]: the metadata controller is a
    collaborator outside the core; the call is recorded. *)
Definition metadata_start_scan : Mass unit := modify (with_call MetadataScanStarted).

(** [MusicController.start_sync] *)
Definition start_sync (media_types' : option (list MediaType)) (providers' : option (list string)) : Mass unit :=
  fun s =>
    let media_types' := default MediaType_ALL media_types' in
    let providers' := default (map instance_id (music_providers s)) providers' in
    (for_each (music_providers s)
       (fun provider =>
          if decide (instance_id provider ∈ providers')
          then _start_provider_sync (instance_id provider) media_types'
          else ret tt) >>
     metadata_start_scan) s.

(** ** Cancelling and awaiting a sync task *)

(** [sync_task.task.cancel()]: a request; the task ends later, while the
    caller is suspended in [await]. *)
Definition task_cancel (t : Task) : Mass unit := modify (with_call (TaskCancelled (task_id t))).

(** [await sync_task.task] on a task that was just asked to cancel. While
    the caller is suspended the task ends and the event loop runs its done
    callbacks in the order they were added: [task_done_callback] (added by
    [create_task]), then [on_sync_task_done] (added by
    [_start_provider_sync]), then the wake-up of the awaiting coroutine.
    The awaiter resumes with the task's result: a cancelled task raises
    [CancelledError] in it, a failed task re-raises its exception. No other
    coroutine is taken to run in between. *)
Definition await_cancelled_task (sync_task : SyncTask) : Mass unit :=
  modify (with_call (TaskAwaited (task_id (task sync_task)))) >>
  task_done_callback (task sync_task) >>
  on_sync_task_done sync_task >>
  match task_on_cancel (task sync_task) with
  | Cancelled => raise CancelledError
  | Returned => ret tt
  | Failed e => raise e
  end.

(** The [for sync_task in self.music.in_progress_syncs] loop of
    [unload_provider]. The list iterated is the live list that
    [on_sync_task_done] removes from, so the loop is written as Python's
    list iterator runs it: an index [i] into the current list, advanced by
    one after each element. The list never grows inside the loop, so
    [length] of it bounds the number of rounds ([fuel]). *)
Fixpoint stop_sync_tasks (instance_id' : string) (fuel i : nat) : Mass unit :=
  match fuel with
  | 0 => ret tt
  | S fuel' =>
      fun s =>
        match in_progress_syncs s !! i with
        | None => (s, Ok tt)
        | Some sync_task =>
            ((if decide (provider_instance sync_task = instance_id')
              then task_cancel (task sync_task) >> await_cancelled_task sync_task
              else ret tt) >>
             stop_sync_tasks instance_id' fuel' (S i)) s
        end
  end.

(** [await provider.close()] *)
Definition provider_close (provider : Provider) : Mass unit :=
  modify (with_call (CloseCalled (instance_id provider))) >>
  match on_close (behaviour provider) with
  | None => ret tt
  | Some e => raise e
  end.

(** [await provider.setup()] *)
Definition provider_setup (provider : Provider) : Mass unit :=
  modify (with_call (SetupCalled (instance_id provider))) >>
  match on_setup (behaviour provider) with
  | None => ret tt
  | Some e => raise e
  end.

(** [self._providers.pop(instance_id)] *)
Definition providers_pop (instance_id' : string) : Mass unit :=
  fun s =>
    match Dict.get instance_id' (_providers s) with
    | Some _ => (with_providers (Dict.pop instance_id') s, Ok tt)
    | None => (s, Raise (KeyError instance_id'))
    end.

(** [MusicAssistant.unload_provider] *)
Definition unload_provider (instance_id' : string) : Mass unit :=
  fun s =>
    match Dict.get instance_id' (_providers s) with
    | Some provider =>
        (stop_sync_tasks instance_id' (length (in_progress_syncs s)) 0 >>
         provider_close provider >>
         providers_pop instance_id' >>
         let* provs := gets (get_providers None) in
         signal_event PROVIDERS_UPDATED None (ProvidersData provs)) s
    | None => (s, Ok tt)
    end.

(** ** Loading providers ([MusicAssistant.load_provider]) *)

(** [importlib.import_module(f".{domain}", "music_assistant.server.providers")]
    followed by [inspect.getmembers]. *)
Definition import_module (domain' : string) : Mass (list (string * Member)) :=
  fun s =>
    match provider_modules s !! domain' with
    | Some members => (s, Ok members)
    | None => (s, Raise (ModuleNotFoundError ("No module named " +:+ domain')))
    end.

(** The test of the class lookup loop in [load_provider]. *)
Definition is_provider_class (prov_manifest : ProviderManifest) (name : string) (obj : Member)
    : option ProviderBehaviour :=
  match obj with
  | NotAClass => None
  | AClass kind cls =>
      if bool_decide (Some name = init_class prov_manifest)
         || (negb (truthy (init_class prov_manifest)) && bool_decide (kind = ProviderSubclass))
      then Some cls
      else None
  end.

(** The [for name, obj in inspect.getmembers(prov_mod): ... break] loop of
    [load_provider]: the first member that passes the test. *)
Fixpoint find_provider_class (prov_manifest : ProviderManifest) (members : list (string * Member))
    : option ProviderBehaviour :=
  match members with
  | [] => None
  | (name, obj) :: members' =>
      match is_provider_class prov_manifest name obj with
      | Some prov_cls => Some prov_cls
      | None => find_provider_class prov_manifest members'
      end
  end.

(** The loop together with its [else: raise AttributeError(...)]. *)
Definition locate_class (prov_manifest : ProviderManifest) (members : list (string * Member))
    : Mass ProviderBehaviour :=
  match find_provider_class prov_manifest members with
  | Some prov_cls => ret prov_cls
  | None => raise (AttributeError "Unable to locate Provider class")
  end.

(** An attribute assignment on the provider object, which the registry
    holds under its instance id. *)
Definition provider_assign (instance_id' : string) (f : Provider -> Provider) : Mass unit :=
  modify (with_providers (Dict.update instance_id' f)).

(** The body of the outer [try] of [load_provider]. *)
Definition load_provider_body (prov_manifest : ProviderManifest) (conf : ProviderConfig) : Mass unit :=
  let* prov_mod := import_module (conf_domain conf) in
  let* prov_cls := locate_class prov_manifest prov_mod in
  let provider := Provider__init__ prov_manifest conf prov_cls in
  modify (with_providers (Dict.set (instance_id provider) provider)) >>
  try_except (provider_setup provider) is_MusicAssistantError
    (fun err =>
       provider_assign (instance_id provider) (set_last_error (Some (str_of_exn err))) >>
       provider_assign (instance_id provider) (set_available false) >>
       raise err) >>
  provider_assign (instance_id provider) (set_available true) >>
  provider_assign (instance_id provider) (set_last_error None) >>
  if decide (type provider = MUSIC)
  then start_sync None (Some [instance_id provider])
  else ret tt.

(** [MusicAssistant.load_provider]; logging has no effect on the state. *)
Definition load_provider (conf : ProviderConfig) : Mass unit :=
  unload_provider (conf_instance_id conf) >>
  if negb (enabled conf) then ret tt
  else
    let domain' := conf_domain conf in
    let* prov_manifest := gets (fun s => _available_providers s !! domain') in
    let* existing := gets (fun s => find (fun x => bool_decide (domain x = domain')) (providers s)) in
    match existing, prov_manifest with
    | Some _, None =>
        (* [prov_manifest.multi_instance] on [None] *)
        raise (AttributeError "'NoneType' object has no attribute 'multi_instance'")
    | Some _, Some m =>
        if negb (multi_instance m)
        then raise (SetupFailedError
                      ("Provider " +:+ domain' +:+ " already loaded and only one instance allowed."))
        else ret tt
    | None, _ => ret tt
    end >>
    match prov_manifest with
    | None => raise (SetupFailedError ("Provider " +:+ domain' +:+ " manifest not found"))
    | Some prov_manifest =>
        try_except (load_provider_body prov_manifest conf) is_Exception (fun exc => ret tt) >>
        let* provs := gets (get_providers None) in
        signal_event PROVIDERS_UPDATED None (ProvidersData provs)
    end.

(** The body of the inner loop of [_load_providers]. *)
Definition load_configured (allow_depends_on : bool) (prov_conf : ProviderConfig) : Mass unit :=
  fun s =>
    match _available_providers s !! conf_domain prov_conf with
    | None => (s, Raise (KeyError (conf_domain prov_conf)))
    | Some prov_manifest =>
        if truthy (depends_on prov_manifest) && negb allow_depends_on then (s, Ok tt)
        else if bool_decide (is_Some (Dict.get (conf_instance_id prov_conf) (_providers s)))
             then (s, Ok tt)
             else load_provider prov_conf s
    end.

(** The loading loop of [MusicAssistant._load_providers]. What precedes it
    there (reading the manifest files, creating default configs) is the
    work of collaborators outside the core: the manifests found are the
    state's [_available_providers], and [provider_configs] is what
    [self.config.get_provider_configs()] returns. *)
Definition _load_providers (provider_configs : list ProviderConfig) : Mass unit :=
  for_each [false; true]
    (fun allow_depends_on => for_each provider_configs (load_configured allow_depends_on)).

(** ** The library database ([MusicController._setup_database]) *)

(** Python's [int(text)] on ASCII text: surrounding whitespace is dropped,
    one sign is allowed, the digits may be grouped by single underscores. *)
Definition is_space (c : ascii) : bool :=
  let n := nat_of_ascii c in
  bool_decide (n = 32 ∨ (9 <= n ∧ n <= 13) ∨ (28 <= n ∧ n <= 31)).

Fixpoint lstrip (s : string) : string :=
  match s with
  | EmptyString => EmptyString
  | String c r => if is_space c then lstrip r else s
  end.

Fixpoint rstrip (s : string) : string :=
  match s with
  | EmptyString => EmptyString
  | String c r =>
      match rstrip r with
      | EmptyString => if is_space c then EmptyString else String c EmptyString
      | r' => String c r'
      end
  end.

Definition strip (s : string) : string := rstrip (lstrip s).

Fixpoint underscores_ok (after_digit : bool) (s : string) : bool :=
  match s with
  | EmptyString => after_digit
  | String c r =>
      if Ascii.eqb c "_" then after_digit && underscores_ok false r
      else underscores_ok true r
  end.

Fixpoint remove_underscores (s : string) : string :=
  match s with
  | EmptyString => EmptyString
  | String c r => if Ascii.eqb c "_" then remove_underscores r else String c (remove_underscores r)
  end.

Definition py_digits (s : string) : option Z :=
  if underscores_ok false s
  then Z.of_uint <$> NilZero.uint_of_string (remove_underscores s)
  else None.

(** [int(s)]; [None] stands for [ValueError]. *)
Definition py_int (s : string) : option Z :=
  match strip s with
  | String "-" r => Z.opp <$> py_digits r
  | String "+" r => py_digits r
  | r => py_digits r
  end.

(** [str(n)] for an [int] *)
Definition py_str (n : Z) : string := NilZero.string_of_int (Z.to_int n).

(** Modelled from the spec: the table-name constants of [constants.py] are
    not part of the sources at hand; section 6 names the tables. The five
    type-specific names also occur verbatim in the index statements of
    [__create_database_tables]. *)
Definition DB_TABLE_SETTINGS : string := "settings".
Definition DB_TABLE_TRACK_LOUDNESS : string := "track_loudness".
Definition DB_TABLE_PLAYLOG : string := "play_log".
Definition DB_TABLE_ALBUMS : string := "albums".
Definition DB_TABLE_ARTISTS : string := "artists".
Definition DB_TABLE_TRACKS : string := "tracks".
Definition DB_TABLE_PLAYLISTS : string := "playlists".
Definition DB_TABLE_RADIOS : string := "radios".
Definition DB_TABLE_PROVIDER_MAPPINGS : string := "provider_mappings".

(** A row maps column names to values; a database maps the names of the
    tables that exist to their rows. *)
Abbreviation Row := (gmap string string).
Abbreviation Database := (gmap string (list Row)).
Abbreviation Db := (M Database).

(** Modelled from the spec: [DatabaseConnection] lives in
    [server/helpers/database.py], which is not part of the sources at hand.
    Section 4.5 gives its operations (get, insert-or-replace, statement
    execution); indexes and [VACUUM] do not change what the tables hold. *)

(** [execute("CREATE TABLE IF NOT EXISTS <table>(...)")] *)
Definition create_table_if_not_exists (table : string) : Db unit :=
  modify (fun db : Database =>
            match db !! table with
            | Some _ => db
            | None => <[table := []]> db
            end).

(** [execute("DROP TABLE IF EXISTS <table>")] *)
Definition drop_table_if_exists (table : string) : Db unit :=
  modify (fun db : Database => delete table db).

(** [execute("CREATE INDEX IF NOT EXISTS ...")], [execute("VACUUM")] *)
Definition execute_no_data_change : Db unit := ret tt.

Definition row_matches (match_ : list (string * string)) (row : Row) : bool :=
  forallb (fun kv => bool_decide (row !! kv.1 = Some kv.2)) match_.

(** [get_row(table, match)] *)
Definition get_row (table : string) (match_ : list (string * string)) : Db (option Row) :=
  fun db =>
    match db !! table with
    | Some rows => (db, Ok (find (row_matches match_) rows))
    | None => (db, Raise (OtherException ("no such table: " +:+ table)))
    end.

(** [insert_or_replace(table, values)]: a row that agrees with the new one
    on the table's key column is replaced. *)
Definition insert_or_replace (table key_column : string) (values : Row) : Db unit :=
  fun db =>
    match db !! table with
    | Some rows =>
        let kept := List.filter (fun row => negb (bool_decide (row !! key_column = values !! key_column))) rows in
        (<[table := kept ++ [values]]> db, Ok tt)
    | None => (db, Raise (OtherException ("no such table: " +:+ table)))
    end.

(** [MusicController.__create_database_tables] *)
Definition __create_database_tables : Db unit :=
  create_table_if_not_exists DB_TABLE_SETTINGS >>
  create_table_if_not_exists DB_TABLE_TRACK_LOUDNESS >>
  create_table_if_not_exists DB_TABLE_PLAYLOG >>
  create_table_if_not_exists DB_TABLE_ALBUMS >>
  create_table_if_not_exists DB_TABLE_ARTISTS >>
  create_table_if_not_exists DB_TABLE_TRACKS >>
  create_table_if_not_exists DB_TABLE_PLAYLISTS >>
  create_table_if_not_exists DB_TABLE_RADIOS >>
  create_table_if_not_exists DB_TABLE_PROVIDER_MAPPINGS >>
  execute_no_data_change.

(** The [try] block of [_setup_database] that reads the stored version. *)
Definition read_prev_version : Db Z :=
  try_except
    (let* db_row := get_row DB_TABLE_SETTINGS [("key", "version")] in
     match db_row with
     | Some row =>
         match row !! "value" with
         | Some value =>
             match py_int value with
             | Some n => ret n
             | None => raise (ValueError "invalid literal for int()")
             end
         | None => raise (KeyError "value")
         end
     | None => ret 0%Z
     end)
    (fun e => match e with KeyError _ | ValueError _ => true | _ => false end)
    (fun _ => ret 0%Z).

(** The version row written at the end of [_setup_database]. *)
Definition version_row (SCHEMA_VERSION : Z) : Row :=
  <["key" := "version"]> (<["value" := py_str SCHEMA_VERSION]> (<["type" := "str"]> ∅)).

(** The five type-specific tables, in the order [_setup_database] drops
    them. *)
Definition media_tables : list string :=
  [DB_TABLE_ARTISTS; DB_TABLE_ALBUMS; DB_TABLE_TRACKS; DB_TABLE_PLAYLISTS; DB_TABLE_RADIOS].

(** [MusicController._setup_database], on an opened connection;
    [SCHEMA_VERSION] is the constant of [constants.py]. *)
Definition _setup_database (SCHEMA_VERSION : Z) : Db unit :=
  __create_database_tables >>
  let* prev_version := read_prev_version in
  (if negb (bool_decide (prev_version = 0%Z ∨ prev_version = SCHEMA_VERSION))
   then
     if (prev_version <? SCHEMA_VERSION)%Z
     then for_each media_tables drop_table_if_exists >> __create_database_tables
     else ret tt
   else ret tt) >>
  insert_or_replace DB_TABLE_SETTINGS "key" (version_row SCHEMA_VERSION) >>
  execute_no_data_change.

(** ** Filesystem sync ([FileSystemProviderBase.sync_library]) *)

Definition TRACK_EXTENSIONS : list string :=
  ["mp3"; "m4a"; "mp4"; "flac"; "wav"; "ogg"; "aiff"; "wma"; "dsf"].
Definition PLAYLIST_EXTENSIONS : list string := ["m3u"; "pls"].
Definition SUPPORTED_EXTENSIONS : list string := TRACK_EXTENSIONS ++ PLAYLIST_EXTENSIONS.

(** [FileSystemItem]; the fields that [sync_library] reads. *)
Record FileSystemItem : Type := mkItem {
  name : string;
  path : string;
  checksum : string
}.

(** [s.rsplit(".", 1)[1]]: what follows the last dot; [None] stands for the
    [IndexError] of a name without a dot. *)
Fixpoint after_last_dot (s : string) : option string :=
  match s with
  | EmptyString => None
  | String c r =>
      match after_last_dot r with
      | Some e => Some e
      | None => if Ascii.eqb c "." then Some r else None
      end
  end.

(** The property [FileSystemItem.ext]. *)
Definition ext (item : FileSystemItem) : option string := after_last_dot (name item).

(** The two guards at the head of the walk loop: the name has a dot, a
    non-empty extension, and the extension is a supported one. *)
Definition supported (item : FileSystemItem) : bool :=
  match ext item with
  | None | Some EmptyString => false
  | Some e => bool_decide (e ∈ SUPPORTED_EXTENSIONS)
  end.

(** What [get_track] and [get_playlist] return, as far as [sync_library]
    and the store are concerned: the provider item id and, for a playlist,
    the two attributes [sync_library] assigns before the upsert. *)
Record Track : Type := mkTrack {
  track_item_id : string
}.

Record Playlist : Type := mkPlaylist {
  playlist_item_id : string;
  playlist_checksum : string;       (* playlist.metadata.checksum *)
  playlist_in_library : bool
}.

(** Calls [sync_library] makes into the parsers and the store, in order.
    [overwrite_existing] is recorded as passed: the playlist upsert passes
    no such argument. *)
Inductive SyncCall : Type :=
| GetTrack (prov_track_id : string)
| GetPlaylist (prov_playlist_id : string)
| TracksAddDbItem (track : Track) (overwrite_existing : bool)
| PlaylistsAddDbItem (playlist : Playlist)
| ProcessDeletions (deleted_files : gset string).

#[global] Instance Track_eq_dec : EqDecision Track.
Proof. solve_decision. Defined.
#[global] Instance Playlist_eq_dec : EqDecision Playlist.
Proof. solve_decision. Defined.
#[global] Instance SyncCall_eq_dec : EqDecision SyncCall.
Proof. solve_decision. Defined.

(** Modelled from the spec: the cache controller ([controllers/cache.py])
    is not part of the sources at hand. Section 6 has the checksum map
    stored under the key [{provider_instance}.checksums] and gated by the
    schema version: an entry written under another version reads as
    absent. *)
Abbreviation Checksums := (gmap string string).
Abbreviation Cache := (gmap string (Z * Checksums)).

Definition cache_get (cache : Cache) (key : string) (version : Z) : option Checksums :=
  match cache !! key with
  | Some (v, data) => if decide (v = version) then Some data else None
  | None => None
  end.

Definition cache_set (key : string) (data : Checksums) (version : Z) (cache : Cache) : Cache :=
  <[key := (version, data)]> cache.

(** The state of one run of [sync_library]: the cache, the calls made so
    far, and the two locals the walk loop carries. *)
Record SyncState : Type := mkSyncState {
  cache : Cache;
  sync_calls : list SyncCall;
  cur_checksums : Checksums;
  save_checksum_interval : nat
}.

Abbreviation Sync := (M SyncState).

Definition sync_call (c : SyncCall) : Sync unit :=
  modify (fun st => {| cache := cache st; sync_calls := sync_calls st ++ [c];
                       cur_checksums := cur_checksums st;
                       save_checksum_interval := save_checksum_interval st |}).

Definition set_cur_checksum (p c : string) : Sync unit :=
  modify (fun st => {| cache := cache st; sync_calls := sync_calls st;
                       cur_checksums := <[p := c]> (cur_checksums st);
                       save_checksum_interval := save_checksum_interval st |}).

Definition set_save_checksum_interval (n : nat) : Sync unit :=
  modify (fun st => {| cache := cache st; sync_calls := sync_calls st;
                       cur_checksums := cur_checksums st;
                       save_checksum_interval := n |}).

(** [await self.mass.cache.set(cache_key, cur_checksums, SCHEMA_VERSION)] *)
Definition save_checksums (cache_key : string) (SCHEMA_VERSION : Z) : Sync unit :=
  modify (fun st => {| cache := cache_set cache_key (cur_checksums st) SCHEMA_VERSION (cache st);
                       sync_calls := sync_calls st;
                       cur_checksums := cur_checksums st;
                       save_checksum_interval := save_checksum_interval st |}).

(** A provider's parsers, which read tags and files: whether they return or
    raise is theirs to decide. *)
Record Parsers : Type := mkParsers {
  get_track : string -> Outcome Track;
  get_playlist : string -> Outcome Playlist
}.

Definition lift_outcome {St A : Type} (o : Outcome A) : M St A :=
  match o with
  | Ok a => ret a
  | Raise e => raise e
  end.

(** How the [try] block of the walk loop ends: by falling through to the
    checksum-saving code below it, or by [continue]. *)
Inductive Flow : Type := FallThrough | Continue.

(** The [try] block of the walk loop, for a supported item. *)
Definition sync_item (ps : Parsers) (prev_checksums : Checksums) (item : FileSystemItem) : Sync Flow :=
  set_cur_checksum (path item) (checksum item) >>
  if decide (Some (checksum item) = prev_checksums !! path item) then ret Continue
  else
    match ext item with
    | Some e =>
        if decide (e ∈ TRACK_EXTENSIONS) then
          sync_call (GetTrack (path item)) >>
          let* track := lift_outcome (get_track ps (path item)) in
          let overwrite_existing := bool_decide (is_Some (prev_checksums !! path item)) in
          sync_call (TracksAddDbItem track overwrite_existing) >>
          ret FallThrough
        else if decide (e ∈ PLAYLIST_EXTENSIONS) then
          sync_call (GetPlaylist (path item)) >>
          let* playlist := lift_outcome (get_playlist ps (path item)) in
          let playlist := {| playlist_item_id := playlist_item_id playlist;
                             playlist_checksum := checksum item;
                             playlist_in_library := true |} in
          sync_call (PlaylistsAddDbItem playlist) >>
          ret FallThrough
        else ret FallThrough
    | None => ret FallThrough
    end.

(** The body of the walk loop. *)
Definition walk_step (ps : Parsers) (cache_key : string) (SCHEMA_VERSION : Z)
    (prev_checksums : Checksums) (item : FileSystemItem) : Sync unit :=
  if negb (supported item) then ret tt
  else
    let* flow := try_except (sync_item ps prev_checksums item) is_Exception
                   (fun err => ret FallThrough) in
    match flow with
    | Continue => ret tt
    | FallThrough =>
        let* n := gets save_checksum_interval in
        if decide (n = 100)
        then save_checksums cache_key SCHEMA_VERSION >> set_save_checksum_interval 0
        else set_save_checksum_interval (n + 1)
    end.

(** [await self._process_deletions(deleted_files)], as the run of
    [sync_library] sees it: the call is recorded with the set it is
    handed, and it ends as the loop of [_process_deletions] ends. That
    loop unpacks [file_path.rsplit(".", 1)] into two names for every path
    of the set, which raises [ValueError] for a path without a dot;
    [sync_library] has no handler around the call, so the exception
    leaves it. What the call asks of the item controllers is the matter of
    [_process_deletions] below. *)
Definition await_process_deletions (deleted_files : gset string) : Sync unit :=
  sync_call (ProcessDeletions deleted_files) >>
  if decide (set_Forall (fun file_path => is_Some (after_last_dot file_path)) deleted_files)
  then ret tt
  else raise (ValueError "not enough values to unpack (expected 2, got 1)").

(** [FileSystemProviderBase.sync_library]: [walk] is what
    [self.listdir("", recursive=True)] yields. [_process_deletions] is
    handed the set of deleted paths, after the final checksums were
    stored. The run starts with no calls made and the locals at their
    initial values. *)
Definition sync_library (ps : Parsers) (instance_id' : string) (SCHEMA_VERSION : Z)
    (walk : list FileSystemItem) (cache0 : Cache) : SyncState * Outcome unit :=
  let cache_key := instance_id' +:+ ".checksums" in
  let prev_checksums := default ∅ (cache_get cache0 cache_key SCHEMA_VERSION) in
  (for_each walk (walk_step ps cache_key SCHEMA_VERSION prev_checksums) >>
   save_checksums cache_key SCHEMA_VERSION >>
   let* cur := gets cur_checksums in
   await_process_deletions (dom prev_checksums ∖ dom cur))
    {| cache := cache0; sync_calls := []; cur_checksums := ∅; save_checksum_interval := 0 |}.

(** ** Observations used in the statements below *)

(** What one call of [signal_event] hands to the event loop. *)
Definition newly_scheduled (ev : EventType) (oid : option string) (d : EventData)
    (s : MusicAssistant) : list Delivery :=
  drop (length (scheduled s)) (scheduled (signal_event ev oid d s).1).

(** Some in-flight sync task of [provider_instance'] holds [media_type]. *)
Definition covered (provider_instance' : string) (media_type : MediaType)
    (syncs : list SyncTask) : Prop :=
  ∃ sync_task, sync_task ∈ syncs
               ∧ provider_instance sync_task = provider_instance'
               ∧ media_type ∈ media_types sync_task.

(** ** Example configurations *)

Definition ex_behaviour : ProviderBehaviour :=
  {| on_setup := None; on_close := None; sync_on_cancel := Cancelled |}.

Definition ex_manifest (t : ProviderType) (domain' : string) (multi : bool) : ProviderManifest :=
  {| manifest_type := t; manifest_domain := domain'; manifest_name := domain';
     init_class := None; multi_instance := multi; builtin := false;
     load_by_default := false; depends_on := None |}.

Definition ex_config (id domain' : string) : ProviderConfig :=
  {| conf_instance_id := id; conf_domain := domain'; enabled := true |}.

(** A server that has nothing loaded and nothing subscribed. *)
Definition ex_empty : MusicAssistant :=
  {| closing := false; _subscribers := []; _available_providers := ∅; _providers := [];
     _tracked_tasks := []; in_progress_syncs := []; provider_modules := ∅;
     next_task_id := 0; scheduled := []; signalled := []; calls := [] |}.

(** A listener for sync-task events only, and a bus that holds it. *)
Definition ex_listener : Subscription :=
  {| cb_func := {| cb_id := 1; cb_is_coroutine := false |};
     event_filter := filter_of_arg (Single SYNC_TASKS_UPDATED);
     id_filter := filter_of_arg NoFilter |}.

Definition ex_bus : MusicAssistant := with_subscribers (fun _ => [ex_listener]) ex_empty.

(** A loaded music provider ["spotify1"] of the single-instance domain
    ["spotify"] with one sync of its artists in flight. *)
Definition ex_spotify : Provider :=
  set_available true
    (Provider__init__ (ex_manifest MUSIC "spotify" false) (ex_config "spotify1" "spotify") ex_behaviour).

Definition ex_artist_task : Task := {| task_id := 0; task_on_cancel := Cancelled |}.

Definition ex_artist_sync : SyncTask :=
  {| provider_domain := "spotify"; provider_instance := "spotify1";
     media_types := [ARTIST]; task := ex_artist_task |}.

Definition ex_syncing : MusicAssistant :=
  {| closing := false; _subscribers := [ex_listener];
     _available_providers := {[ "spotify" := ex_manifest MUSIC "spotify" false ]};
     _providers := [("spotify1", ex_spotify)];
     _tracked_tasks := [ex_artist_task]; in_progress_syncs := [ex_artist_sync];
     provider_modules := {[ "spotify" := [("SpotifyProvider", AClass ProviderSubclass ex_behaviour)] ]};
     next_task_id := 1; scheduled := []; signalled := []; calls := [] |}.


(** What a run of the cancel-and-await loop of [unload_provider] may change:
    it leaves the registry, the manifests, the modules, the listeners and
    the [closing] flag alone, it only removes from the in-progress list, the
    only calls it adds are task cancellations and awaits, and the only
    events it signals are [SYNC_TASKS_UPDATED]. *)
Definition stops_only_syncs (s s' : MusicAssistant) : Prop :=
  _providers s' = _providers s
  ∧ closing s' = closing s
  ∧ _available_providers s' = _available_providers s
  ∧ provider_modules s' = provider_modules s
  ∧ _subscribers s' = _subscribers s
  ∧ (∀ st, st ∈ in_progress_syncs s' -> st ∈ in_progress_syncs s)
  ∧ (∃ cs, calls s' = calls s ++ cs
           ∧ Forall (fun c => ∃ t, c = TaskCancelled t ∨ c = TaskAwaited t) cs)
  ∧ (∃ evs, signalled s' = signalled s ++ evs
            ∧ Forall (fun e => event e = SYNC_TASKS_UPDATED) evs).


(** The same provider with two syncs in flight, of its artists and of its
    albums, whose coroutines return when cancelled. *)
Definition ex_returning_sync (n : nat) (types : list MediaType) : SyncTask :=
  {| provider_domain := "spotify"; provider_instance := "spotify1";
     media_types := types; task := {| task_id := n; task_on_cancel := Returned |} |}.

Definition ex_two_syncs : MusicAssistant :=
  {| closing := false; _subscribers := [];
     _available_providers := {[ "spotify" := ex_manifest MUSIC "spotify" false ]};
     _providers := [("spotify1", ex_spotify)];
     _tracked_tasks := [task (ex_returning_sync 0 [ARTIST]); task (ex_returning_sync 1 [ALBUM])];
     in_progress_syncs := [ex_returning_sync 0 [ARTIST]; ex_returning_sync 1 [ALBUM]];
     provider_modules := ∅;
     next_task_id := 2; scheduled := []; signalled := []; calls := [] |}.

(** The loaded provider with nothing in flight. *)
Definition ex_idle : MusicAssistant :=
  {| closing := false; _subscribers := [];
     _available_providers := {[ "spotify" := ex_manifest MUSIC "spotify" false ]};
     _providers := [("spotify1", ex_spotify)];
     _tracked_tasks := []; in_progress_syncs := [];
     provider_modules := {[ "spotify" := [("SpotifyProvider", AClass ProviderSubclass ex_behaviour)] ]};
     next_task_id := 0; scheduled := []; signalled := []; calls := [] |}.


(** A step that leaves the registry, the manifests and the importable
    packages as they are. *)
Definition keeps_registry (s s' : MusicAssistant) : Prop :=
  _providers s' = _providers s
  ∧ _available_providers s' = _available_providers s
  ∧ provider_modules s' = provider_modules s
  ∧ closing s' = closing s.

(** A step that leaves the manifests and the importable packages as they
    are and unregisters nothing. *)
Definition extends_registry (s s' : MusicAssistant) : Prop :=
  _available_providers s' = _available_providers s
  ∧ provider_modules s' = provider_modules s
  ∧ closing s' = closing s
  ∧ ∀ k, is_Some (Dict.get k (_providers s)) -> is_Some (Dict.get k (_providers s')).

(** Whatever the [setup()] of an importable provider class raises is an
    [Exception] (not a bare [BaseException] such as [CancelledError]). *)
Definition setups_raise_exceptions (s : MusicAssistant) : Prop :=
  ∀ domain' members name kind cls e,
    provider_modules s !! domain' = Some members ->
    (name, AClass kind cls) ∈ members ->
    on_setup cls = Some e ->
    is_Exception e = true.

(** The config can be brought up: it is enabled and its package holds a
    class that the lookup of [load_provider] accepts. *)
Definition loadable (s : MusicAssistant) (conf : ProviderConfig) : Prop :=
  enabled conf = true
  ∧ ∃ prov_manifest members cls,
      _available_providers s !! conf_domain conf = Some prov_manifest
      ∧ provider_modules s !! conf_domain conf = Some members
      ∧ find_provider_class prov_manifest members = Some cls.


(** The manifests are filed under their own domain, which is how
    [__load_available_providers] files them. *)
Definition manifests_by_domain (s : MusicAssistant) : Prop :=
  ∀ d prov_manifest, _available_providers s !! d = Some prov_manifest ->
                     manifest_domain prov_manifest = d.

(** The single-instance check of [load_provider] cannot fail for [conf]
    while [provider_configs] is loaded from [s]: no instance of its domain
    is registered in [s] under another id, and no other config of the list
    is of its domain. *)
Definition sole_instance (s : MusicAssistant) (provider_configs : list ProviderConfig)
    (conf : ProviderConfig) : Prop :=
  (∀ k p, (k, p) ∈ _providers s -> domain p = conf_domain conf -> k = conf_instance_id conf)
  ∧ (∀ c, c ∈ provider_configs -> conf_domain c = conf_domain conf ->
          conf_instance_id c = conf_instance_id conf).

(** A provider class whose [setup()] fails with a [SetupFailedError]. *)
Definition ex_failing_behaviour : ProviderBehaviour :=
  {| on_setup := Some (SetupFailedError "login failed"); on_close := None;
     sync_on_cancel := Cancelled |}.

(** A server that knows three provider kinds and has none loaded: the
    single-instance music provider ["spotify"], the multi-instance music
    provider ["filesystem"], and the metadata provider ["tidal"], whose
    [setup()] fails. *)
Definition ex_startup : MusicAssistant :=
  {| closing := false; _subscribers := [];
     _available_providers :=
       <[ "spotify" := ex_manifest MUSIC "spotify" false ]>
         (<[ "filesystem" := ex_manifest MUSIC "filesystem" true ]>
            {[ "tidal" := ex_manifest METADATA "tidal" true ]});
     _providers := [];
     _tracked_tasks := []; in_progress_syncs := [];
     provider_modules :=
       <[ "spotify" := [("SpotifyProvider", AClass ProviderSubclass ex_behaviour)] ]>
         (<[ "filesystem" := [("FileSystemProvider", AClass ProviderSubclass ex_behaviour)] ]>
            {[ "tidal" := [("TidalProvider", AClass ProviderSubclass ex_failing_behaviour)] ]});
     next_task_id := 0; scheduled := []; signalled := []; calls := [] |}.

(** A second, disabled config of the single-instance domain. *)
Definition ex_disabled_config : ProviderConfig :=
  {| conf_instance_id := "spotify2"; conf_domain := "spotify"; enabled := false |}.


(** The characters ["0"] to ["9"], and the strings made of them. *)
Definition is_digit (c : ascii) : bool :=
  let n := nat_of_ascii c in Nat.leb 48 n && Nat.leb n 57.

Fixpoint all_digits (s : string) : bool :=
  match s with
  | EmptyString => true
  | String c r => is_digit c && all_digits r
  end.

(** [CREATE TABLE IF NOT EXISTS], as a function on databases. *)
Definition ensure_table (db : Database) (table : string) : Database :=
  match db !! table with
  | Some _ => db
  | None => <[table := []]> db
  end.

(** The tables that [__create_database_tables] creates, in its order. *)
Definition all_tables : list string :=
  [DB_TABLE_SETTINGS; DB_TABLE_TRACK_LOUDNESS; DB_TABLE_PLAYLOG; DB_TABLE_ALBUMS;
   DB_TABLE_ARTISTS; DB_TABLE_TRACKS; DB_TABLE_PLAYLISTS; DB_TABLE_RADIOS;
   DB_TABLE_PROVIDER_MAPPINGS].

(** The tables that hold what is not specific to a media type. *)
Definition kept_tables : list string :=
  [DB_TABLE_TRACK_LOUDNESS; DB_TABLE_PLAYLOG; DB_TABLE_PROVIDER_MAPPINGS].

(** The version that the rows of the settings table record, as
    [_setup_database] reads it: [0] without a version row, without a
    [value] column in it, or with a value that is not an integer. *)
Definition version_of (settings : list Row) : Z :=
  match find (row_matches [("key", "version")]) settings with
  | Some row =>
      match row !! "value" with
      | Some value => default 0%Z (py_int value)
      | None => 0%Z
      end
  | None => 0%Z
  end.

(** The version that a database records; a database without a settings
    table records none. *)
Definition stored_version (db : Database) : Z :=
  version_of (default [] (db !! DB_TABLE_SETTINGS)).

(** The rows of a table; a table that does not exist has none. *)
Definition rows_of (db : Database) (table : string) : list Row :=
  default [] (db !! table).

(** The settings rows other than the version row. *)
Definition other_settings (db : Database) : list Row :=
  List.filter (fun row => negb (bool_decide (row !! "key" = Some "version")))
              (rows_of db DB_TABLE_SETTINGS).

(** A library database of schema version [7] with content. *)
Definition ex_row (k v : string) : Row := <["key" := k]> (<["value" := v]> ∅).

Definition ex_db_v7 : Database :=
  <[DB_TABLE_SETTINGS := [ex_row "version" "7"; ex_row "server_id" "abc"]]>
    (<[DB_TABLE_TRACKS := [ex_row "name" "Song"]]>
       (<[DB_TABLE_PLAYLOG := [ex_row "item_id" "1"]]> ∅)).


(** ** Observations on a run of [sync_library] *)

(** The cache key of an instance's checksum map, and the map a run starts
    from: empty when the cache has none or has one of another version. *)
Definition checksums_key (instance_id' : string) : string := instance_id' +:+ ".checksums".

Definition prev_checksums_of (cache0 : Cache) (instance_id' : string) (SCHEMA_VERSION : Z)
    : Checksums :=
  default ∅ (cache_get cache0 (checksums_key instance_id') SCHEMA_VERSION).

(** The extension of [item] is a track extension. *)
Definition is_track (item : FileSystemItem) : bool :=
  match ext item with
  | Some e => bool_decide (e ∈ TRACK_EXTENSIONS)
  | None => false
  end.

(** [item] is not recorded in [prev_checksums] with its present checksum:
    it is new, or its checksum has changed. *)
Definition changed (prev_checksums : Checksums) (item : FileSystemItem) : bool :=
  negb (bool_decide (prev_checksums !! path item = Some (checksum item))).

(** The path of [item] was recorded by the previous run. *)
Definition known (prev_checksums : Checksums) (item : FileSystemItem) : bool :=
  bool_decide (is_Some (prev_checksums !! path item)).

(** A parsed playlist with the item's checksum and the in-library mark. *)
Definition stamped (item : FileSystemItem) (playlist : Playlist) : Playlist :=
  {| playlist_item_id := playlist_item_id playlist;
     playlist_checksum := checksum item;
     playlist_in_library := true |}.

(** The parser and store calls that one item of the walk accounts for. *)
Definition calls_for_item (ps : Parsers) (prev_checksums : Checksums) (item : FileSystemItem)
    : list SyncCall :=
  if supported item && changed prev_checksums item then
    if is_track item then
      GetTrack (path item)
      :: match get_track ps (path item) with
         | Ok track => [TracksAddDbItem track (known prev_checksums item)]
         | Raise _ => []
         end
    else
      GetPlaylist (path item)
      :: match get_playlist ps (path item) with
         | Ok playlist => [PlaylistsAddDbItem (stamped item playlist)]
         | Raise _ => []
         end
  else [].

(** One more item of the walk recorded in a path-to-checksum map. *)
Definition record_item (m : Checksums) (item : FileSystemItem) : Checksums :=
  if supported item then <[path item := checksum item]> m else m.

(** The map from the paths of the walk's supported items to their
    checksums; of two items with one path the later one counts. *)
Definition walk_checksums (walk : list FileSystemItem) : Checksums :=
  foldl record_item ∅ walk.

(** Parsers that fail with ordinary exceptions only, never with a
    [BaseException] such as [CancelledError]. *)
Definition raise_only_exceptions (ps : Parsers) : Prop :=
  ∀ p e, get_track ps p = Raise e ∨ get_playlist ps p = Raise e -> is_Exception e = true.

(** *** Example runs *)

(** Parsers that read every file. *)
Definition ex_parsers : Parsers :=
  {| get_track := fun p => Ok {| track_item_id := p |};
     get_playlist := fun p => Ok {| playlist_item_id := p; playlist_checksum := "";
                                    playlist_in_library := false |} |}.

(** Parsers of a provider whose track files cannot be read. *)
Definition ex_failing_parsers : Parsers :=
  {| get_track := fun p => Raise (MediaNotFoundError ("Track path does not exist: " +:+ p));
     get_playlist := get_playlist ex_parsers |}.

Definition ex_file (p c : string) : FileSystemItem :=
  {| name := p; path := p; checksum := c |}.

(** The cache after a run that saw [a.mp3] with checksum [1] and [b.mp3]
    with checksum [2], under schema version [18]. *)
Definition ex_prior : Cache :=
  {[ "files1.checksums" := (18%Z, <["a.mp3" := "1"]> (<["b.mp3" := "2"]> ∅)) ]}.

Definition ex_walk : list FileSystemItem :=
  [ex_file "a.mp3" "1"; ex_file "b.mp3" "9"; ex_file "c.mp3" "3"].

(** The cache after a run that saw a track and a playlist. *)
Definition ex_prior_mix : Cache :=
  {[ "files1.checksums" := (18%Z, <["b.mp3" := "2"]> (<["mix.m3u" := "5"]> ∅)) ]}.

Definition ex_walk_mix : list FileSystemItem :=
  [ex_file "b.mp3" "9"; ex_file "mix.m3u" "6"].

(** The cache after a run that recorded, besides the track and the
    playlist, a path without a dot. *)
Definition ex_prior_readme : Cache :=
  {[ "files1.checksums"
     := (18%Z, <["README" := "1"]> (<["b.mp3" := "2"]> (<["mix.m3u" := "5"]> ∅))) ]}.


(** ** Invariants of the server state used below *)

(** [_subscribers] is a Python [set]: it holds no listener twice. The
    empty bus has the property, [subscribe] and [remove_listener] keep it. *)
Definition subscribers_are_a_set (s : MusicAssistant) : Prop := NoDup (_subscribers s).

(** The registry files every provider under its own instance id, which is
    how [load_provider] files it. *)
Definition keyed_by_instance_id (s : MusicAssistant) : Prop :=
  ∀ k p, (k, p) ∈ _providers s -> instance_id p = k.


(** The listener tuple that [subscribe] builds from its arguments. *)
Definition listener_of (cb : Callback) (ef : FilterArg EventType) (idf : FilterArg string)
    : Subscription :=
  {| cb_func := cb; event_filter := filter_of_arg ef; id_filter := filter_of_arg idf |}.

(** What the filter arguments of [subscribe] ask for. *)
Definition event_arg_accepts (ef : FilterArg EventType) (ev : EventType) : Prop :=
  match ef with
  | NoFilter => True
  | Single e => ev = e
  | Several evs => ev ∈ evs
  end.

Definition id_arg_accepts (idf : FilterArg string) (oid : option string) : Prop :=
  match idf with
  | NoFilter => True
  | Single i => oid = Some i
  | Several ids => ∃ i, oid = Some i ∧ i ∈ ids
  end.

(** The task and the sync task that [_start_provider_sync] makes for
    [provider] in state [s]. *)
Definition launched_task (provider : Provider) (s : MusicAssistant) : Task :=
  {| task_id := next_task_id s; task_on_cancel := sync_on_cancel (behaviour provider) |}.

Definition launched_sync (provider : Provider) (media_types' : list MediaType)
    (s : MusicAssistant) : SyncTask :=
  {| provider_domain := domain provider; provider_instance := instance_id provider;
     media_types := media_types'; task := launched_task provider s |}.

(** The instance that [load_provider] leaves in the registry once
    [setup()] has returned, and the server at that point, before the
    first sync of the instance is started. *)
Definition ready_provider (prov_manifest : ProviderManifest) (conf : ProviderConfig)
    (prov_cls : ProviderBehaviour) : Provider :=
  set_last_error None (set_available true (Provider__init__ prov_manifest conf prov_cls)).

Definition set_up (prov_manifest : ProviderManifest) (conf : ProviderConfig)
    (prov_cls : ProviderBehaviour) (s : MusicAssistant) : MusicAssistant :=
  with_providers (Dict.set (conf_instance_id conf) (ready_provider prov_manifest conf prov_cls))
    (with_call (SetupCalled (conf_instance_id conf)) s).

(** Every in-flight sync task of the instance returns when cancelled. *)
Definition syncs_return_on_cancel (instance_id' : string) (s : MusicAssistant) : Prop :=
  ∀ st, st ∈ in_progress_syncs s -> provider_instance st = instance_id' ->
        task_on_cancel (task st) = Returned.

(** A provider whose [close()] fails, registered on an otherwise idle
    server. *)
Definition ex_stuck : Provider :=
  set_available true
    (Provider__init__ (ex_manifest MUSIC "spotify" false) (ex_config "spotify1" "spotify")
       {| on_setup := None; on_close := Some (OtherException "socket is gone");
          sync_on_cancel := Cancelled |}).

Definition ex_stuck_server : MusicAssistant :=
  with_providers (fun _ => [("spotify1", ex_stuck)]) ex_idle.


(** ** Reading the manifests ([MusicAssistant.__load_available_providers]) *)

Definition with_available_providers
    (f : gmap string ProviderManifest -> gmap string ProviderManifest) (s : MusicAssistant)
    : MusicAssistant :=
  {| closing := closing s; _subscribers := _subscribers s;
     _available_providers := f (_available_providers s); _providers := _providers s;
     _tracked_tasks := _tracked_tasks s; in_progress_syncs := in_progress_syncs s;
     provider_modules := provider_modules s; next_task_id := next_task_id s;
     scheduled := scheduled s; signalled := signalled s; calls := calls s |}.

(** What [os.listdir], [os.path.isdir] and [os.path.isfile] show of the
    providers folder: its entries, which are directories or not, and the
    entries of each directory, which are regular files or not. Of a regular
    file the loop uses what [ProviderManifest.parse] makes of it and how
    the installation of the manifest's requirements ([install_package] for
    each of them) ends. *)
Inductive FileEntry : Type :=
| RegularFile (parsed : Outcome ProviderManifest) (requirements_installed : option Exn)
| NotAFile.

Inductive PathEntry : Type :=
| Directory (files : list (string * FileEntry))
| NotADirectory.

(** The [try] block of [__load_available_providers] with its handler,
    which logs. *)
Definition load_manifest (parsed : Outcome ProviderManifest)
    (requirements_installed : option Exn) : Mass unit :=
  try_except
    (let* provider_manifest := lift_outcome parsed in
     modify (with_available_providers
               (<[manifest_domain provider_manifest := provider_manifest]>)) >>
     match requirements_installed with
     | None => ret tt
     | Some e => raise e
     end)
    is_Exception (fun exc => ret tt).

(** [MusicAssistant.__load_available_providers]; [listing] is the content
    of [PROVIDERS_PATH]. *)
Definition __load_available_providers (listing : list (string * PathEntry)) : Mass unit :=
  for_each listing
    (fun dir =>
       match dir.2 with
       | NotADirectory => ret tt
       | Directory files =>
           for_each files
             (fun file =>
                match file.2 with
                | NotAFile => ret tt
                | RegularFile parsed requirements_installed =>
                    if negb (bool_decide (file.1 = "manifest.json")) then ret tt
                    else load_manifest parsed requirements_installed
                end)
       end).

(** Two states that differ in the manifests at most. *)
Definition same_but_manifests (s s' : MusicAssistant) : Prop :=
  with_available_providers (fun _ => ∅) s' = with_available_providers (fun _ => ∅) s.

(** Some directory of the listing holds a [manifest.json] that parses to
    [prov_manifest]. *)
Definition manifest_found (listing : list (string * PathEntry))
    (prov_manifest : ProviderManifest) : Prop :=
  ∃ dir_str files requirements_installed,
    (dir_str, Directory files) ∈ listing
    ∧ ("manifest.json", RegularFile (Ok prov_manifest) requirements_installed) ∈ files.

(** Parsing a manifest and installing its requirements fail with ordinary
    exceptions only. *)
Definition manifest_errors_are_exceptions (listing : list (string * PathEntry)) : Prop :=
  ∀ dir_str files file_str parsed requirements_installed e,
    (dir_str, Directory files) ∈ listing ->
    (file_str, RegularFile parsed requirements_installed) ∈ files ->
    parsed = Raise e ∨ requirements_installed = Some e ->
    is_Exception e = true.

(** A providers folder with a stray file, a provider whose manifest is
    broken, one whose requirement cannot be installed, and a sound one. *)
Definition ex_listing : list (string * PathEntry) :=
  [("__init__.py", NotADirectory);
   ("broken", Directory [("manifest.json", RegularFile (Raise (ValueError "invalid json")) None)]);
   ("tidal", Directory [("__init__.py", RegularFile (Raise (ValueError "invalid json")) None);
                        ("manifest.json",
                         RegularFile (Ok (ex_manifest MUSIC "tidal" true))
                                     (Some (OtherException "pip failed")))]);
   ("spotify", Directory [("icon.svg", NotAFile);
                          ("manifest.json",
                           RegularFile (Ok (ex_manifest MUSIC "spotify" false)) None)])].

(** ** Shutting down ([MusicAssistant.stop]) *)

Definition with_closing (b : bool) (s : MusicAssistant) : MusicAssistant :=
  {| closing := b; _subscribers := _subscribers s;
     _available_providers := _available_providers s; _providers := _providers s;
     _tracked_tasks := _tracked_tasks s; in_progress_syncs := in_progress_syncs s;
     provider_modules := provider_modules s; next_task_id := next_task_id s;
     scheduled := scheduled s; signalled := signalled s; calls := calls s |}.

(** The collaborators that [stop] closes, abstracted to whether the
    awaited call returns or raises. [http_session] is [None] when the
    attribute holds no session. [MusicController.close] is part of the
    sources at hand: it does nothing. *)
Record Collaborators : Type := mkCollaborators {
  streams_close : option Exn;
  web_tcp_stop : option Exn;
  web_apprunner_cleanup : option Exn;
  webapp_shutdown : option Exn;
  webapp_cleanup : option Exn;
  metadata_close : option Exn;
  players_close : option Exn;
  config_close : option Exn;
  cache_close : option Exn;
  http_session : option (option Exn)
}.

Definition await_collaborator (outcome : option Exn) : Mass unit :=
  match outcome with
  | None => ret tt
  | Some e => raise e
  end.

(** [MusicController.close] *)
Definition music_close : Mass unit := ret tt.

(** The awaits of [stop], which follow the cancellation of the tracked
    tasks. *)
Definition stop_awaits (c : Collaborators) : Mass unit :=
  await_collaborator (streams_close c) >>
  await_collaborator (web_tcp_stop c) >>
  await_collaborator (web_apprunner_cleanup c) >>
  await_collaborator (webapp_shutdown c) >>
  await_collaborator (webapp_cleanup c) >>
  await_collaborator (metadata_close c) >>
  music_close >>
  await_collaborator (players_close c) >>
  (fun s => for_each (Dict.values (_providers s)) provider_close s) >>
  await_collaborator (config_close c) >>
  await_collaborator (cache_close c) >>
  match http_session c with
  | Some outcome => await_collaborator outcome
  | None => ret tt
  end.

(** [MusicAssistant.stop]. [task.cancel()] is a request: the tasks end
    while [stop] is suspended in its awaits, and their done callbacks then
    take them off [_tracked_tasks] and [in_progress_syncs]; with [closing]
    set these callbacks signal nothing. The model leaves the two lists as
    they are at the time of the request. *)
Definition stop (c : Collaborators) : Mass unit :=
  signal_event SHUTDOWN None NoData >>
  modify (with_closing true) >>
  (fun s => for_each (_tracked_tasks s) task_cancel s) >>
  stop_awaits c.

Definition with_calls (cs : list Call) (s : MusicAssistant) : MusicAssistant :=
  {| closing := closing s; _subscribers := _subscribers s;
     _available_providers := _available_providers s; _providers := _providers s;
     _tracked_tasks := _tracked_tasks s; in_progress_syncs := in_progress_syncs s;
     provider_modules := provider_modules s; next_task_id := next_task_id s;
     scheduled := scheduled s; signalled := signalled s; calls := calls s ++ cs |}.

(** The collaborators that [stop] awaits before it closes the providers
    all return. *)
Definition controllers_close (c : Collaborators) : Prop :=
  streams_close c = None ∧ web_tcp_stop c = None ∧ web_apprunner_cleanup c = None
  ∧ webapp_shutdown c = None ∧ webapp_cleanup c = None ∧ metadata_close c = None
  ∧ players_close c = None.

(** Collaborators that all close. *)
Definition ex_collaborators : Collaborators :=
  {| streams_close := None; web_tcp_stop := None; web_apprunner_cleanup := None;
     webapp_shutdown := None; webapp_cleanup := None; metadata_close := None;
     players_close := None; config_close := None; cache_close := None;
     http_session := Some None |}.

(** A server with two instances, the first of which cannot be closed. *)
Definition ex_files : Provider :=
  set_available true
    (Provider__init__ (ex_manifest MUSIC "filesystem" true) (ex_config "files1" "filesystem")
       ex_behaviour).

Definition ex_two_providers : MusicAssistant :=
  with_providers (fun _ => [("spotify1", ex_stuck); ("files1", ex_files)]) ex_idle.

(** ** Further observations on a run of [sync_library] *)

(** The walk lists no path with two different checksums. *)
Definition one_checksum_per_path (walk : list FileSystemItem) : Prop :=
  ∀ item item', item ∈ walk -> item' ∈ walk ->
                supported item = true -> supported item' = true ->
                path item = path item' -> checksum item = checksum item'.

(** The walk has a supported item of path [p]. *)
Definition walked (walk : list FileSystemItem) (p : string) : Prop :=
  ∃ item, item ∈ walk ∧ supported item = true ∧ path item = p.


(** The class lookup of [load_provider] fails for the config: its package
    cannot be imported, or holds no class that the lookup accepts. *)
Definition class_not_found (prov_manifest : ProviderManifest) (conf : ProviderConfig)
    (s : MusicAssistant) : Prop :=
  match provider_modules s !! conf_domain conf with
  | None => True
  | Some members => find_provider_class prov_manifest members = None
  end.

(** The loading loop passes over the config without a change: its
    instance is registered already, or the config is disabled and nothing
    is registered under its id. *)
Definition nothing_to_load (s : MusicAssistant) (conf : ProviderConfig) : Prop :=
  is_Some (_available_providers s !! conf_domain conf)
  ∧ (is_Some (Dict.get (conf_instance_id conf) (_providers s)) ∨ enabled conf = false).

(** A server that knows the provider kind ["sonos"], for which no package
    is installed. *)
Definition ex_no_package : MusicAssistant :=
  with_available_providers (<["sonos" := ex_manifest PLAYER "sonos" false]>) ex_idle.

(** The task ids of the in-flight sync tasks: every sync task has a task
    of its own. *)
Definition sync_task_ids (syncs : list SyncTask) : list nat :=
  map (fun sync_task => task_id (task sync_task)) syncs.

(** What awaiting the cancelled task of [sync_task] gives the awaiter. *)
Definition cancel_outcome (sync_task : SyncTask) : Outcome unit :=
  match task_on_cancel (task sync_task) with
  | Cancelled => Raise CancelledError
  | Returned => Ok tt
  | Failed e => Raise e
  end.


(** A step that leaves the manifests alone, changes the registry under
    the instance id [id] at most, and calls no [setup()] but that of
    [id]. *)
Definition touches_only (id : string) (s s' : MusicAssistant) : Prop :=
  _available_providers s' = _available_providers s
  ∧ (∀ k, k ≠ id -> Dict.get k (_providers s') = Dict.get k (_providers s))
  ∧ ∃ cs, calls s' = calls s ++ cs ∧ ∀ k, SetupCalled k ∈ cs -> k = id.

(** A step that leaves the manifests and what is registered under [k]
    alone and does not call the [setup()] of [k]. *)
Definition leaves_alone (k : string) (s s' : MusicAssistant) : Prop :=
  _available_providers s' = _available_providers s
  ∧ Dict.get k (_providers s') = Dict.get k (_providers s)
  ∧ ∃ cs, calls s' = calls s ++ cs ∧ SetupCalled k ∉ cs.

(** The manifest of the config's domain names a provider it depends on. *)
Definition depends_on_another (s : MusicAssistant) (conf : ProviderConfig) : Prop :=
  ∃ prov_manifest, _available_providers s !! conf_domain conf = Some prov_manifest
                   ∧ truthy (depends_on prov_manifest) = true.

(** A server that knows a plugin which depends on the ["spotify"]
    provider. *)
Definition ex_plugin_manifest : ProviderManifest :=
  {| manifest_type := PLUGIN; manifest_domain := "lyrics"; manifest_name := "lyrics";
     init_class := None; multi_instance := false; builtin := false;
     load_by_default := false; depends_on := Some "spotify" |}.

Definition ex_with_plugin : MusicAssistant :=
  {| closing := false; _subscribers := [];
     _available_providers :=
       <[ "lyrics" := ex_plugin_manifest ]> (_available_providers ex_startup);
     _providers := [];
     _tracked_tasks := []; in_progress_syncs := [];
     provider_modules :=
       <[ "lyrics" := [("LyricsProvider", AClass ProviderSubclass ex_behaviour)] ]>
         (provider_modules ex_startup);
     next_task_id := 0; scheduled := []; signalled := []; calls := [] |}.

(** ** Browsing ([MusicController.browse], [Provider.name]) *)

(** [s[:-n]] *)
Definition drop_last (n : nat) (s : string) : string :=
  substring 0 (String.length s - n) s.

(** [s.split("://", 1)[0]]: what precedes the first ["://"], the whole
    string when there is none. *)
Fixpoint split_scheme_head (s : string) : string :=
  match s with
  | EmptyString => EmptyString
  | String c r => if String.prefix "://" s then EmptyString else String c (split_scheme_head r)
  end.

(** [BrowseFolder]; the attributes that [browse] sets for a provider's
    folder. *)
Record BrowseFolder : Type := mkBrowseFolder {
  folder_item_id : string;
  folder_provider : string;
  folder_path : string;
  folder_name : string
}.

(** What [browse] returns: the root folder with its items, or what the
    [browse] of a provider returns for a path, which is the provider's
    business. *)
Inductive Browsed : Type :=
| RootFolder (items : list BrowseFolder)
| ProviderBrowse (prov : Provider) (path : string).

Section Browse.

(** Two attributes of a provider that the records above do not carry:
    the name given in its config, and whether [ProviderFeature.BROWSE] is
    among the [supported_features] of its class. *)
Variable config_name : ProviderConfig -> option string.
Variable supports_browse : Provider -> bool.

(** The property [Provider.name]. *)
Definition Provider_name (prov : Provider) (s : MusicAssistant) : string :=
  if truthy (config_name (config prov)) then default "" (config_name (config prov))
  else
    let inst_count :=
      length (List.filter (fun x => bool_decide (domain x = domain prov)) (music_providers s)) in
    if decide (1 < inst_count)
    then manifest_name (manifest prov) +:+ "." +:+ drop_last 8 (instance_id prov)
    else manifest_name (manifest prov).

(** The folder that the root level lists for a provider. *)
Definition provider_folder (s : MusicAssistant) (prov : Provider) : BrowseFolder :=
  {| folder_item_id := "root"; folder_provider := domain prov;
     folder_path := instance_id prov +:+ "://"; folder_name := Provider_name prov s |}.

(** [MusicController.browse] *)
Definition browse (path : option string) : Mass Browsed :=
  if negb (truthy path) || bool_decide (path = Some "root") then
    gets (fun s => RootFolder (map (provider_folder s)
                                   (List.filter supports_browse (music_providers s))))
  else
    let provider_instance := split_scheme_head (default "" path) in
    let* prov := get_provider provider_instance in
    ret (ProviderBrowse prov (default "" path)).

End Browse.

(** ["://"] occurs in the string. *)
Fixpoint has_scheme (s : string) : bool :=
  match s with
  | EmptyString => false
  | String c r => String.prefix "://" s || has_scheme r
  end.

(** ** Processing deletions ([FileSystemProviderBase._process_deletions]) *)

(** The item controllers of [MusicController], and
    [MusicController.get_controller]. *)
Inductive Controller : Type := artists | albums | tracks | radio | playlists.

#[global] Instance Controller_eq_dec : EqDecision Controller.
Proof. solve_decision. Defined.

Definition get_controller (media_type : MediaType) : Controller :=
  match media_type with
  | ARTIST => artists
  | ALBUM => albums
  | TRACK => tracks
  | RADIO => radio
  | PLAYLIST => playlists
  end.

(** The calls [_process_deletions] makes into a controller, in order. *)
Inductive DeletionCall : Type :=
| GetDbItemByProvId (controller : Controller) (prov_item_id : string)
| RemoveProvMapping (controller : Controller) (db_item_id : string).

(** [FileSystemProviderBase._process_deletions]. [deleted_files] is the
    set of deleted paths in the order the loop meets them; [db_item] is
    what [get_db_item_by_prov_id] of a controller answers for a path: the
    id of the stored item, or nothing. A path is asked for once, so the
    answers form a function. *)
Definition _process_deletions (db_item : Controller -> string -> option string)
    (deleted_files : list string) : M (list DeletionCall) unit :=
  for_each deleted_files
    (fun file_path =>
       match after_last_dot file_path with
       | None => raise (ValueError "not enough values to unpack (expected 2, got 1)")
       | Some ext =>
           if negb (bool_decide (ext ∈ SUPPORTED_EXTENSIONS)) then ret tt
           else
             let controller :=
               if bool_decide (ext ∈ PLAYLIST_EXTENSIONS)
               then get_controller PLAYLIST else get_controller TRACK in
             modify (fun calls => calls ++ [GetDbItemByProvId controller file_path]) >>
             match db_item controller file_path with
             | Some db_item_id =>
                 modify (fun calls => calls ++ [RemoveProvMapping controller db_item_id])
             | None => ret tt
             end
       end).

(** The controller that holds the items of files with extension [ext]. *)
Definition controller_of (ext : string) : Controller :=
  if bool_decide (ext ∈ PLAYLIST_EXTENSIONS) then playlists else tracks.


(** A provider class whose [setup()] is cancelled, and a server that can
    import it. *)
Definition ex_cancelled_behaviour : ProviderBehaviour :=
  {| on_setup := Some CancelledError; on_close := None; sync_on_cancel := Cancelled |}.

Definition ex_slow_startup : MusicAssistant :=
  {| closing := false; _subscribers := [];
     _available_providers := {[ "tidal" := ex_manifest MUSIC "tidal" true ]};
     _providers := [];
     _tracked_tasks := []; in_progress_syncs := [];
     provider_modules :=
       {[ "tidal" := [("TidalProvider", AClass ProviderSubclass ex_cancelled_behaviour)] ]};
     next_task_id := 0; scheduled := []; signalled := []; calls := [] |}.


(** * Properties *)

(** ** Generic facts *)

Module DictFacts.

Lemma get_set_eq {V : Type} (k : string) (v : V) (d : list (string * V)) :
  Dict.get k (Dict.set k v d) = Some v.
Proof.
  induction d as [|[k' v'] d IH]; simpl.
  - by rewrite decide_True.
  - destruct (decide (k = k')) as [->|Hne]; simpl.
    + by rewrite decide_True.
    + by rewrite decide_False.
Qed.

Lemma get_set_ne {V : Type} (k k' : string) (v : V) (d : list (string * V)) :
  k ≠ k' -> Dict.get k' (Dict.set k v d) = Dict.get k' d.
Proof.
  intros Hne. induction d as [|[k0 v0] d IH]; simpl.
  - by rewrite decide_False.
  - destruct (decide (k = k0)) as [->|Hne0]; simpl.
    + by rewrite !decide_False.
    + destruct (decide (k' = k0)); [done|apply IH].
Qed.

Lemma get_pop_eq {V : Type} (k : string) (d : list (string * V)) :
  Dict.get k (Dict.pop k d) = None.
Proof.
  unfold Dict.pop. induction d as [|[k' v'] d IH]; [done|]. simpl.
  destruct (decide (k' = k)) as [->|Hne].
  - rewrite bool_decide_eq_true_2 by done. apply IH.
  - rewrite bool_decide_eq_false_2 by done. simpl. by rewrite decide_False.
Qed.

Lemma get_pop_ne {V : Type} (k k' : string) (d : list (string * V)) :
  k ≠ k' -> Dict.get k' (Dict.pop k d) = Dict.get k' d.
Proof.
  intros Hne. unfold Dict.pop. induction d as [|[k0 v0] d IH]; [done|]. simpl.
  destruct (decide (k0 = k)) as [->|Hne0].
  - rewrite bool_decide_eq_true_2 by done. simpl. by rewrite decide_False.
  - rewrite bool_decide_eq_false_2 by done. simpl. by rewrite IH.
Qed.

Lemma get_update_eq {V : Type} (k : string) (f : V -> V) (d : list (string * V)) :
  Dict.get k (Dict.update k f d) = f <$> Dict.get k d.
Proof.
  unfold Dict.update. destruct (Dict.get k d) as [v|] eqn:E; simpl.
  - apply get_set_eq.
  - done.
Qed.

Lemma get_update_ne {V : Type} (k k' : string) (f : V -> V) (d : list (string * V)) :
  k ≠ k' -> Dict.get k' (Dict.update k f d) = Dict.get k' d.
Proof.
  intros Hne. unfold Dict.update. destruct (Dict.get k d); [by apply get_set_ne|done].
Qed.

Lemma find_values {V : Type} (f : V -> bool) (k : string) (v : V) (d : list (string * V)) :
  Dict.get k d = Some v -> f v = true -> is_Some (find f (Dict.values d)).
Proof.
  unfold Dict.values. induction d as [|[k' v'] d IH]; simpl; [done|].
  intros Hget Hf. destruct (f v') eqn:E; [by eexists|].
  destruct (decide (k = k')); [congruence|]. by apply IH.
Qed.

Lemma elem_of_get {V : Type} (k : string) (v : V) (d : list (string * V)) :
  (k, v) ∈ d -> is_Some (Dict.get k d).
Proof.
  induction d as [|[k' v'] d IH]; [by intros ?%elem_of_nil|]. simpl.
  intros [[= <- <-]|Hin]%elem_of_cons.
  - rewrite decide_True by done. by eexists.
  - destruct (decide (k = k')); [by eexists|by apply IH].
Qed.

Lemma elem_of_set {V : Type} (k k' : string) (v v' : V) (d : list (string * V)) :
  (k, v) ∈ Dict.set k' v' d -> (k, v) ∈ d ∨ (k = k' ∧ v = v').
Proof.
  induction d as [|[k0 v0] d IH]; simpl.
  - intros [= -> ->]%list_elem_of_singleton. by right.
  - destruct (decide (k' = k0)) as [->|Hne].
    + intros [[= -> ->]|Hin]%elem_of_cons; [by right|left; by apply list_elem_of_further].
    + intros [[= -> ->]|Hin]%elem_of_cons; [left; apply list_elem_of_here|].
      destruct (IH Hin) as [?|?]; [left; by apply list_elem_of_further|by right].
Qed.

Lemma elem_of_update {V : Type} (k k' : string) (v : V) (f : V -> V) (d : list (string * V)) :
  (k, v) ∈ Dict.update k' f d ->
  (k, v) ∈ d ∨ (k = k' ∧ ∃ v0, Dict.get k' d = Some v0 ∧ v = f v0).
Proof.
  unfold Dict.update. destruct (Dict.get k' d) as [v0|] eqn:E; [|by left].
  intros [?|[-> ->]]%elem_of_set; [by left|right]. split; [done|]. by exists v0.
Qed.

Lemma elem_of_values {V : Type} (v : V) (d : list (string * V)) :
  v ∈ Dict.values d -> ∃ k, (k, v) ∈ d.
Proof.
  unfold Dict.values. induction d as [|[k' v'] d IH]; simpl; [by intros ?%elem_of_nil|].
  intros [->|Hin]%elem_of_cons.
  - exists k'. apply list_elem_of_here.
  - destruct (IH Hin) as (k & Hk). exists k. by apply list_elem_of_further.
Qed.

End DictFacts.

Lemma existsb_elem_of {A : Type} (f : A -> bool) (l : list A) :
  existsb f l = true <-> ∃ x, x ∈ l ∧ f x = true.
Proof.
  rewrite existsb_exists. split; intros (x & Hx & Hf); exists x; split; auto;
    by apply list_elem_of_In.
Qed.

Lemma elem_of_List_filter {A : Type} (f : A -> bool) (l : list A) (x : A) :
  x ∈ List.filter f l <-> x ∈ l ∧ f x = true.
Proof. rewrite !list_elem_of_In. apply filter_In. Qed.

Lemma deliver_inj (e : MassEvent) (l1 l2 : Subscription) :
  deliver e l1 = deliver e l2 -> l1 = l2.
Proof.
  unfold deliver. destruct (cb_is_coroutine (cb_func l1)), (cb_is_coroutine (cb_func l2));
    congruence.
Qed.

Lemma sync_in_progress_covered (P : string) (types : list MediaType) (syncs : list SyncTask) :
  sync_in_progress P types syncs = true <-> ∃ m, m ∈ types ∧ covered P m syncs.
Proof.
  unfold sync_in_progress, covered. rewrite existsb_elem_of. split.
  - intros (st & Hst & Hb). apply andb_true_iff in Hb as [HP Hm].
    apply bool_decide_eq_true in HP. apply existsb_elem_of in Hm as (m & Hm & Hin).
    apply bool_decide_eq_true in Hin. eauto 10.
  - intros (m & Hm & st & Hst & HP & Hin). exists st. split; [done|].
    apply andb_true_iff. split; [by apply bool_decide_eq_true|].
    apply existsb_elem_of. exists m. split; [done|]. by apply bool_decide_eq_true.
Qed.

(** ** The event bus *)

Lemma newly_scheduled_open (ev : EventType) (oid : option string) (d : EventData)
    (s : MusicAssistant) :
  closing s = false ->
  newly_scheduled ev oid d s
  = map (deliver (mkEvent ev oid d)) (List.filter (listener_matches ev oid) (_subscribers s))
  ∧ scheduled (signal_event ev oid d s).1 = scheduled s ++ newly_scheduled ev oid d s.
Proof.
  intros Hopen. unfold newly_scheduled, signal_event. rewrite Hopen. simpl.
  by rewrite drop_app_length.
Qed.

(** C9. Event filter correctness. For every event that [signal_event]
    publishes (the bus is not closing) and every subscriber, the
    subscriber's callback is handed to the event loop if and only if its
    type filter is absent or contains the event's type and its id filter is
    absent or contains the event's object id. In particular a listener
    subscribed with the type filter [SYNC_TASKS_UPDATED] is never scheduled
    for a [PROVIDERS_UPDATED] event, and one subscribed with the id filter
    ["x"] never for an event whose object id is ["y"]. *)
Theorem signal_event_respects_filters
    (s : MusicAssistant) (ev : EventType) (oid : option string) (d : EventData)
    (l : Subscription) :
  closing s = false ->
  l ∈ _subscribers s ->
  (deliver (mkEvent ev oid d) l ∈ newly_scheduled ev oid d s
   <-> (event_filter l = None ∨ ∃ evs, event_filter l = Some evs ∧ ev ∈ evs)
       ∧ (id_filter l = None ∨ ∃ ids i, id_filter l = Some ids ∧ oid = Some i ∧ i ∈ ids))
  ∧ (event_filter l = filter_of_arg (Single SYNC_TASKS_UPDATED) ->
     ∀ oid' d', deliver (mkEvent PROVIDERS_UPDATED oid' d') l
                ∉ newly_scheduled PROVIDERS_UPDATED oid' d' s)
  ∧ (id_filter l = filter_of_arg (Single "x") ->
     ∀ ev' d', deliver (mkEvent ev' (Some "y") d') l
               ∉ newly_scheduled ev' (Some "y") d' s).
Proof.
  intros Hopen Hl.
  assert (Hiff : ∀ ev oid d,
             deliver (mkEvent ev oid d) l ∈ newly_scheduled ev oid d s
             <-> listener_matches ev oid l = true).
  { intros ev0 oid0 d0. destruct (newly_scheduled_open ev0 oid0 d0 s Hopen) as [-> _].
    rewrite list_elem_of_fmap. split.
    - intros (l' & Heq & Hin). apply deliver_inj in Heq as <-.
      by apply elem_of_List_filter in Hin as [_ ?].
    - intros Hm. exists l. split; [done|]. by apply elem_of_List_filter. }
  split; [|split].
  - rewrite Hiff. unfold listener_matches, event_filter_matches, id_filter_matches.
    rewrite andb_true_iff. split.
    + intros [He Hi]. split.
      * destruct (event_filter l) as [evs|]; [right|by left].
        exists evs. split; [done|]. by apply bool_decide_eq_true in He.
      * destruct (id_filter l) as [ids|]; [right|by left].
        destruct oid as [i|]; [|done]. exists ids, i.
        split; [done|]. split; [done|]. by apply bool_decide_eq_true in Hi.
    + intros [He Hi]. split.
      * destruct He as [->|(evs & -> & Hin)]; [done|]. by apply bool_decide_eq_true.
      * destruct Hi as [->|(ids & i & -> & -> & Hin)]; [done|]. by apply bool_decide_eq_true.
  - intros Hf oid' d'. rewrite Hiff. unfold listener_matches, event_filter_matches.
    rewrite Hf. simpl. discriminate.
  - intros Hf ev' d'. rewrite Hiff. unfold listener_matches, id_filter_matches.
    rewrite Hf. simpl. rewrite ?andb_false_r. discriminate.
Qed.

Lemma signal_event_respects_filters_witness :
  closing ex_bus = false
  ∧ ex_listener ∈ _subscribers ex_bus
  ∧ deliver (mkEvent SYNC_TASKS_UPDATED None NoData) ex_listener
    ∈ newly_scheduled SYNC_TASKS_UPDATED None NoData ex_bus.
Proof.
  assert (H1 : closing ex_bus = false) by reflexivity.
  assert (H2 : ex_listener ∈ _subscribers ex_bus) by apply list_elem_of_here.
  split; [exact H1|]. split; [exact H2|].
  apply (signal_event_respects_filters ex_bus SYNC_TASKS_UPDATED None NoData ex_listener H1 H2).
  split.
  - right. exists [SYNC_TASKS_UPDATED]. split; [reflexivity|apply list_elem_of_here].
  - left. reflexivity.
Defined.

(** ** Sync scheduling *)

(** C1. Dedup invariant. If the in-progress list holds a sync task of
    provider instance [P] whose media types intersect the requested ones,
    [_start_provider_sync P types] returns at once: the call leaves the
    whole server state as it found it, so the in-progress list, the tracked
    tasks and the stream of signalled events and scheduled callbacks are
    unchanged and no new sync task exists. *)
Theorem start_provider_sync_dedup
    (s : MusicAssistant) (P : string) (types : list MediaType)
    (sync_task : SyncTask) (m : MediaType) :
  sync_task ∈ in_progress_syncs s ->
  provider_instance sync_task = P ->
  m ∈ types ->
  m ∈ media_types sync_task ->
  _start_provider_sync P types s = (s, Ok tt)
  ∧ in_progress_syncs (_start_provider_sync P types s).1 = in_progress_syncs s
  ∧ _tracked_tasks (_start_provider_sync P types s).1 = _tracked_tasks s
  ∧ signalled (_start_provider_sync P types s).1 = signalled s
  ∧ scheduled (_start_provider_sync P types s).1 = scheduled s.
Proof.
  intros Hin HP Hm Hcov.
  assert (Hdup : sync_in_progress P types (in_progress_syncs s) = true).
  { apply sync_in_progress_covered. exists m. split; [done|]. by exists sync_task. }
  unfold _start_provider_sync. rewrite Hdup. done.
Qed.

Lemma start_provider_sync_dedup_witness :
  _start_provider_sync "spotify1" [ARTIST; ALBUM] ex_syncing = (ex_syncing, Ok tt).
Proof.
  apply (start_provider_sync_dedup ex_syncing "spotify1" [ARTIST; ALBUM] ex_artist_sync ARTIST).
  - apply list_elem_of_here.
  - reflexivity.
  - apply list_elem_of_here.
  - apply list_elem_of_here.
Defined.

(** C10. The dedup skip is provider-wide. Under the same condition no sync
    task at all is launched, also not for the requested media types that no
    in-flight task of [P] holds: the in-progress list is unchanged, no task
    is created, and every requested type that was not being synced for [P]
    before the call is still not being synced for [P] after it. *)
Theorem start_provider_sync_skip_is_provider_wide
    (s : MusicAssistant) (P : string) (types : list MediaType) (m : MediaType) :
  m ∈ types ->
  covered P m (in_progress_syncs s) ->
  let s' := (_start_provider_sync P types s).1 in
  in_progress_syncs s' = in_progress_syncs s
  ∧ _tracked_tasks s' = _tracked_tasks s
  ∧ next_task_id s' = next_task_id s
  ∧ ∀ m', m' ∈ types ->
          ¬ covered P m' (in_progress_syncs s) ->
          ¬ covered P m' (in_progress_syncs s').
Proof.
  intros Hm Hcov s'.
  assert (Hdup : sync_in_progress P types (in_progress_syncs s) = true).
  { apply sync_in_progress_covered. by exists m. }
  assert (Hs' : s' = s).
  { unfold s', _start_provider_sync. by rewrite Hdup. }
  rewrite Hs'. done.
Qed.

Lemma start_provider_sync_skip_is_provider_wide_witness :
  ALBUM ∈ [ARTIST; ALBUM]
  ∧ ¬ covered "spotify1" ALBUM (in_progress_syncs ex_syncing)
  ∧ ¬ covered "spotify1" ALBUM
        (in_progress_syncs (_start_provider_sync "spotify1" [ARTIST; ALBUM] ex_syncing).1).
Proof.
  assert (Hin : ARTIST ∈ [ARTIST; ALBUM]) by apply list_elem_of_here.
  assert (Hcov : covered "spotify1" ARTIST (in_progress_syncs ex_syncing)).
  { exists ex_artist_sync. split; [apply list_elem_of_here|].
    split; [reflexivity|apply list_elem_of_here]. }
  assert (Hnot : ¬ covered "spotify1" ALBUM (in_progress_syncs ex_syncing)).
  { intros (st & Hst & _ & Hal). apply list_elem_of_singleton in Hst. subst st.
    apply list_elem_of_singleton in Hal. discriminate. }
  assert (Halbum : ALBUM ∈ [ARTIST; ALBUM]) by (apply list_elem_of_further, list_elem_of_here).
  split; [exact Halbum|]. split; [exact Hnot|].
  exact (proj2 (proj2 (proj2
    (start_provider_sync_skip_is_provider_wide ex_syncing "spotify1" [ARTIST; ALBUM] ARTIST Hin Hcov)))
    ALBUM Halbum Hnot).
Defined.

(** ** The monad *)

Lemma bind_Ok {St A B : Type} (m : M St A) (k : A -> M St B) (s s1 : St) (a : A) :
  m s = (s1, Ok a) -> bind m k s = k a s1.
Proof. intros H. unfold bind. by rewrite H. Qed.

Lemma bind_Raise {St A B : Type} (m : M St A) (k : A -> M St B) (s s1 : St) (e : Exn) :
  m s = (s1, Raise e) -> bind m k s = (s1, Raise e).
Proof. intros H. unfold bind. by rewrite H. Qed.

Lemma bind_inv {St A B : Type} (m : M St A) (k : A -> M St B) (s s' : St) (o : Outcome B) :
  bind m k s = (s', o) ->
  (∃ s1 a, m s = (s1, Ok a) ∧ k a s1 = (s', o))
  ∨ (∃ e, m s = (s', Raise e) ∧ o = Raise e).
Proof.
  unfold bind. destruct (m s) as [s1 [a|e]]; intros H.
  - left. eauto.
  - right. injection H as <- <-. eauto.
Qed.

(** ** Cancelling sync tasks on unload *)

Lemma list_remove_elem_of {A : Type} `{EqDecision A} (x : A) (l l' : list A) :
  list_remove x l = Some l' -> ∀ y, y ∈ l' -> y ∈ l.
Proof.
  revert l'. induction l as [|z l IH]; intros l' H y Hy; simpl in H; [done|].
  destruct (decide (x = z)) as [->|Hne].
  - injection H as <-. by apply list_elem_of_further.
  - destruct (list_remove x l) as [l0|] eqn:E; [|done]. simpl in H. injection H as <-.
    apply elem_of_cons in Hy as [->|Hy]; [apply list_elem_of_here|].
    apply list_elem_of_further. by eapply IH.
Qed.

Lemma list_remove_length {A : Type} `{EqDecision A} (x : A) (l l' : list A) :
  list_remove x l = Some l' -> length l = S (length l').
Proof.
  revert l'. induction l as [|z l IH]; intros l' H; simpl in H; [done|].
  destruct (decide (x = z)) as [->|Hne].
  - by injection H as <-.
  - destruct (list_remove x l) as [l0|] eqn:E; [|done]. simpl in H. injection H as <-.
    simpl. f_equal. by apply IH.
Qed.

Lemma list_remove_is_Some {A : Type} `{EqDecision A} (x : A) (l : list A) :
  x ∈ l -> is_Some (list_remove x l).
Proof.
  induction l as [|z l IH]; intros H; [by apply elem_of_nil in H|]. simpl.
  destruct (decide (x = z)); [by eexists|].
  apply elem_of_cons in H as [?|H]; [done|].
  destruct (IH H) as [l' ->]. by eexists.
Qed.

Lemma stops_only_syncs_refl (s : MusicAssistant) : stops_only_syncs s s.
Proof.
  repeat split; try done.
  - exists []. by rewrite app_nil_r.
  - exists []. by rewrite app_nil_r.
Qed.

Lemma stops_only_syncs_trans (s1 s2 s3 : MusicAssistant) :
  stops_only_syncs s1 s2 -> stops_only_syncs s2 s3 -> stops_only_syncs s1 s3.
Proof.
  intros (P1 & C1 & A1 & M1 & S1 & I1 & (cs1 & K1 & F1) & (ev1 & E1 & G1))
         (P2 & C2 & A2 & M2 & S2 & I2 & (cs2 & K2 & F2) & (ev2 & E2 & G2)).
  repeat split; try congruence.
  - auto.
  - exists (cs1 ++ cs2). split; [by rewrite K2, K1, app_assoc|by apply Forall_app].
  - exists (ev1 ++ ev2). split; [by rewrite E2, E1, app_assoc|by apply Forall_app].
Qed.

Lemma signal_event_spec (ev : EventType) (oid : option string) (d : EventData) (s : MusicAssistant) :
  ∃ s', signal_event ev oid d s = (s', Ok tt)
        ∧ _providers s' = _providers s
        ∧ closing s' = closing s
        ∧ _available_providers s' = _available_providers s
        ∧ provider_modules s' = provider_modules s
        ∧ _subscribers s' = _subscribers s
        ∧ in_progress_syncs s' = in_progress_syncs s
        ∧ _tracked_tasks s' = _tracked_tasks s
        ∧ calls s' = calls s
        ∧ signalled s' = signalled s ++ (if closing s then [] else [mkEvent ev oid d]).
Proof.
  unfold signal_event. destruct (closing s) eqn:Hc; eexists; (split; [reflexivity|]); simpl;
    rewrite ?app_nil_r; repeat split; done.
Qed.

Lemma task_done_callback_spec (t : Task) (s : MusicAssistant) :
  ∃ s', task_done_callback t s = (s', Ok tt)
        ∧ _providers s' = _providers s
        ∧ closing s' = closing s
        ∧ _available_providers s' = _available_providers s
        ∧ provider_modules s' = provider_modules s
        ∧ _subscribers s' = _subscribers s
        ∧ in_progress_syncs s' = in_progress_syncs s
        ∧ calls s' = calls s
        ∧ signalled s' = signalled s.
Proof.
  unfold task_done_callback. destruct (list_remove t (_tracked_tasks s));
    eexists; (split; [reflexivity|]); simpl; repeat split; done.
Qed.

Lemma on_sync_task_done_spec (st : SyncTask) (s : MusicAssistant) :
  ∃ s', on_sync_task_done st s = (s', Ok tt)
        ∧ stops_only_syncs s s'
        ∧ calls s' = calls s
        ∧ (st ∈ in_progress_syncs s ->
           length (in_progress_syncs s) = S (length (in_progress_syncs s'))).
Proof.
  unfold on_sync_task_done. destruct (list_remove st (in_progress_syncs s)) as [l|] eqn:Hrm.
  - destruct (signal_event_spec SYNC_TASKS_UPDATED None
                (SyncTasksData (in_progress_syncs (with_in_progress_syncs (fun _ => l) s)))
                (with_in_progress_syncs (fun _ => l) s))
      as (s3 & E3 & P3 & C3 & A3 & M3 & S3 & I3 & T3 & K3 & G3).
    exists s3. split; [exact E3|]. simpl in *. split; [|split].
    + repeat split; try congruence.
      * intros x Hx. rewrite I3 in Hx. exact (list_remove_elem_of _ _ _ Hrm x Hx).
      * exists []. rewrite app_nil_r. split; [done|apply Forall_nil_2].
      * eexists. split; [exact G3|].
        destruct (closing s); [apply Forall_nil_2|by apply Forall_singleton].
    + done.
    + intros _. rewrite I3. exact (list_remove_length _ _ _ Hrm).
  - exists s. split; [done|]. split; [apply stops_only_syncs_refl|]. split; [done|].
    intros Hin. apply list_remove_is_Some in Hin as [? Hin]. congruence.
Qed.

Lemma await_cancelled_task_spec (st : SyncTask) (s : MusicAssistant) :
  ∃ s', await_cancelled_task st s
        = (s', match task_on_cancel (task st) with
               | Cancelled => Raise CancelledError
               | Returned => Ok tt
               | Failed e => Raise e
               end)
        ∧ stops_only_syncs s s'
        ∧ (st ∈ in_progress_syncs s ->
           length (in_progress_syncs s) = S (length (in_progress_syncs s'))).
Proof.
  unfold await_cancelled_task.
  set (s1 := with_call (TaskAwaited (task_id (task st))) s).
  destruct (task_done_callback_spec (task st) s1) as (s2 & E2 & P2 & C2 & A2 & M2 & S2 & I2 & K2 & G2).
  destruct (on_sync_task_done_spec st s2) as (s3 & E3 & F3 & K3 & L3).
  exists s3. split; [|split].
  - rewrite (bind_Ok _ _ s s1 tt) by reflexivity.
    rewrite (bind_Ok _ _ s1 s2 tt) by exact E2.
    rewrite (bind_Ok _ _ s2 s3 tt) by exact E3.
    by destruct (task_on_cancel (task st)).
  - apply (stops_only_syncs_trans s s2 s3); [|exact F3].
    repeat split; try (simpl in *; congruence).
    + exists [TaskAwaited (task_id (task st))]. split; [by rewrite K2|].
      apply Forall_singleton. eauto.
    + exists []. rewrite app_nil_r. split; [by rewrite G2|apply Forall_nil_2].
  - intros Hin. rewrite <- L3; [by rewrite I2|]. by rewrite I2.
Qed.

Lemma task_cancel_spec (t : Task) (s : MusicAssistant) :
  task_cancel t s = (with_call (TaskCancelled (task_id t)) s, Ok tt)
  ∧ stops_only_syncs s (with_call (TaskCancelled (task_id t)) s).
Proof.
  split; [done|]. repeat split; try done.
  - exists [TaskCancelled (task_id t)]. split; [done|]. apply Forall_singleton. eauto.
  - exists []. simpl. by rewrite app_nil_r.
Qed.

(** One round of the loop, for an element that belongs to the instance. *)
Lemma cancel_and_await_spec (st : SyncTask) (s : MusicAssistant) :
  ∃ s', (task_cancel (task st) >> await_cancelled_task st) s
        = (s', match task_on_cancel (task st) with
               | Cancelled => Raise CancelledError
               | Returned => Ok tt
               | Failed e => Raise e
               end)
        ∧ stops_only_syncs s s'.
Proof.
  destruct (task_cancel_spec (task st) s) as [E1 F1].
  destruct (await_cancelled_task_spec st (with_call (TaskCancelled (task_id (task st))) s))
    as (s2 & E2 & F2 & _).
  exists s2. split.
  - by rewrite (bind_Ok _ _ _ _ tt E1).
  - by eapply stops_only_syncs_trans.
Qed.

Lemma stops_only_syncs_length (s s' : MusicAssistant) :
  stops_only_syncs s s' ->
  (∀ st, st ∈ in_progress_syncs s' -> st ∈ in_progress_syncs s).
Proof. intros (_ & _ & _ & _ & _ & H & _). exact H. Qed.

Lemma stop_sync_tasks_frame (instance_id' : string) (fuel i : nat) (s : MusicAssistant) :
  ∃ s' o, stop_sync_tasks instance_id' fuel i s = (s', o) ∧ stops_only_syncs s s'.
Proof.
  revert i s. induction fuel as [|fuel IH]; intros i s; simpl.
  - exists s, (Ok tt). split; [done|apply stops_only_syncs_refl].
  - destruct (in_progress_syncs s !! i) as [st|] eqn:Hi.
    + destruct (decide (provider_instance st = instance_id')) as [Hp|Hp].
      * destruct (cancel_and_await_spec st s) as (s1 & E1 & F1).
        destruct (task_on_cancel (task st)) eqn:Hr.
        -- exists s1, (Raise CancelledError). split; [|done].
           by rewrite (bind_Raise _ _ _ _ _ E1).
        -- destruct (IH (S i) s1) as (s2 & o & E2 & F2).
           exists s2, o. split; [|by eapply stops_only_syncs_trans].
           by rewrite (bind_Ok _ _ _ _ tt E1).
        -- exists s1, (Raise e). split; [|done].
           by rewrite (bind_Raise _ _ _ _ _ E1).
      * destruct (IH (S i) s) as (s2 & o & E2 & F2).
        exists s2, o. split; [|done]. by rewrite (bind_Ok _ _ s s tt).
    + exists s, (Ok tt). split; [done|apply stops_only_syncs_refl].
Qed.

(** If every in-flight task of the instance returns when cancelled, the
    loop runs to its end. *)
Lemma stop_sync_tasks_returned (instance_id' : string) (fuel i : nat) (s : MusicAssistant) :
  (∀ st, st ∈ in_progress_syncs s -> provider_instance st = instance_id' ->
         task_on_cancel (task st) = Returned) ->
  (stop_sync_tasks instance_id' fuel i s).2 = Ok tt.
Proof.
  revert i s. induction fuel as [|fuel IH]; intros i s Hall; simpl; [done|].
  destruct (in_progress_syncs s !! i) as [st|] eqn:Hi; [|done].
  assert (Hst : st ∈ in_progress_syncs s) by (apply list_elem_of_lookup; eauto).
  destruct (decide (provider_instance st = instance_id')) as [Hp|Hp].
  - destruct (cancel_and_await_spec st s) as (s1 & E1 & F1).
    rewrite (Hall st Hst Hp) in E1. rewrite (bind_Ok _ _ _ _ tt E1).
    apply IH. intros st' Hin. apply Hall. by apply (stops_only_syncs_length s s1).
  - rewrite (bind_Ok _ _ s s tt) by done. by apply IH.
Qed.

(** If the in-flight tasks of the instance let the cancellation propagate
    and there is one at or after index [i], the loop is left by the
    [CancelledError] that [await] raises. *)
Lemma stop_sync_tasks_cancelled (instance_id' : string) (fuel i j : nat) (s : MusicAssistant)
    (st : SyncTask) :
  (∀ st, st ∈ in_progress_syncs s -> provider_instance st = instance_id' ->
         task_on_cancel (task st) = Cancelled) ->
  i <= j ->
  in_progress_syncs s !! j = Some st ->
  provider_instance st = instance_id' ->
  j - i < fuel ->
  (stop_sync_tasks instance_id' fuel i s).2 = Raise CancelledError.
Proof.
  revert i. induction fuel as [|fuel IH]; intros i Hall Hij Hj Hp Hfuel; [lia|]. simpl.
  destruct (in_progress_syncs s !! i) as [st0|] eqn:Hi.
  - assert (Hst0 : st0 ∈ in_progress_syncs s) by (apply list_elem_of_lookup; eauto).
    destruct (decide (provider_instance st0 = instance_id')) as [Hp0|Hp0].
    + destruct (cancel_and_await_spec st0 s) as (s1 & E1 & F1).
      rewrite (Hall st0 Hst0 Hp0) in E1. by rewrite (bind_Raise _ _ _ _ _ E1).
    + rewrite (bind_Ok _ _ s s tt) by done.
      assert (i ≠ j) by (intros ->; congruence).
      apply IH; [done|lia|done|done|lia].
  - apply lookup_ge_None in Hi. apply lookup_lt_Some in Hj. lia.
Qed.

(** The bound on the rounds of the loop is never what ends it: any two
    bounds that cover the rest of the list give the same run. *)
Lemma stop_sync_tasks_fuel (instance_id' : string) (fuel fuel' i : nat) (s : MusicAssistant) :
  length (in_progress_syncs s) - i <= fuel ->
  length (in_progress_syncs s) - i <= fuel' ->
  stop_sync_tasks instance_id' fuel i s = stop_sync_tasks instance_id' fuel' i s.
Proof.
  revert fuel' i s. induction fuel as [|fuel IH]; intros fuel' i s H1 H2.
  - assert (Hi : in_progress_syncs s !! i = None) by (apply lookup_ge_None; lia).
    destruct fuel'; simpl; [done|]. by rewrite Hi.
  - destruct fuel' as [|fuel'].
    + assert (Hi : in_progress_syncs s !! i = None) by (apply lookup_ge_None; lia).
      simpl. by rewrite Hi.
    + simpl. destruct (in_progress_syncs s !! i) as [st|] eqn:Hi; [|done].
      assert (Hst : st ∈ in_progress_syncs s) by (apply list_elem_of_lookup; eauto).
      apply lookup_lt_Some in Hi.
      destruct (decide (provider_instance st = instance_id')) as [Hp|Hp].
      * destruct (task_cancel_spec (task st) s) as [E0 F0].
        destruct (await_cancelled_task_spec st (with_call (TaskCancelled (task_id (task st))) s))
          as (s1 & E1 & F1 & L1).
        specialize (L1 Hst). simpl in L1.
        assert (E : (task_cancel (task st) >> await_cancelled_task st) s
                    = (s1, match task_on_cancel (task st) with
                           | Cancelled => Raise CancelledError
                           | Returned => Ok tt
                           | Failed e => Raise e
                           end))
          by (by rewrite (bind_Ok _ _ _ _ tt E0)).
        destruct (task_on_cancel (task st)).
        -- by rewrite !(bind_Raise _ _ _ _ _ E).
        -- rewrite !(bind_Ok _ _ _ _ tt E). apply IH; lia.
        -- by rewrite !(bind_Raise _ _ _ _ _ E).
      * rewrite !(bind_Ok _ _ s s tt) by done. apply IH; lia.
Qed.

(** ** Unloading a provider *)

Lemma provider_close_spec (p : Provider) (s : MusicAssistant) :
  provider_close p s
  = (with_call (CloseCalled (instance_id p)) s,
     match on_close (behaviour p) with
     | None => Ok tt
     | Some e => Raise e
     end).
Proof. unfold provider_close, bind, modify. simpl. by destruct (on_close (behaviour p)). Qed.

Lemma unload_provider_unregistered (instance_id' : string) (s : MusicAssistant) :
  Dict.get instance_id' (_providers s) = None ->
  unload_provider instance_id' s = (s, Ok tt).
Proof. intros H. unfold unload_provider. by rewrite H. Qed.

(** C6 (the code at the failing input, in general). [unload_provider] on a
    registered instance that has a sync task in flight whose coroutine lets
    the cancellation propagate: [await sync_task.task] re-raises
    [CancelledError] inside [unload_provider], which has no handler for it.
    The call ends with that exception, [close()] is not called and the
    instance stays in the registry. *)
Theorem unload_provider_aborts_on_cancelled_sync
    (s : MusicAssistant) (instance_id' : string) (provider : Provider)
    (j : nat) (st : SyncTask) :
  Dict.get instance_id' (_providers s) = Some provider ->
  in_progress_syncs s !! j = Some st ->
  provider_instance st = instance_id' ->
  (∀ st', st' ∈ in_progress_syncs s -> provider_instance st' = instance_id' ->
          task_on_cancel (task st') = Cancelled) ->
  ∃ s' cs, unload_provider instance_id' s = (s', Raise CancelledError)
           ∧ Dict.get instance_id' (_providers s') = Some provider
           ∧ calls s' = calls s ++ cs
           ∧ (∀ id, CloseCalled id ∉ cs).
Proof.
  intros Hget Hj Hp Hall. unfold unload_provider. rewrite Hget.
  destruct (stop_sync_tasks_frame instance_id' (length (in_progress_syncs s)) 0 s)
    as (s1 & o & E1 & F1).
  assert (Ho : o = Raise CancelledError).
  { change o with (s1, o).2. rewrite <- E1.
    apply (stop_sync_tasks_cancelled instance_id' _ 0 j s st); try done; [lia|].
    apply lookup_lt_Some in Hj. lia. }
  subst o. rewrite (bind_Raise _ _ _ _ _ E1).
  destruct F1 as (P1 & _ & _ & _ & _ & _ & (cs & K1 & FC) & _).
  exists s1, cs. split; [done|]. split; [by rewrite P1|]. split; [done|].
  intros id Hin. rewrite Forall_forall in FC. destruct (FC _ Hin) as (t & [?|?]); discriminate.
Qed.

Lemma unload_provider_aborts_on_cancelled_sync_witness :
  ∃ s' cs, unload_provider "spotify1" ex_syncing = (s', Raise CancelledError)
           ∧ Dict.get "spotify1" (_providers s') = Some ex_spotify
           ∧ calls s' = calls ex_syncing ++ cs
           ∧ (∀ id, CloseCalled id ∉ cs).
Proof.
  apply (unload_provider_aborts_on_cancelled_sync ex_syncing "spotify1" ex_spotify 0 ex_artist_sync).
  - reflexivity.
  - reflexivity.
  - reflexivity.
  - intros st' Hin _. apply list_elem_of_singleton in Hin. subst st'. reflexivity.
Defined.

(** The same failing input, evaluated: the calls made are the cancellation
    and the await, the completion hook has emptied the in-progress list and
    signalled [SYNC_TASKS_UPDATED], and nothing else has happened. *)
Lemma unload_provider_with_sync_in_flight :
  let r := unload_provider "spotify1" ex_syncing in
  r.2 = Raise CancelledError
  ∧ calls r.1 = [TaskCancelled 0; TaskAwaited 0]
  ∧ _providers r.1 = [("spotify1", ex_spotify)]
  ∧ in_progress_syncs r.1 = []
  ∧ map event (signalled r.1) = [SYNC_TASKS_UPDATED].
Proof. vm_compute. repeat split; reflexivity. Qed.

(** A second way the loop of [unload_provider] misses its purpose. When the
    coroutines return on cancellation, the completion hook removes the
    awaited task from the very list the loop iterates, the iterator's index
    moves on, and the next task of the instance is stepped over: [close()]
    is called and the instance removed while its album sync is still in
    the in-progress list, never cancelled. *)
Lemma unload_provider_steps_over_second_sync :
  let r := unload_provider "spotify1" ex_two_syncs in
  r.2 = Ok tt
  ∧ calls r.1 = [TaskCancelled 0; TaskAwaited 0; CloseCalled "spotify1"]
  ∧ in_progress_syncs r.1 = [ex_returning_sync 1 [ALBUM]]
  ∧ _providers r.1 = [].
Proof. vm_compute. repeat split; reflexivity. Qed.

(** C7 (as the code has it). [unload_provider] signals [PROVIDERS_UPDATED]
    only from inside its [if provider := ...] block. For an instance id that
    is not registered the call returns with the state untouched and signals
    nothing. For a registered instance whose in-flight sync tasks return
    when cancelled and whose [close()] returns, on a server that is not
    closing, the call returns normally, the instance is gone from the
    registry, [close()] was called, and the last event signalled is
    [PROVIDERS_UPDATED], carrying the providers that remain. *)
Theorem unload_provider_signals_after_unloading
    (s : MusicAssistant) (instance_id' : string) :
  (Dict.get instance_id' (_providers s) = None ->
   unload_provider instance_id' s = (s, Ok tt))
  ∧ (∀ provider,
       Dict.get instance_id' (_providers s) = Some provider ->
       closing s = false ->
       (∀ st, st ∈ in_progress_syncs s -> provider_instance st = instance_id' ->
              task_on_cancel (task st) = Returned) ->
       on_close (behaviour provider) = None ->
       ∃ s' evs cs,
         unload_provider instance_id' s = (s', Ok tt)
         ∧ Dict.get instance_id' (_providers s') = None
         ∧ calls s' = calls s ++ cs ++ [CloseCalled (instance_id provider)]
         ∧ signalled s'
           = signalled s ++ evs
             ++ [mkEvent PROVIDERS_UPDATED None (ProvidersData (get_providers None s'))]
         ∧ Forall (fun e => event e = SYNC_TASKS_UPDATED) evs).
Proof.
  split; [apply unload_provider_unregistered|].
  intros provider Hget Hopen Hall Hclose. unfold unload_provider. rewrite Hget.
  destruct (stop_sync_tasks_frame instance_id' (length (in_progress_syncs s)) 0 s)
    as (s1 & o & E1 & F1).
  assert (Ho : o = Ok tt).
  { change o with (s1, o).2. rewrite <- E1. by apply stop_sync_tasks_returned. }
  subst o. rewrite (bind_Ok _ _ _ _ _ E1).
  destruct F1 as (P1 & C1 & _ & _ & _ & _ & (cs & K1 & _) & (evs & G1 & FE)).
  pose proof (provider_close_spec provider s1) as E2. rewrite Hclose in E2.
  rewrite (bind_Ok _ _ _ _ _ E2).
  set (s2 := with_call (CloseCalled (instance_id provider)) s1).
  assert (E3 : providers_pop instance_id' s2
               = (with_providers (Dict.pop instance_id') s2, Ok tt)).
  { unfold providers_pop. simpl. by rewrite P1, Hget. }
  rewrite (bind_Ok _ _ _ _ _ E3).
  set (s3 := with_providers (Dict.pop instance_id') s2).
  rewrite (bind_Ok _ _ s3 s3 (get_providers None s3)) by done.
  destruct (signal_event_spec PROVIDERS_UPDATED None (ProvidersData (get_providers None s3)) s3)
    as (s4 & E4 & P4 & C4 & _ & _ & _ & _ & _ & K4 & G4).
  exists s4, evs, cs. split; [exact E4|].
  assert (Hprov : get_providers None s4 = get_providers None s3)
    by (unfold get_providers; by rewrite P4).
  simpl in *. rewrite C1, Hopen in G4.
  split; [rewrite P4; apply DictFacts.get_pop_eq|].
  split; [by rewrite K4, K1, app_assoc|].
  split; [|done]. by rewrite G4, G1, Hprov, app_assoc.
Qed.

Lemma unload_provider_signals_after_unloading_witness :
  ∃ s' evs cs,
    unload_provider "spotify1" ex_idle = (s', Ok tt)
    ∧ Dict.get "spotify1" (_providers s') = None
    ∧ calls s' = calls ex_idle ++ cs ++ [CloseCalled (instance_id ex_spotify)]
    ∧ signalled s'
      = signalled ex_idle ++ evs
        ++ [mkEvent PROVIDERS_UPDATED None (ProvidersData (get_providers None s'))]
    ∧ Forall (fun e => event e = SYNC_TASKS_UPDATED) evs.
Proof.
  apply (proj2 (unload_provider_signals_after_unloading ex_idle "spotify1") ex_spotify).
  - reflexivity.
  - reflexivity.
  - intros st Hin. by apply elem_of_nil in Hin.
  - reflexivity.
Defined.

(** C7 fails as stated: unloading an instance id that is not registered
    returns normally and signals no event at all. *)
Lemma unload_provider_unregistered_signals_nothing :
  Dict.get "sonos1" (_providers ex_idle) = None
  ∧ unload_provider "sonos1" ex_idle = (ex_idle, Ok tt)
  ∧ signalled (unload_provider "sonos1" ex_idle).1 = []
  ∧ ¬ (∃ e, e ∈ signalled (unload_provider "sonos1" ex_idle).1 ∧ event e = PROVIDERS_UPDATED).
Proof.
  split; [reflexivity|]. split; [reflexivity|]. split; [reflexivity|].
  intros (e & He & _). by apply elem_of_nil in He.
Qed.

(** ** Starting syncs *)

Lemma keeps_registry_refl (s : MusicAssistant) : keeps_registry s s.
Proof. by repeat split. Qed.

Lemma keeps_registry_trans (s1 s2 s3 : MusicAssistant) :
  keeps_registry s1 s2 -> keeps_registry s2 s3 -> keeps_registry s1 s3.
Proof. intros (? & ? & ? & ?) (? & ? & ? & ?). repeat split; congruence. Qed.

Lemma extends_registry_refl (s : MusicAssistant) : extends_registry s s.
Proof. by repeat split. Qed.

Lemma extends_registry_trans (s1 s2 s3 : MusicAssistant) :
  extends_registry s1 s2 -> extends_registry s2 s3 -> extends_registry s1 s3.
Proof. intros (? & ? & ? & ?) (? & ? & ? & ?). repeat split; try congruence. auto. Qed.

Lemma keeps_extends_registry (s s' : MusicAssistant) :
  keeps_registry s s' -> extends_registry s s'.
Proof. intros (P & ? & ? & ?). repeat split; try done. by rewrite P. Qed.

(** A loop whose body keeps a relation and raises only what [Pe] allows
    does so as a whole. *)
Lemma for_each_frame {St A : Type} (R : St -> St -> Prop) (Pe : Exn -> Prop)
    (body : A -> M St unit) (xs : list A) :
  (∀ s, R s s) ->
  (∀ a b c, R a b -> R b c -> R a c) ->
  (∀ x s, ∃ s' o, body x s = (s', o) ∧ R s s' ∧ ∀ e, o = Raise e -> Pe e) ->
  ∀ s, ∃ s' o, for_each xs body s = (s', o) ∧ R s s' ∧ ∀ e, o = Raise e -> Pe e.
Proof.
  intros Hrefl Htrans Hbody. induction xs as [|x xs IH]; intros s; simpl.
  - exists s, (Ok tt). split; [done|]. split; [apply Hrefl|]. intros e; discriminate.
  - destruct (Hbody x s) as (s1 & [[]|e1] & E1 & R1 & P1).
    + destruct (IH s1) as (s2 & o & E2 & R2 & P2).
      exists s2, o. split; [by rewrite (bind_Ok _ _ _ _ _ E1)|]. split; [by eapply Htrans|done].
    + exists s1, (Raise e1). split; [by rewrite (bind_Raise _ _ _ _ _ E1)|]. done.
Qed.

Lemma get_provider_spec (x : string) (s : MusicAssistant) :
  ∃ o, get_provider x s = (s, o) ∧ ∀ e, o = Raise e -> is_Exception e = true.
Proof.
  unfold get_provider. destruct (Dict.get x (_providers s)).
  - eexists. split; [done|]. intros e; discriminate.
  - destruct (find _ _).
    + eexists. split; [done|]. intros e; discriminate.
    + eexists. split; [done|]. by intros e [= <-].
Qed.

Lemma create_task_spec (job : CancelResponse) (s : MusicAssistant) :
  ∃ s' t, create_task job s = (s', Ok t) ∧ keeps_registry s s'.
Proof. eexists _, _. split; [reflexivity|]. by repeat split. Qed.

Lemma start_provider_sync_frame (P : string) (types : list MediaType) (s : MusicAssistant) :
  ∃ s' o, _start_provider_sync P types s = (s', o)
          ∧ keeps_registry s s'
          ∧ ∀ e, o = Raise e -> is_Exception e = true.
Proof.
  unfold _start_provider_sync. destruct (sync_in_progress P types (in_progress_syncs s)).
  - exists s, (Ok tt). split; [done|]. split; [apply keeps_registry_refl|]. intros e; discriminate.
  - destruct (get_provider_spec P s) as ([provider|e] & E1 & P1).
    + rewrite (bind_Ok _ _ _ _ _ E1).
      destruct (create_task_spec (sync_on_cancel (behaviour provider)) s) as (s1 & t & E2 & R2).
      rewrite (bind_Ok _ _ _ _ _ E2).
      set (spec := mkSyncTask _ _ _ _).
      set (s2 := with_in_progress_syncs (fun l => l ++ [spec]) s1).
      rewrite (bind_Ok _ _ s1 s2 tt) by done.
      rewrite (bind_Ok _ _ s2 s2 (in_progress_syncs s2)) by done.
      destruct (signal_event_spec SYNC_TASKS_UPDATED None (SyncTasksData (in_progress_syncs s2)) s2)
        as (s3 & E3 & P3 & C3 & A3 & M3 & _).
      exists s3, (Ok tt). split; [exact E3|]. split; [|intros e; discriminate].
      destruct R2 as (? & ? & ? & ?). repeat split; simpl in *; congruence.
    + exists s, (Raise e). split; [by rewrite (bind_Raise _ _ _ _ _ E1)|].
      split; [apply keeps_registry_refl|]. intros e0 [= <-]. by apply P1.
Qed.

Lemma start_sync_frame (types : option (list MediaType)) (ps : option (list string))
    (s : MusicAssistant) :
  ∃ s' o, start_sync types ps s = (s', o)
          ∧ keeps_registry s s'
          ∧ ∀ e, o = Raise e -> is_Exception e = true.
Proof.
  unfold start_sync.
  set (body := fun provider : Provider => _).
  destruct (for_each_frame keeps_registry (fun e => is_Exception e = true) body
              (music_providers s) keeps_registry_refl keeps_registry_trans) with (s := s)
    as (s1 & [[]|e] & E1 & R1 & P1).
  { intros x s0. unfold body. destruct (decide _).
    - apply start_provider_sync_frame.
    - exists s0, (Ok tt). split; [done|]. split; [apply keeps_registry_refl|].
      intros e; discriminate. }
  - exists (with_call MetadataScanStarted s1), (Ok tt).
    split; [by rewrite (bind_Ok _ _ _ _ _ E1)|]. split; [|intros e; discriminate].
    destruct R1 as (? & ? & ? & ?). by repeat split.
  - exists s1, (Raise e). split; [by rewrite (bind_Raise _ _ _ _ _ E1)|]. done.
Qed.

(** ** Loading a provider *)

Lemma provider_setup_spec (p : Provider) (s : MusicAssistant) :
  provider_setup p s
  = (with_call (SetupCalled (instance_id p)) s,
     match on_setup (behaviour p) with
     | None => Ok tt
     | Some e => Raise e
     end).
Proof. unfold provider_setup, bind, modify. simpl. by destruct (on_setup (behaviour p)). Qed.

Lemma find_provider_class_elem_of (m : ProviderManifest) (members : list (string * Member))
    (cls : ProviderBehaviour) :
  find_provider_class m members = Some cls ->
  ∃ name kind, (name, AClass kind cls) ∈ members.
Proof.
  induction members as [|[name obj] members IH]; simpl; [done|].
  destruct (is_provider_class m name obj) as [c|] eqn:E.
  - intros [= ->]. unfold is_provider_class in E. destruct obj as [|kind c]; [done|].
    destruct (_ || _); [|done]. injection E as ->.
    exists name, kind. apply list_elem_of_here.
  - intros H. destruct (IH H) as (n & k & Hin). exists n, k. by apply list_elem_of_further.
Qed.

Lemma is_Some_get_set {V : Type} (k k' : string) (v : V) (d : list (string * V)) :
  is_Some (Dict.get k d) -> is_Some (Dict.get k (Dict.set k' v d)).
Proof.
  intros H. destruct (decide (k' = k)) as [->|Hne].
  - rewrite DictFacts.get_set_eq. by eexists.
  - by rewrite DictFacts.get_set_ne.
Qed.

Lemma is_Some_get_update {V : Type} (k k' : string) (f : V -> V) (d : list (string * V)) :
  is_Some (Dict.get k d) -> is_Some (Dict.get k (Dict.update k' f d)).
Proof.
  intros H. destruct (decide (k' = k)) as [->|Hne].
  - rewrite DictFacts.get_update_eq. destruct H as [v ->]. by eexists.
  - by rewrite DictFacts.get_update_ne.
Qed.

(** What the guarded part of [load_provider] does. Whatever it raises is an
    [Exception], provided the located class's [setup()] raises nothing
    else; it unregisters nothing; and once the class is located the new
    instance is in the registry, whether [setup()] succeeds or not. *)
Lemma load_provider_body_spec (m : ProviderManifest) (conf : ProviderConfig) (s : MusicAssistant) :
  (∀ members cls e,
     provider_modules s !! conf_domain conf = Some members ->
     find_provider_class m members = Some cls ->
     on_setup cls = Some e -> is_Exception e = true) ->
  ∃ s' o,
    load_provider_body m conf s = (s', o)
    ∧ extends_registry s s'
    ∧ (∀ e, o = Raise e -> is_Exception e = true)
    ∧ (∀ members cls,
         provider_modules s !! conf_domain conf = Some members ->
         find_provider_class m members = Some cls ->
         ∃ p, Dict.get (conf_instance_id conf) (_providers s') = Some p
              ∧ manifest p = m ∧ config p = conf
              ∧ match on_setup cls with
                | Some e =>
                    o = Raise e ∧ available p = false
                    ∧ last_error p = (if is_MusicAssistantError e
                                      then Some (str_of_exn e) else None)
                | None => available p = true ∧ last_error p = None
                end).
Proof.
  intros Hexn. unfold load_provider_body.
  destruct (provider_modules s !! conf_domain conf) as [members|] eqn:Hmod.
  2:{ eexists s, _. split.
      { apply bind_Raise. unfold import_module. by rewrite Hmod. }
      split; [apply extends_registry_refl|].
      split; [by intros e [= <-]|]. intros ? ?; discriminate. }
  rewrite (bind_Ok _ _ s s members) by (unfold import_module; by rewrite Hmod).
  destruct (find_provider_class m members) as [cls|] eqn:Hcls.
  2:{ eexists s, _. split.
      { apply bind_Raise. unfold locate_class. by rewrite Hcls. }
      split; [apply extends_registry_refl|].
      split; [by intros e [= <-]|]. intros ? ? [= <-]. congruence. }
  rewrite (bind_Ok _ _ s s cls) by (unfold locate_class; by rewrite Hcls).
  set (provider := Provider__init__ m conf cls).
  change (instance_id provider) with (conf_instance_id conf).
  set (id := conf_instance_id conf).
  set (s1 := with_providers (Dict.set id provider) s).
  rewrite (bind_Ok _ _ s s1 tt) by done.
  set (s2 := with_call (SetupCalled id) s1).
  assert (Hget2 : Dict.get id (_providers s2) = Some provider)
    by (simpl; apply DictFacts.get_set_eq).
  assert (Hext2 : extends_registry s s2).
  { repeat split; try done. intros k Hk. simpl. by apply is_Some_get_set. }
  destruct (on_setup cls) as [e|] eqn:Hsetup.
  - (* setup() raises *)
    assert (Hexc : is_Exception e = true) by eauto.
    set (s3 := with_providers (Dict.update id (set_last_error (Some (str_of_exn e)))) s2).
    set (s4 := with_providers (Dict.update id (set_available false)) s3).
    exists (if is_MusicAssistantError e then s4 else s2), (Raise e).
    assert (Hext4 : extends_registry s s4).
    { eapply extends_registry_trans; [exact Hext2|].
      repeat split; try done. intros k Hk. simpl. by do 2 apply is_Some_get_update. }
    split.
    { erewrite bind_Raise; [reflexivity|]. unfold try_except.
      rewrite provider_setup_spec. simpl. rewrite Hsetup.
      destruct (is_MusicAssistantError e); reflexivity. }
    split; [by destruct (is_MusicAssistantError e)|].
    split; [by intros e0 [= <-]|].
    intros members' cls' [= <-] Hc. rewrite Hcls in Hc. injection Hc as <-. rewrite Hsetup.
    destruct (is_MusicAssistantError e).
    + eexists. split.
      { simpl. rewrite DictFacts.get_update_eq, DictFacts.get_update_eq, DictFacts.get_set_eq.
        reflexivity. }
      by repeat split.
    + exists provider. by repeat split.
  - (* setup() returns *)
    set (s3 := with_providers (Dict.update id (set_available true)) s2).
    set (s4 := with_providers (Dict.update id (set_last_error None)) s3).
    assert (Hext4 : extends_registry s s4).
    { eapply extends_registry_trans; [exact Hext2|].
      repeat split; try done. intros k Hk. simpl. by do 2 apply is_Some_get_update. }
    assert (Hget4 : Dict.get id (_providers s4)
                    = Some (set_last_error None (set_available true provider))).
    { simpl. by rewrite DictFacts.get_update_eq, DictFacts.get_update_eq, DictFacts.get_set_eq. }
    assert (Hpre : ∀ k : unit -> Mass unit,
               bind (try_except (provider_setup provider) is_MusicAssistantError
                       (fun err =>
                          provider_assign id (set_last_error (Some (str_of_exn err))) >>
                          provider_assign id (set_available false) >> raise err))
                    (fun _ => provider_assign id (set_available true) >>
                              provider_assign id (set_last_error None) >> k tt) s1
               = k tt s4).
    { intros k. erewrite bind_Ok; [reflexivity|]. unfold try_except.
      rewrite provider_setup_spec. simpl. by rewrite Hsetup. }
    destruct (decide (type provider = MUSIC)) as [Hty|Hty].
    + destruct (start_sync_frame None (Some [id]) s4) as (s5 & o & E5 & R5 & P5).
      exists s5, o. split.
      { rewrite (Hpre (fun _ => start_sync None (Some [id]))). exact E5. }
      split; [eapply extends_registry_trans; [exact Hext4|by apply keeps_extends_registry]|].
      split; [exact P5|].
      intros members' cls' [= <-] Hc. rewrite Hcls in Hc. injection Hc as <-. rewrite Hsetup.
      destruct R5 as (-> & _). eexists. split; [exact Hget4|]. by repeat split.
    + exists s4, (Ok tt). split; [by rewrite (Hpre (fun _ => ret tt))|].
      split; [exact Hext4|]. split; [intros e; discriminate|].
      intros members' cls' [= <-] Hc. rewrite Hcls in Hc. injection Hc as <-. rewrite Hsetup.
      eexists. split; [exact Hget4|]. by repeat split.
Qed.

Lemma unload_provider_frame (instance_id' : string) (s : MusicAssistant) :
  ∃ s' o, unload_provider instance_id' s = (s', o)
          ∧ _available_providers s' = _available_providers s
          ∧ provider_modules s' = provider_modules s
          ∧ closing s' = closing s
          ∧ ∀ k, k ≠ instance_id' -> Dict.get k (_providers s') = Dict.get k (_providers s).
Proof.
  unfold unload_provider. destruct (Dict.get instance_id' (_providers s)) as [provider|] eqn:Hget.
  2:{ by exists s, (Ok tt). }
  destruct (stop_sync_tasks_frame instance_id' (length (in_progress_syncs s)) 0 s)
    as (s1 & [[]|e1] & E1 & (P1 & C1 & A1 & M1 & _)).
  2:{ exists s1, (Raise e1). rewrite (bind_Raise _ _ _ _ _ E1). repeat split; congruence. }
  rewrite (bind_Ok _ _ _ _ _ E1).
  pose proof (provider_close_spec provider s1) as E2.
  set (s2 := with_call (CloseCalled (instance_id provider)) s1) in *.
  destruct (on_close (behaviour provider)) as [e2|].
  { exists s2, (Raise e2). rewrite (bind_Raise _ _ _ _ _ E2). repeat split; simpl; congruence. }
  rewrite (bind_Ok _ _ _ _ _ E2).
  assert (E3 : providers_pop instance_id' s2
               = (with_providers (Dict.pop instance_id') s2, Ok tt)).
  { unfold providers_pop. simpl. by rewrite P1, Hget. }
  rewrite (bind_Ok _ _ _ _ _ E3).
  set (s3 := with_providers (Dict.pop instance_id') s2).
  rewrite (bind_Ok _ _ s3 s3 (get_providers None s3)) by done.
  destruct (signal_event_spec PROVIDERS_UPDATED None (ProvidersData (get_providers None s3)) s3)
    as (s4 & E4 & P4 & C4 & A4 & M4 & _).
  exists s4, (Ok tt). split; [exact E4|]. simpl in *.
  repeat split; try congruence.
  intros k Hk. rewrite P4, <- P1. by apply DictFacts.get_pop_ne.
Qed.

(** Past its guards, [load_provider] is the guarded body followed by the
    [PROVIDERS_UPDATED] signal. *)
Lemma load_provider_past_guards
    (s s1 : MusicAssistant) (conf : ProviderConfig) (m : ProviderManifest) :
  unload_provider (conf_instance_id conf) s = (s1, Ok tt) ->
  enabled conf = true ->
  _available_providers s1 !! conf_domain conf = Some m ->
  (find (fun x => bool_decide (domain x = conf_domain conf)) (providers s1) = None
   ∨ multi_instance m = true) ->
  load_provider conf s
  = (try_except (load_provider_body m conf) is_Exception (fun exc => ret tt) >>
     let* provs := gets (get_providers None) in
     signal_event PROVIDERS_UPDATED None (ProvidersData provs)) s1.
Proof.
  intros Hun Hen Hm Hex. unfold load_provider.
  rewrite (bind_Ok _ _ _ _ _ Hun). rewrite Hen. simpl.
  rewrite (bind_Ok _ _ s1 s1 (Some m)) by (unfold gets; by rewrite Hm).
  erewrite (bind_Ok _ _ s1 s1) by reflexivity.
  destruct (find _ (providers s1)) as [x|] eqn:Hfind.
  - destruct Hex as [?|Hmulti]; [done|]. rewrite Hmulti. simpl.
    by rewrite (bind_Ok _ _ s1 s1 tt).
  - by rewrite (bind_Ok _ _ s1 s1 tt).
Qed.

(** Past the guards every [Exception] of the body is caught: the call
    returns normally, unregisters nothing, and the instance, once its class
    was located, is in the registry with the status that [setup()] left. *)
Lemma load_provider_catches
    (s s1 : MusicAssistant) (conf : ProviderConfig) (m : ProviderManifest) :
  unload_provider (conf_instance_id conf) s = (s1, Ok tt) ->
  enabled conf = true ->
  _available_providers s1 !! conf_domain conf = Some m ->
  (find (fun x => bool_decide (domain x = conf_domain conf)) (providers s1) = None
   ∨ multi_instance m = true) ->
  (∀ members cls e,
     provider_modules s1 !! conf_domain conf = Some members ->
     find_provider_class m members = Some cls ->
     on_setup cls = Some e -> is_Exception e = true) ->
  ∃ s', load_provider conf s = (s', Ok tt)
        ∧ extends_registry s1 s'
        ∧ (∀ members cls,
             provider_modules s1 !! conf_domain conf = Some members ->
             find_provider_class m members = Some cls ->
             ∃ p, Dict.get (conf_instance_id conf) (_providers s') = Some p
                  ∧ manifest p = m ∧ config p = conf
                  ∧ match on_setup cls with
                    | Some e =>
                        available p = false
                        ∧ last_error p = (if is_MusicAssistantError e
                                          then Some (str_of_exn e) else None)
                    | None => available p = true ∧ last_error p = None
                    end).
Proof.
  intros Hun Hen Hm Hex Hexn.
  rewrite (load_provider_past_guards s s1 conf m Hun Hen Hm Hex).
  destruct (load_provider_body_spec m conf s1 Hexn) as (s2 & o & E2 & R2 & P2 & Q2).
  assert (E2' : try_except (load_provider_body m conf) is_Exception (fun exc => ret tt) s1
                = (s2, Ok tt)).
  { unfold try_except. rewrite E2. destruct o as [[]|e]; [done|]. by rewrite (P2 e). }
  rewrite (bind_Ok _ _ _ _ _ E2').
  rewrite (bind_Ok _ _ s2 s2 (get_providers None s2)) by done.
  destruct (signal_event_spec PROVIDERS_UPDATED None (ProvidersData (get_providers None s2)) s2)
    as (s3 & E3 & P3 & C3 & A3 & M3 & _).
  exists s3. split; [exact E3|]. split.
  - eapply extends_registry_trans; [exact R2|]. repeat split; try done. by rewrite P3.
  - intros members cls Hmod Hcls. destruct (Q2 members cls Hmod Hcls) as (p & Hp & Hpm & Hpc & Hst).
    exists p. rewrite P3. split; [done|]. split; [done|]. split; [done|].
    destruct (on_setup cls); [by destruct Hst as (_ & ? & ?)|done].
Qed.

(** The registry after the guarded part of [load_provider]: what was
    registered before, and under the config's id an instance made from the
    manifest. *)
Lemma load_provider_body_registry (m : ProviderManifest) (conf : ProviderConfig)
    (s : MusicAssistant) :
  ∀ k p, (k, p) ∈ _providers (load_provider_body m conf s).1 ->
         (k, p) ∈ _providers s ∨ (k = conf_instance_id conf ∧ manifest p = m).
Proof.
  unfold load_provider_body.
  destruct (provider_modules s !! conf_domain conf) as [members|] eqn:Hmod.
  2:{ erewrite bind_Raise by (unfold import_module; by rewrite Hmod). intros k p Hin. by left. }
  rewrite (bind_Ok _ _ s s members) by (unfold import_module; by rewrite Hmod).
  destruct (find_provider_class m members) as [cls|] eqn:Hcls.
  2:{ erewrite bind_Raise by (unfold locate_class; by rewrite Hcls). intros k p Hin. by left. }
  rewrite (bind_Ok _ _ s s cls) by (unfold locate_class; by rewrite Hcls).
  set (provider := Provider__init__ m conf cls).
  change (instance_id provider) with (conf_instance_id conf).
  set (id := conf_instance_id conf).
  set (s1 := with_providers (Dict.set id provider) s).
  rewrite (bind_Ok _ _ s s1 tt) by done.
  set (Reg := fun d : list (string * Provider) =>
                (∀ k p, (k, p) ∈ d -> (k, p) ∈ _providers s ∨ (k = id ∧ manifest p = m))
                ∧ (∀ p, Dict.get id d = Some p -> manifest p = m)).
  assert (Hset : Reg (Dict.set id provider (_providers s))).
  { split.
    - intros k p [?|[-> ->]]%DictFacts.elem_of_set; [by left|by right].
    - intros p. rewrite DictFacts.get_set_eq. by intros [= <-]. }
  assert (Hupd : ∀ f d, (∀ p, manifest (f p) = manifest p) -> Reg d -> Reg (Dict.update id f d)).
  { intros f d Hf [Hd Hid]. split.
    - intros k p [?|(-> & p0 & Hp0 & ->)]%DictFacts.elem_of_update; [by apply Hd|right].
      split; [done|]. rewrite Hf. by apply Hid.
    - intros p. rewrite DictFacts.get_update_eq.
      destruct (Dict.get id d) as [p0|] eqn:Hp0; [|done]. intros [= <-].
      rewrite Hf. by apply Hid. }
  set (s2 := with_call (SetupCalled id) s1).
  destruct (on_setup cls) as [e|] eqn:Hsetup.
  - (* setup() raises *)
    destruct (is_MusicAssistantError e) eqn:Hmae.
    + erewrite bind_Raise
        by (unfold try_except; rewrite provider_setup_spec; simpl; rewrite Hsetup, Hmae;
            reflexivity).
      simpl. apply Hupd; [done|]. by apply Hupd.
    + erewrite bind_Raise
        by (unfold try_except; rewrite provider_setup_spec; simpl; rewrite Hsetup, Hmae;
            reflexivity).
      simpl. apply Hset.
  - (* setup() returns *)
    erewrite bind_Ok
      by (unfold try_except; rewrite provider_setup_spec; simpl; rewrite Hsetup; reflexivity).
    set (s3 := with_providers (Dict.update id (set_available true)) s2).
    set (s4 := with_providers (Dict.update id (set_last_error None)) s3).
    rewrite (bind_Ok _ _ s2 s3 tt) by done.
    rewrite (bind_Ok _ _ s3 s4 tt) by done.
    assert (H4 : Reg (_providers s4)).
    { simpl. apply Hupd; [done|]. by apply Hupd. }
    destruct (decide (type provider = MUSIC)) as [Hty|Hty].
    + destruct (start_sync_frame None (Some [id]) s4) as (s5 & o & E5 & R5 & _).
      rewrite E5. cbn [fst]. destruct R5 as (-> & _). apply H4.
    + apply H4.
Qed.

(** The registry after a [load_provider] that got past its guards. *)
Lemma load_provider_registry
    (s s1 : MusicAssistant) (conf : ProviderConfig) (m : ProviderManifest) :
  unload_provider (conf_instance_id conf) s = (s1, Ok tt) ->
  enabled conf = true ->
  _available_providers s1 !! conf_domain conf = Some m ->
  (find (fun x => bool_decide (domain x = conf_domain conf)) (providers s1) = None
   ∨ multi_instance m = true) ->
  ∀ k p, (k, p) ∈ _providers (load_provider conf s).1 ->
         (k, p) ∈ _providers s1 ∨ (k = conf_instance_id conf ∧ manifest p = m).
Proof.
  intros Hun Hen Hm Hex.
  rewrite (load_provider_past_guards s s1 conf m Hun Hen Hm Hex).
  pose proof (load_provider_body_registry m conf s1) as Hreg.
  unfold try_except, bind at 1.
  destruct (load_provider_body m conf s1) as [s2 o] eqn:E2. simpl in Hreg.
  assert (E : ∀ s' : MusicAssistant,
            (let* provs := gets (get_providers None) in
             signal_event PROVIDERS_UPDATED None (ProvidersData provs)) s'
            = signal_event PROVIDERS_UPDATED None (ProvidersData (get_providers None s')) s')
    by done.
  destruct (signal_event_spec PROVIDERS_UPDATED None (ProvidersData (get_providers None s2)) s2)
    as (s3 & E3 & P3 & _).
  destruct o as [[]|e].
  - rewrite E, E3. simpl. by rewrite P3.
  - destruct (is_Exception e).
    + unfold ret. rewrite E, E3. simpl. by rewrite P3.
    + simpl. exact Hreg.
Qed.

(** C2 (as the code has it). When the [setup()] of the provider being
    loaded raises an [Exception], [load_provider] does not pass it on: the
    handler around [setup()] re-raises it, the handler around the whole
    guarded part catches and logs it, and the call returns normally. The
    instance stays in the registry, marked unavailable; its [last_error] is
    the message of the error if that is a [MusicAssistantError], and stays
    [None] for any other [Exception]. The hypotheses are read on the state
    [s1] that the opening [unload_provider] leaves. *)
Theorem load_provider_keeps_failed_instance
    (s s1 : MusicAssistant) (conf : ProviderConfig) (m : ProviderManifest)
    (members : list (string * Member)) (cls : ProviderBehaviour) (e : Exn) :
  unload_provider (conf_instance_id conf) s = (s1, Ok tt) ->
  enabled conf = true ->
  _available_providers s1 !! conf_domain conf = Some m ->
  (find (fun x => bool_decide (domain x = conf_domain conf)) (providers s1) = None
   ∨ multi_instance m = true) ->
  provider_modules s1 !! conf_domain conf = Some members ->
  find_provider_class m members = Some cls ->
  on_setup cls = Some e ->
  is_Exception e = true ->
  ∃ s' p, load_provider conf s = (s', Ok tt)
          ∧ Dict.get (conf_instance_id conf) (_providers s') = Some p
          ∧ manifest p = m ∧ config p = conf
          ∧ available p = false
          ∧ last_error p = (if is_MusicAssistantError e then Some (str_of_exn e) else None).
Proof.
  intros Hun Hen Hm Hex Hmod Hcls Hsetup Hexc.
  destruct (load_provider_catches s s1 conf m Hun Hen Hm Hex) as (s' & E & _ & Q).
  { intros members' cls' e' Hmod' Hcls' Hsetup'. congruence. }
  destruct (Q members cls Hmod Hcls) as (p & Hp & Hpm & Hpc & Hst).
  rewrite Hsetup in Hst. exists s', p. by destruct Hst.
Qed.

Lemma load_provider_keeps_failed_instance_witness :
  ∃ s' p, load_provider (ex_config "tidal1" "tidal") ex_startup = (s', Ok tt)
          ∧ Dict.get "tidal1" (_providers s') = Some p
          ∧ manifest p = ex_manifest METADATA "tidal" true
          ∧ config p = ex_config "tidal1" "tidal"
          ∧ available p = false
          ∧ last_error p = Some "login failed".
Proof.
  apply (load_provider_keeps_failed_instance ex_startup ex_startup (ex_config "tidal1" "tidal")
           (ex_manifest METADATA "tidal" true)
           [("TidalProvider", AClass ProviderSubclass ex_failing_behaviour)]
           ex_failing_behaviour (SetupFailedError "login failed")).
  - reflexivity.
  - reflexivity.
  - reflexivity.
  - left. reflexivity.
  - reflexivity.
  - reflexivity.
  - reflexivity.
  - reflexivity.
Defined.

(** C2 fails as stated: the [setup()] of the provider located for this
    config raises [SetupFailedError], and [load_provider] returns normally
    instead of raising it to its caller. *)
Lemma load_provider_does_not_reraise_setup_error :
  (find_provider_class (ex_manifest METADATA "tidal" true)
     [("TidalProvider", AClass ProviderSubclass ex_failing_behaviour)]
   ≫= on_setup) = Some (SetupFailedError "login failed")
  ∧ (load_provider (ex_config "tidal1" "tidal") ex_startup).2 = Ok tt
  ∧ (load_provider (ex_config "tidal1" "tidal") ex_startup).2
    ≠ Raise (SetupFailedError "login failed")
  ∧ calls (load_provider (ex_config "tidal1" "tidal") ex_startup).1 = [SetupCalled "tidal1"].
Proof. vm_compute. repeat split; try reflexivity. discriminate. Qed.

(** C8 (as the code has it). With an instance of a single-instance domain
    in the registry, loading a second config of that domain that is enabled
    and has another instance id fails with [SetupFailedError] as soon as the
    opening [unload_provider] of the second config's own id has returned,
    and the first instance is still registered, with the same value. If the
    second config's id was not registered, the failed load leaves the whole
    state as it was. *)
Theorem load_provider_single_instance
    (s s1 : MusicAssistant) (conf : ProviderConfig) (m : ProviderManifest)
    (k : string) (first : Provider) :
  unload_provider (conf_instance_id conf) s = (s1, Ok tt) ->
  enabled conf = true ->
  _available_providers s !! conf_domain conf = Some m ->
  multi_instance m = false ->
  Dict.get k (_providers s) = Some first ->
  domain first = conf_domain conf ->
  k ≠ conf_instance_id conf ->
  load_provider conf s
  = (s1, Raise (SetupFailedError
                  ("Provider " +:+ conf_domain conf
                   +:+ " already loaded and only one instance allowed.")))
  ∧ Dict.get k (_providers s1) = Some first
  ∧ (Dict.get (conf_instance_id conf) (_providers s) = None -> s1 = s).
Proof.
  intros Hun Hen Hm Hmulti Hfirst Hdom Hk.
  destruct (unload_provider_frame (conf_instance_id conf) s) as (s1' & o & E & A & Mo & C & G).
  rewrite Hun in E. injection E as <- <-.
  assert (Hfirst1 : Dict.get k (_providers s1) = Some first) by (rewrite G; done).
  split; [|split; [done|]].
  - unfold load_provider. rewrite (bind_Ok _ _ _ _ _ Hun). rewrite Hen. simpl.
    rewrite (bind_Ok _ _ s1 s1 (Some m)) by (unfold gets; by rewrite A, Hm).
    erewrite (bind_Ok _ _ s1 s1) by reflexivity.
    destruct (DictFacts.find_values (fun x => bool_decide (domain x = conf_domain conf))
                k first (_providers s1) Hfirst1) as [x Hx].
    { by apply bool_decide_eq_true. }
    unfold providers. rewrite Hx, Hmulti. simpl. by apply bind_Raise.
  - intros Hnone. rewrite (unload_provider_unregistered _ _ Hnone) in Hun. congruence.
Qed.

Lemma load_provider_single_instance_witness :
  load_provider (ex_config "spotify2" "spotify") ex_idle
  = (ex_idle, Raise (SetupFailedError
                       "Provider spotify already loaded and only one instance allowed."))
  ∧ Dict.get "spotify1" (_providers ex_idle) = Some ex_spotify.
Proof.
  destruct (load_provider_single_instance ex_idle ex_idle (ex_config "spotify2" "spotify")
              (ex_manifest MUSIC "spotify" false) "spotify1" ex_spotify)
    as (H1 & H2 & _).
  - reflexivity.
  - reflexivity.
  - reflexivity.
  - reflexivity.
  - reflexivity.
  - reflexivity.
  - discriminate.
  - split; [exact H1|exact H2].
Defined.

(** C8 fails as stated: a second config of the single-instance domain that
    is disabled does not fail with [SetupFailed]; [load_provider] returns
    normally at its [enabled] guard. *)
Lemma load_provider_disabled_second_config_returns :
  multi_instance (ex_manifest MUSIC "spotify" false) = false
  ∧ _available_providers ex_idle !! "spotify" = Some (ex_manifest MUSIC "spotify" false)
  ∧ Dict.get "spotify1" (_providers ex_idle) = Some ex_spotify
  ∧ domain ex_spotify = conf_domain ex_disabled_config
  ∧ conf_instance_id ex_disabled_config ≠ "spotify1"
  ∧ load_provider ex_disabled_config ex_idle = (ex_idle, Ok tt).
Proof. repeat split. discriminate. Qed.

(** ** Loading all configured providers *)

(** A loop whose body, on states that satisfy [I], returns normally, keeps
    the relation [R] and establishes [Q] for its element, where [R] keeps
    both [I] and every [Q] already established. *)
Lemma for_each_establishes {St A : Type}
    (I : St -> Prop) (R : St -> St -> Prop) (Q : A -> St -> Prop)
    (body : A -> M St unit) (xs : list A) :
  (∀ s, R s s) ->
  (∀ a b c, R a b -> R b c -> R a c) ->
  (∀ s s', R s s' -> I s -> I s') ->
  (∀ x s s', R s s' -> Q x s -> Q x s') ->
  (∀ x s, x ∈ xs -> I s -> ∃ s', body x s = (s', Ok tt) ∧ R s s' ∧ Q x s') ->
  ∀ s, I s -> ∃ s', for_each xs body s = (s', Ok tt) ∧ R s s' ∧ ∀ x, x ∈ xs -> Q x s'.
Proof.
  intros Hrefl Htrans HI HQ. induction xs as [|x xs IH]; intros Hbody s Hs; simpl.
  - exists s. split; [done|]. split; [apply Hrefl|]. intros x Hx. by apply elem_of_nil in Hx.
  - destruct (Hbody x s (list_elem_of_here _ _) Hs) as (s1 & E1 & R1 & Q1).
    destruct (IH (fun y s0 Hy => Hbody y s0 (list_elem_of_further _ _ _ Hy)) s1 (HI _ _ R1 Hs))
      as (s2 & E2 & R2 & Q2).
    exists s2. split; [by rewrite (bind_Ok _ _ _ _ _ E1)|]. split; [by eapply Htrans|].
    intros y Hy. apply elem_of_cons in Hy as [->|Hy]; [by eapply HQ|by apply Q2].
Qed.

(** When no instance of the config's domain is registered under another
    id and the config's own id is free, the check for other instances of
    the domain finds none. *)
Lemma find_domain_none (s : MusicAssistant) (c : ProviderConfig) :
  (∀ k p, (k, p) ∈ _providers s -> domain p = conf_domain c -> k = conf_instance_id c) ->
  Dict.get (conf_instance_id c) (_providers s) = None ->
  find (fun x => bool_decide (domain x = conf_domain c)) (providers s) = None.
Proof.
  intros Hsole Hnone. destruct (find _ _) as [x|] eqn:Hfind; [|done]. exfalso.
  apply find_some in Hfind as [Hin Hdom]. apply bool_decide_eq_true in Hdom.
  apply list_elem_of_In in Hin. apply DictFacts.elem_of_values in Hin as (k & Hk).
  assert (k = conf_instance_id c) as -> by eauto.
  apply DictFacts.elem_of_get in Hk as [? Hk]. congruence.
Qed.

(** One round of the loading loop, when the manifest of the config is known
    and the single-instance check cannot fail: the round returns normally
    whatever the failure inside [load_provider]'s guarded part, it adds to
    the registry at most an instance of the manifest under the config's id,
    and in the second pass it leaves a loadable config registered. *)
Lemma load_configured_spec (allow : bool) (c : ProviderConfig) (m : ProviderManifest)
    (s : MusicAssistant) :
  _available_providers s !! conf_domain c = Some m ->
  (multi_instance m = true
   ∨ ∀ k p, (k, p) ∈ _providers s -> domain p = conf_domain c -> k = conf_instance_id c) ->
  setups_raise_exceptions s ->
  ∃ s', load_configured allow c s = (s', Ok tt)
        ∧ extends_registry s s'
        ∧ (∀ k p, (k, p) ∈ _providers s' ->
                  (k, p) ∈ _providers s ∨ (k = conf_instance_id c ∧ manifest p = m))
        ∧ (allow = true -> loadable s c -> is_Some (Dict.get (conf_instance_id c) (_providers s'))).
Proof.
  intros Hm Hsingle Hexn. unfold load_configured. rewrite Hm.
  destruct (truthy (depends_on m) && negb allow) eqn:Hdep.
  { exists s. split; [done|]. split; [apply extends_registry_refl|].
    split; [by left|]. intros ->. by rewrite andb_false_r in Hdep. }
  destruct (bool_decide (is_Some (Dict.get (conf_instance_id c) (_providers s)))) eqn:Hreg.
  { exists s. split; [done|]. split; [apply extends_registry_refl|].
    split; [by left|]. intros _ _. by apply bool_decide_eq_true in Hreg. }
  apply bool_decide_eq_false in Hreg.
  assert (Hnone : Dict.get (conf_instance_id c) (_providers s) = None).
  { destruct (Dict.get _ _); [|done]. exfalso. apply Hreg. by eexists. }
  pose proof (unload_provider_unregistered _ _ Hnone) as Hun.
  destruct (enabled c) eqn:Hen.
  - assert (Hex : find (fun x => bool_decide (domain x = conf_domain c)) (providers s) = None
                  ∨ multi_instance m = true).
    { destruct Hsingle as [?|Hsole]; [by right|left]. by apply find_domain_none. }
    pose proof (load_provider_registry s s c m Hun Hen Hm Hex) as Hgrown.
    destruct (load_provider_catches s s c m Hun Hen Hm Hex) as (s' & E & R & Q).
    { intros members cls e Hmod Hcls Hsetup.
      destruct (find_provider_class_elem_of _ _ _ Hcls) as (name & kind & Hin).
      by eapply Hexn. }
    rewrite E in Hgrown.
    exists s'. split; [exact E|]. split; [exact R|]. split; [exact Hgrown|].
    intros _ (_ & m' & members & cls & Hm' & Hmod & Hcls).
    assert (m' = m) as -> by congruence.
    destruct (Q members cls Hmod Hcls) as (p & Hp & _). by eexists.
  - exists s. split.
    { unfold load_provider. rewrite (bind_Ok _ _ _ _ _ Hun). by rewrite Hen. }
    split; [apply extends_registry_refl|]. split; [by left|]. intros _ (Hen' & _). congruence.
Qed.

(** C3 (as the code has it). Take manifests filed under their own domain,
    and configs each of which has a manifest and cannot fail the
    single-instance check: its manifest allows several instances, or it is
    the only config of its domain and no instance of the domain is
    registered under another id. Then the loading loop of
    [_load_providers] returns normally whatever goes wrong inside the
    guarded part of [load_provider]: a package that cannot be imported, a
    class that cannot be located, a [setup()] that raises an [Exception],
    a sync that cannot be started. Every config that is enabled and whose
    class can be located is in the registry at the end, whichever other
    configs failed before or after it. *)
Theorem load_providers_continues_past_caught_errors
    (s : MusicAssistant) (provider_configs : list ProviderConfig) :
  manifests_by_domain s ->
  (∀ c, c ∈ provider_configs ->
        ∃ m, _available_providers s !! conf_domain c = Some m
             ∧ (multi_instance m = true ∨ sole_instance s provider_configs c)) ->
  setups_raise_exceptions s ->
  ∃ s', _load_providers provider_configs s = (s', Ok tt)
        ∧ extends_registry s s'
        ∧ ∀ c, c ∈ provider_configs -> loadable s c ->
               is_Some (Dict.get (conf_instance_id c) (_providers s')).
Proof.
  intros Hfiled Hman Hexn.
  set (grown := fun a b : MusicAssistant =>
                  ∀ k p, (k, p) ∈ _providers b ->
                         (k, p) ∈ _providers a
                         ∨ ∃ c, c ∈ provider_configs ∧ k = conf_instance_id c
                                ∧ domain p = conf_domain c).
  set (R := fun a b : MusicAssistant => extends_registry a b ∧ grown a b).
  set (I := fun s0 : MusicAssistant =>
              _available_providers s0 = _available_providers s
              ∧ provider_modules s0 = provider_modules s
              ∧ grown s s0).
  assert (Hrefl : ∀ a, R a a).
  { intros a. split; [apply extends_registry_refl|]. intros k p Hin. by left. }
  assert (Htrans : ∀ a b c, R a b -> R b c -> R a c).
  { intros a b c [E1 G1] [E2 G2]. split; [by eapply extends_registry_trans|].
    intros k p Hin. destruct (G2 k p Hin) as [Hb|?]; [by apply G1|by right]. }
  assert (HI : ∀ a b, R a b -> I a -> I b).
  { intros a b [(A & Mo & _) G] (A' & Mo' & G'). split; [congruence|]. split; [congruence|].
    intros k p Hin. destruct (G k p Hin) as [Ha|?]; [by apply G'|by right]. }
  assert (Hpass : ∀ allow s0, I s0 ->
            ∃ s', for_each provider_configs (load_configured allow) s0 = (s', Ok tt)
                  ∧ R s0 s'
                  ∧ ∀ c, c ∈ provider_configs ->
                         allow = true -> loadable s c ->
                         is_Some (Dict.get (conf_instance_id c) (_providers s'))).
  { intros allow. apply (for_each_establishes I R
           (fun c s0 => allow = true -> loadable s c ->
                        is_Some (Dict.get (conf_instance_id c) (_providers s0)))).
    - exact Hrefl.
    - exact Htrans.
    - exact HI.
    - intros c a b [(_ & _ & _ & K) _] Q Hal Hl. auto.
    - intros c s0 Hc (A0 & M0 & G0). destruct (Hman c Hc) as (m & Hm & Hcase).
      destruct (load_configured_spec allow c m s0) as (s' & E & Ext & G & Q).
      + congruence.
      + destruct Hcase as [?|[Hreg Hcfg]]; [by left|right].
        intros k p Hin Hdom. destruct (G0 k p Hin) as [Hin0|(c' & Hc' & -> & Hd')].
        * by eapply Hreg.
        * apply Hcfg; [done|congruence].
      + unfold setups_raise_exceptions. rewrite M0. exact Hexn.
      + exists s'. split; [exact E|]. split; [split; [exact Ext|]|].
        * intros k p Hin. destruct (G k p Hin) as [?|[-> Hp]]; [by left|right].
          exists c. split; [done|]. split; [done|]. unfold domain. rewrite Hp.
          by apply Hfiled.
        * intros Hal (Hen & m' & members & cls & Hm' & Hmod & Hcls). apply Q; [done|].
          split; [done|]. exists m', members, cls. by rewrite A0, M0. }
  unfold _load_providers. simpl.
  destruct (Hpass false s) as (s1 & E1 & R1 & _).
  { split; [done|]. split; [done|]. intros k p Hin. by left. }
  destruct (Hpass true s1) as (s2 & E2 & R2 & Q2).
  { apply (HI s s1 R1). split; [done|]. split; [done|]. intros k p Hin. by left. }
  exists s2. rewrite (bind_Ok _ _ _ _ _ E1), (bind_Ok _ _ _ _ _ E2).
  split; [done|]. split; [exact (proj1 (Htrans _ _ _ R1 R2))|].
  intros c Hc Hl. by apply Q2.
Qed.

Lemma load_providers_continues_past_caught_errors_witness :
  ∃ s', _load_providers [ex_config "spotify1" "spotify"; ex_config "tidal1" "tidal";
                         ex_config "files1" "filesystem"] ex_startup
        = (s', Ok tt)
        ∧ is_Some (Dict.get "spotify1" (_providers s'))
        ∧ is_Some (Dict.get "files1" (_providers s')).
Proof.
  destruct (load_providers_continues_past_caught_errors ex_startup
              [ex_config "spotify1" "spotify"; ex_config "tidal1" "tidal";
               ex_config "files1" "filesystem"])
    as (s' & E & _ & Q).
  - intros d m Hm. unfold ex_startup in Hm. simpl in Hm.
    apply lookup_insert_Some in Hm as [[<- <-]|[_ Hm]]; [reflexivity|].
    apply lookup_insert_Some in Hm as [[<- <-]|[_ Hm]]; [reflexivity|].
    apply lookup_singleton_Some in Hm as [<- <-]. reflexivity.
  - intros c Hc. apply elem_of_cons in Hc as [->|Hc]; [|apply elem_of_cons in Hc as [->|Hc]].
    + exists (ex_manifest MUSIC "spotify" false). split; [reflexivity|]. right. split.
      * intros k p Hin. by apply elem_of_nil in Hin.
      * intros c Hc Hd. apply elem_of_cons in Hc as [->|Hc]; [reflexivity|].
        apply elem_of_cons in Hc as [->|Hc]; [discriminate Hd|].
        apply list_elem_of_singleton in Hc as ->. discriminate Hd.
    + exists (ex_manifest METADATA "tidal" true). split; [reflexivity|by left].
    + apply list_elem_of_singleton in Hc as ->.
      exists (ex_manifest MUSIC "filesystem" true). split; [reflexivity|by left].
  - intros d members name kind cls e Hmod Hin Hsetup.
    destruct e; try reflexivity. exfalso.
    unfold ex_startup in Hmod. simpl in Hmod.
    apply lookup_insert_Some in Hmod as [[_ <-]|[_ Hmod]];
      [|apply lookup_insert_Some in Hmod as [[_ <-]|[_ Hmod]];
        [|apply lookup_singleton_Some in Hmod as [_ <-]]];
      apply list_elem_of_singleton in Hin; injection Hin as _ _ ->; discriminate.
  - exists s'. split; [exact E|]. split.
    + apply (Q (ex_config "spotify1" "spotify")).
      * apply list_elem_of_here.
      * split; [reflexivity|].
        exists (ex_manifest MUSIC "spotify" false),
               [("SpotifyProvider", AClass ProviderSubclass ex_behaviour)], ex_behaviour.
        repeat split; reflexivity.
    + apply (Q (ex_config "files1" "filesystem")).
      * apply list_elem_of_further, list_elem_of_further, list_elem_of_here.
      * split; [reflexivity|].
        exists (ex_manifest MUSIC "filesystem" true),
               [("FileSystemProvider", AClass ProviderSubclass ex_behaviour)], ex_behaviour.
        repeat split; reflexivity.
Defined.

(** C3 fails as stated: the second config of the single-instance domain
    raises [SetupFailedError] before [load_provider]'s guarded part, the
    loop of [_load_providers] has no handler, and the config that follows,
    which loads well on its own, is never loaded. *)
Lemma load_providers_aborts_on_setup_failed :
  let cfgs := [ex_config "spotify1" "spotify"; ex_config "spotify2" "spotify";
               ex_config "files1" "filesystem"] in
  (_load_providers cfgs ex_startup).2
  = Raise (SetupFailedError "Provider spotify already loaded and only one instance allowed.")
  ∧ Dict.get "files1" (_providers (_load_providers cfgs ex_startup).1) = None
  ∧ is_Some (Dict.get "files1"
               (_providers (load_provider (ex_config "files1" "filesystem") ex_startup).1)).
Proof. vm_compute. repeat split; try reflexivity. by eexists. Qed.

(** The other error raised before the guard: a config whose domain has no
    manifest ends the loop with the [KeyError] of the manifest lookup. *)
Lemma load_providers_aborts_on_missing_manifest :
  let cfgs := [ex_config "sonos1" "sonos"; ex_config "files1" "filesystem"] in
  (_load_providers cfgs ex_startup).2 = Raise (KeyError "sonos")
  ∧ _providers (_load_providers cfgs ex_startup).1 = [].
Proof. vm_compute. by split. Qed.

(** ** The library database *)

(** *** [int(str(n)) = n] *)

Lemma is_digit_not_special (c : ascii) :
  is_digit c = true -> is_space c = false ∧ Ascii.eqb c "_" = false.
Proof.
  destruct c as [[] [] [] [] [] [] [] []]; intros H; try discriminate H; by split.
Qed.

Lemma string_of_uint_all_digits (d : Decimal.uint) :
  all_digits (NilEmpty.string_of_uint d) = true.
Proof. induction d; simpl; done. Qed.

Lemma lstrip_all_digits (s : string) : all_digits s = true -> lstrip s = s.
Proof.
  destruct s as [|c r]; [done|]. simpl. intros H. apply andb_true_iff in H as [Hc _].
  by destruct (is_digit_not_special c Hc) as [-> _].
Qed.

Lemma rstrip_all_digits (s : string) : all_digits s = true -> rstrip s = s.
Proof.
  induction s as [|c r IH]; [done|]. simpl. intros H. apply andb_true_iff in H as [Hc Hr].
  rewrite (IH Hr). destruct (is_digit_not_special c Hc) as [-> _]. by destruct r.
Qed.

Lemma remove_underscores_all_digits (s : string) :
  all_digits s = true -> remove_underscores s = s.
Proof.
  induction s as [|c r IH]; [done|]. simpl. intros H. apply andb_true_iff in H as [Hc Hr].
  destruct (is_digit_not_special c Hc) as [_ ->]. by rewrite (IH Hr).
Qed.

Lemma underscores_ok_all_digits (s : string) :
  all_digits s = true -> underscores_ok true s = true.
Proof.
  induction s as [|c r IH]; [done|]. simpl. intros H. apply andb_true_iff in H as [Hc Hr].
  destruct (is_digit_not_special c Hc) as [_ ->]. by apply IH.
Qed.

Lemma py_digits_string_of_uint (d : Decimal.uint) :
  d ≠ Decimal.Nil ->
  py_digits (NilEmpty.string_of_uint d) = Some (Z.of_uint d).
Proof.
  intros Hd. pose proof (string_of_uint_all_digits d) as Hall. unfold py_digits.
  assert (Hok : underscores_ok false (NilEmpty.string_of_uint d) = true).
  { destruct (NilEmpty.string_of_uint d) as [|c r] eqn:E.
    - destruct d; simpl in E; done.
    - simpl in *. apply andb_true_iff in Hall as [Hc Hr].
      destruct (is_digit_not_special c Hc) as [_ ->]. by apply underscores_ok_all_digits. }
  rewrite Hok, (remove_underscores_all_digits _ Hall).
  replace (NilEmpty.string_of_uint d) with (NilZero.string_of_uint d) by (by destruct d).
  by rewrite (NilZero.usu d Hd).
Qed.

Lemma strip_string_of_uint (d : Decimal.uint) :
  strip (NilEmpty.string_of_uint d) = NilEmpty.string_of_uint d.
Proof.
  unfold strip. pose proof (string_of_uint_all_digits d) as Hall.
  by rewrite (lstrip_all_digits _ Hall), (rstrip_all_digits _ Hall).
Qed.

Lemma py_int_pos (p : positive) : py_int (py_str (Z.pos p)) = Some (Z.pos p).
Proof.
  unfold py_str. simpl.
  pose proof (DecimalPos.Unsigned.to_uint_nonnil p) as Hnil.
  replace (NilZero.string_of_uint (Pos.to_uint p))
    with (NilEmpty.string_of_uint (Pos.to_uint p)) by (by destruct (Pos.to_uint p)).
  unfold py_int. rewrite strip_string_of_uint.
  assert (Hval : py_digits (NilEmpty.string_of_uint (Pos.to_uint p)) = Some (Z.pos p)).
  { rewrite (py_digits_string_of_uint _ Hnil). f_equal.
    exact (DecimalZ.of_to (Z.pos p)). }
  destruct (Pos.to_uint p); simpl in *; done.
Qed.

Lemma py_int_neg (p : positive) : py_int (py_str (Z.neg p)) = Some (Z.neg p).
Proof.
  unfold py_str. simpl.
  pose proof (DecimalPos.Unsigned.to_uint_nonnil p) as Hnil.
  replace (NilZero.string_of_uint (Pos.to_uint p))
    with (NilEmpty.string_of_uint (Pos.to_uint p)) by (by destruct (Pos.to_uint p)).
  unfold py_int.
  assert (Hstrip : strip (String "-" (NilEmpty.string_of_uint (Pos.to_uint p)))
                   = String "-" (NilEmpty.string_of_uint (Pos.to_uint p))).
  { unfold strip. simpl.
    rewrite (rstrip_all_digits _ (string_of_uint_all_digits _)).
    destruct (Pos.to_uint p); simpl in *; done. }
  rewrite Hstrip. rewrite (py_digits_string_of_uint _ Hnil). simpl. f_equal.
  change (Z.neg p) with (- Z.pos p)%Z. f_equal. exact (DecimalZ.of_to (Z.pos p)).
Qed.

(** [int(str(n))] is [n]. *)
Lemma py_int_py_str (n : Z) : py_int (py_str n) = Some n.
Proof. destruct n; [reflexivity|apply py_int_pos|apply py_int_neg]. Qed.

(** *** Table creation, reading the version, migration *)

Lemma ensure_table_lookup (db : Database) (t t' : string) :
  ensure_table db t !! t'
  = if decide (t = t') then Some (rows_of db t') else db !! t'.
Proof.
  unfold ensure_table, rows_of. destruct (decide (t = t')) as [->|Hne].
  - destruct (db !! t') eqn:E; [by rewrite E|by rewrite lookup_insert_eq].
  - destruct (db !! t); [done|by rewrite lookup_insert_ne].
Qed.

Lemma foldl_ensure_table_lookup (ts : list string) (db : Database) (t : string) :
  foldl ensure_table db ts !! t
  = if decide (t ∈ ts) then Some (rows_of db t) else db !! t.
Proof.
  revert db. induction ts as [|t0 ts IH]; intros db.
  - destruct (decide (t ∈ [])) as [H|H]; [by apply elem_of_nil in H|done].
  - change (foldl ensure_table db (t0 :: ts)) with (foldl ensure_table (ensure_table db t0) ts).
    rewrite IH. unfold rows_of. rewrite ensure_table_lookup. unfold rows_of.
    destruct (decide (t ∈ ts)) as [Hin|Hnin];
      destruct (decide (t ∈ t0 :: ts)) as [Hin'|Hnin'];
      destruct (decide (t0 = t)) as [->|Hne]; try done.
    + exfalso. apply Hnin'. by apply list_elem_of_further.
    + exfalso. apply Hnin'. by apply list_elem_of_further.
    + apply elem_of_cons in Hin' as [?|?]; congruence.
    + exfalso. apply Hnin'. apply list_elem_of_here.
Qed.

Lemma foldl_delete_lookup (ts : list string) (db : Database) (t : string) :
  foldl (fun d t0 => delete t0 d) db ts !! t
  = if decide (t ∈ ts) then None else db !! t.
Proof.
  revert db. induction ts as [|t0 ts IH]; intros db.
  - destruct (decide (t ∈ [])) as [H|H]; [by apply elem_of_nil in H|done].
  - change (foldl (fun d t1 => delete t1 d) db (t0 :: ts))
      with (foldl (fun d t1 => delete t1 d) (delete t0 db) ts).
    rewrite IH.
    destruct (decide (t ∈ ts)) as [Hin|Hnin];
      destruct (decide (t ∈ t0 :: ts)) as [Hin'|Hnin'];
      destruct (decide (t0 = t)) as [->|Hne]; try done.
    + exfalso. apply Hnin'. by apply list_elem_of_further.
    + exfalso. apply Hnin'. by apply list_elem_of_further.
    + by rewrite lookup_delete_eq.
    + apply elem_of_cons in Hin' as [?|?]; congruence.
    + exfalso. apply Hnin'. apply list_elem_of_here.
    + by rewrite lookup_delete_ne.
Qed.

Lemma create_database_tables_eq (db : Database) :
  __create_database_tables db = (foldl ensure_table db all_tables, Ok tt).
Proof. reflexivity. Qed.

Lemma drop_media_tables_eq (db : Database) :
  for_each media_tables drop_table_if_exists db
  = (foldl (fun d t0 => delete t0 d) db media_tables, Ok tt).
Proof. reflexivity. Qed.

Lemma read_prev_version_eq (db : Database) (settings : list Row) :
  db !! DB_TABLE_SETTINGS = Some settings ->
  read_prev_version db = (db, Ok (version_of settings)).
Proof.
  intros H. unfold read_prev_version, try_except, bind, get_row, version_of. rewrite H.
  destruct (find _ settings) as [row|]; [|done].
  destruct (row !! "value") as [value|]; [|done].
  by destruct (py_int value).
Qed.

Lemma insert_version_row_eq (SCHEMA_VERSION : Z) (db : Database) (settings : list Row) :
  db !! DB_TABLE_SETTINGS = Some settings ->
  insert_or_replace DB_TABLE_SETTINGS "key" (version_row SCHEMA_VERSION) db
  = (<[DB_TABLE_SETTINGS :=
         List.filter (fun row => negb (bool_decide (row !! "key" = Some "version"))) settings
         ++ [version_row SCHEMA_VERSION]]> db, Ok tt).
Proof.
  intros H. unfold insert_or_replace. rewrite H.
  assert (Hkey : version_row SCHEMA_VERSION !! "key" = Some "version")
    by (unfold version_row; by rewrite lookup_insert_eq).
  by rewrite Hkey.
Qed.

Lemma row_matches_version (row : Row) :
  row_matches [("key", "version")] row = bool_decide (row !! "key" = Some "version").
Proof. unfold row_matches. simpl. by rewrite andb_true_r. Qed.

Lemma version_of_other_settings (SCHEMA_VERSION : Z) (settings : list Row) :
  version_of
    (List.filter (fun row => negb (bool_decide (row !! "key" = Some "version"))) settings
     ++ [version_row SCHEMA_VERSION])
  = SCHEMA_VERSION.
Proof.
  unfold version_of.
  assert (Hkey : version_row SCHEMA_VERSION !! "key" = Some "version")
    by (unfold version_row; by rewrite lookup_insert_eq).
  assert (Hval : version_row SCHEMA_VERSION !! "value" = Some (py_str SCHEMA_VERSION)).
  { unfold version_row. rewrite lookup_insert_ne by done. by rewrite lookup_insert_eq. }
  assert (Hfind : find (row_matches [("key", "version")])
                    (List.filter (fun row => negb (bool_decide (row !! "key" = Some "version")))
                                 settings ++ [version_row SCHEMA_VERSION])
                  = Some (version_row SCHEMA_VERSION)).
  { induction settings as [|row settings IH].
    - cbn [List.filter app find]. rewrite row_matches_version, Hkey.
      by rewrite bool_decide_eq_true_2.
    - cbn [List.filter]. destruct (bool_decide (row !! "key" = Some "version")) eqn:E;
        cbn [negb]; [exact IH|].
      cbn [app find]. rewrite row_matches_version, E. exact IH. }
  rewrite Hfind, Hval. by rewrite py_int_py_str.
Qed.

Lemma filter_other_settings (SCHEMA_VERSION : Z) (settings : list Row) :
  List.filter (fun row => negb (bool_decide (row !! "key" = Some "version")))
    (List.filter (fun row => negb (bool_decide (row !! "key" = Some "version"))) settings
     ++ [version_row SCHEMA_VERSION])
  = List.filter (fun row => negb (bool_decide (row !! "key" = Some "version"))) settings.
Proof.
  assert (Hkey : version_row SCHEMA_VERSION !! "key" = Some "version")
    by (unfold version_row; by rewrite lookup_insert_eq).
  rewrite List.filter_app. cbn [List.filter].
  rewrite Hkey, bool_decide_eq_true_2 by done. cbn [negb]. rewrite app_nil_r.
  induction settings as [|row settings IH]; [done|]. cbn [List.filter].
  destruct (bool_decide (row !! "key" = Some "version")) eqn:E; cbn [negb]; [exact IH|].
  cbn [List.filter]. rewrite E. cbn [negb]. by rewrite IH.
Qed.

Lemma elem_of_all_tables (t : string) :
  t ∈ all_tables <-> t = DB_TABLE_SETTINGS ∨ t ∈ kept_tables ∨ t ∈ media_tables.
Proof.
  unfold all_tables, kept_tables, media_tables. rewrite !elem_of_cons, !elem_of_nil. tauto.
Qed.

Lemma settings_not_media : DB_TABLE_SETTINGS ∉ media_tables.
Proof.
  unfold media_tables. rewrite !elem_of_cons, elem_of_nil.
  intros [?|[?|[?|[?|[?|[]]]]]]; discriminate.
Qed.

Lemma kept_not_media (t : string) : t ∈ kept_tables -> t ∉ media_tables.
Proof.
  unfold kept_tables, media_tables. rewrite !elem_of_cons, !elem_of_nil.
  intros [->|[->|[->|[]]]] [?|[?|[?|[?|[?|[]]]]]]; discriminate.
Qed.

Lemma settings_not_kept : DB_TABLE_SETTINGS ∉ kept_tables.
Proof.
  unfold kept_tables. rewrite !elem_of_cons, elem_of_nil.
  intros [?|[?|[?|[]]]]; discriminate.
Qed.

(** When every table exists, creating the tables changes nothing. *)
Lemma foldl_ensure_table_id (ts : list string) (db : Database) :
  (∀ t, t ∈ ts -> is_Some (db !! t)) -> foldl ensure_table db ts = db.
Proof.
  induction ts as [|t ts IH]; intros H; simpl; [done|].
  assert (E : ensure_table db t = db).
  { unfold ensure_table. destruct (H t (list_elem_of_here _ _)) as [rows ->]. done. }
  rewrite E. apply IH. intros t' Ht'. by apply H, list_elem_of_further.
Qed.

(** [_setup_database] always returns, and this is the database it leaves,
    table by table. *)
Lemma setup_database_spec (SCHEMA_VERSION : Z) (db : Database) :
  ∃ db', _setup_database SCHEMA_VERSION db = (db', Ok tt)
         ∧ ∀ t, db' !! t
                = if decide (t = DB_TABLE_SETTINGS)
                  then Some (other_settings db ++ [version_row SCHEMA_VERSION])
                  else if decide (t ∈ media_tables)
                  then Some (if decide (stored_version db ≠ 0 ∧ stored_version db < SCHEMA_VERSION)%Z
                             then [] else rows_of db t)
                  else if decide (t ∈ kept_tables) then Some (rows_of db t)
                  else db !! t.
Proof.
  pose proof (create_database_tables_eq db) as Hcreate.
  remember (foldl ensure_table db all_tables) as db1 eqn:Hdb1.
  assert (Hall : ∀ t, db1 !! t = if decide (t ∈ all_tables) then Some (rows_of db t) else db !! t)
    by (intros t; rewrite Hdb1; apply foldl_ensure_table_lookup).
  clear Hdb1.
  assert (Hset1 : db1 !! DB_TABLE_SETTINGS = Some (rows_of db DB_TABLE_SETTINGS)).
  { rewrite Hall. apply decide_True. apply elem_of_all_tables. by left. }
  pose proof (read_prev_version_eq db1 _ Hset1) as Hread.
  change (version_of (rows_of db DB_TABLE_SETTINGS)) with (stored_version db) in Hread.
  remember (stored_version db) as prev eqn:Hprev.
  assert (Hmid : ∃ db2,
            (if negb (bool_decide (prev = 0%Z ∨ prev = SCHEMA_VERSION))
             then
               if (prev <? SCHEMA_VERSION)%Z
               then for_each media_tables drop_table_if_exists >> __create_database_tables
               else ret tt
             else ret tt) db1 = (db2, Ok tt)
            ∧ ∀ t, db2 !! t
                   = if decide (t ∈ all_tables)
                     then Some (if decide (prev ≠ 0 ∧ prev < SCHEMA_VERSION)%Z
                                then (if decide (t ∈ media_tables) then [] else rows_of db t)
                                else rows_of db t)
                     else db !! t).
  { destruct (decide (prev ≠ 0 ∧ prev < SCHEMA_VERSION)%Z) as [Hmig|Hmig].
    - rewrite bool_decide_eq_false_2 by lia. cbn [negb].
      destruct (Z.ltb_spec prev SCHEMA_VERSION) as [_|?]; [|lia].
      rewrite (bind_Ok _ _ _ _ _ (drop_media_tables_eq db1)).
      eexists. split; [apply create_database_tables_eq|].
      intros t. rewrite foldl_ensure_table_lookup. unfold rows_of at 1.
      rewrite !foldl_delete_lookup, Hall.
      destruct (decide (t ∈ all_tables)) as [Ha|Ha].
      + by destruct (decide (t ∈ media_tables)).
      + destruct (decide (t ∈ media_tables)) as [Hm|Hm]; [|done].
        exfalso. apply Ha, elem_of_all_tables. auto.
    - exists db1. split; [|exact Hall].
      destruct (bool_decide_reflect (prev = 0%Z ∨ prev = SCHEMA_VERSION)) as [Hv|Hv];
        cbn [negb]; [done|].
      destruct (Z.ltb_spec prev SCHEMA_VERSION) as [?|_]; [lia|done]. }
  destruct Hmid as (db2 & Hmid & H2).
  assert (Hset2 : db2 !! DB_TABLE_SETTINGS = Some (rows_of db DB_TABLE_SETTINGS)).
  { rewrite H2, decide_True by (apply elem_of_all_tables; by left).
    rewrite (decide_False (P := DB_TABLE_SETTINGS ∈ media_tables)) by apply settings_not_media.
    by destruct (decide _). }
  pose proof (insert_version_row_eq SCHEMA_VERSION db2 _ Hset2) as Hins.
  eexists. split.
  { unfold _setup_database.
    rewrite (bind_Ok _ _ _ _ _ Hcreate).
    rewrite (bind_Ok _ _ _ _ _ Hread).
    rewrite (bind_Ok _ _ _ _ _ Hmid).
    rewrite (bind_Ok _ _ _ _ _ Hins).
    unfold execute_no_data_change, ret. reflexivity. }
  intros t. destruct (decide (t = DB_TABLE_SETTINGS)) as [->|Hns].
  - by rewrite lookup_insert_eq.
  - rewrite lookup_insert_ne by done. rewrite H2.
    destruct (decide (t ∈ media_tables)) as [Hm|Hm].
    + rewrite decide_True by (apply elem_of_all_tables; auto).
      by destruct (decide _).
    + destruct (decide (t ∈ kept_tables)) as [Hk|Hk].
      * rewrite decide_True by (apply elem_of_all_tables; auto). by destruct (decide _).
      * rewrite decide_False; [done|]. rewrite elem_of_all_tables. tauto.
Qed.

(** C5 (as the code has it). On every start of the store
    [_setup_database] returns normally. It empties (drops and recreates)
    the five type-specific tables exactly when the stored version is
    nonzero and lower than [SCHEMA_VERSION]; a stored version that is
    higher, although nonzero and different, leaves them as they are. The
    track-loudness, play-log and provider-mapping tables keep their rows,
    the settings table keeps every row but the version row, and the stored
    version afterwards is [SCHEMA_VERSION]. Starting the store again right
    after changes nothing at all. *)
Theorem setup_database_migrates_older_versions (SCHEMA_VERSION : Z) (db : Database) :
  ∃ db', _setup_database SCHEMA_VERSION db = (db', Ok tt)
         ∧ (∀ t, t ∈ media_tables ->
                 db' !! t
                 = Some (if decide (stored_version db ≠ 0 ∧ stored_version db < SCHEMA_VERSION)%Z
                         then [] else rows_of db t))
         ∧ (∀ t, t ∈ kept_tables -> db' !! t = Some (rows_of db t))
         ∧ db' !! DB_TABLE_SETTINGS = Some (other_settings db ++ [version_row SCHEMA_VERSION])
         ∧ stored_version db' = SCHEMA_VERSION
         ∧ _setup_database SCHEMA_VERSION db' = (db', Ok tt).
Proof.
  destruct (setup_database_spec SCHEMA_VERSION db) as (db' & E & L).
  assert (Hset : db' !! DB_TABLE_SETTINGS
                 = Some (other_settings db ++ [version_row SCHEMA_VERSION])).
  { by rewrite L, decide_True. }
  assert (Hver : stored_version db' = SCHEMA_VERSION).
  { unfold stored_version. rewrite Hset. apply version_of_other_settings. }
  exists db'. split; [exact E|]. split; [|split; [|split; [exact Hset|split; [exact Hver|]]]].
  - intros t Ht. rewrite L.
    rewrite decide_False by (intros ->; by apply settings_not_media in Ht).
    by rewrite decide_True.
  - intros t Ht. rewrite L.
    rewrite decide_False by (intros ->; by apply settings_not_kept in Ht).
    rewrite decide_False by (by apply kept_not_media). by rewrite decide_True.
  - destruct (setup_database_spec SCHEMA_VERSION db') as (db'' & E' & L').
    rewrite E'. f_equal. apply map_eq. intros t. rewrite L'.
    destruct (decide (t = DB_TABLE_SETTINGS)) as [->|Hns].
    + rewrite Hset. f_equal. f_equal. unfold other_settings, rows_of at 1. rewrite Hset.
      apply filter_other_settings.
    + destruct (decide (t ∈ media_tables)) as [Hm|Hm].
      * rewrite decide_False by (rewrite Hver; lia).
        unfold rows_of at 1. rewrite L, decide_False, decide_True by done. done.
      * destruct (decide (t ∈ kept_tables)) as [Hk|Hk]; [|done].
        unfold rows_of at 1. rewrite L, decide_False, decide_False, decide_True by done. done.
Qed.

(** C5 fails as stated. The store was written under schema version [7]; it
    is started by a server whose [SCHEMA_VERSION] is [5]. The stored
    version differs from the expected one and is nonzero, but the guard
    [prev_version < SCHEMA_VERSION] is false: the tracks table is neither
    dropped nor emptied, only the stored version is rewritten. *)
Lemma setup_database_keeps_tables_of_newer_version :
  stored_version ex_db_v7 = 7%Z
  ∧ stored_version ex_db_v7 ≠ 5%Z
  ∧ stored_version ex_db_v7 ≠ 0%Z
  ∧ (_setup_database 5 ex_db_v7).2 = Ok tt
  ∧ (_setup_database 5 ex_db_v7).1 !! DB_TABLE_TRACKS = Some [ex_row "name" "Song"]
  ∧ (_setup_database 5 ex_db_v7).1 !! DB_TABLE_TRACKS ≠ Some []
  ∧ stored_version (_setup_database 5 ex_db_v7).1 = 5%Z.
Proof.
  assert (Hv : stored_version ex_db_v7 = 7%Z) by (vm_compute; reflexivity).
  assert (Ht : (_setup_database 5 ex_db_v7).1 !! DB_TABLE_TRACKS = Some [ex_row "name" "Song"])
    by (vm_compute; reflexivity).
  split; [exact Hv|]. split; [rewrite Hv; lia|]. split; [rewrite Hv; lia|].
  split; [vm_compute; reflexivity|]. split; [exact Ht|].
  split; [rewrite Ht; discriminate|]. vm_compute; reflexivity.
Qed.

(** ** Filesystem sync *)

Lemma supported_ext (item : FileSystemItem) :
  supported item = true ->
  ∃ e, ext item = Some e ∧ (e ∈ TRACK_EXTENSIONS ∨ e ∈ PLAYLIST_EXTENSIONS).
Proof.
  unfold supported. destruct (ext item) as [[|c e]|]; try discriminate.
  intros H%bool_decide_eq_true. exists (String c e). split; [done|].
  unfold SUPPORTED_EXTENSIONS in H. by apply elem_of_app in H.
Qed.

(** The [try] block of the walk loop together with its [except] clause,
    for a supported item and parsers that raise ordinary exceptions only:
    it always ends normally, records the item's checksum, and makes the
    calls of [calls_for_item]. *)
Lemma sync_item_spec (ps : Parsers) (prev : Checksums) (item : FileSystemItem) (st : SyncState) :
  supported item = true ->
  raise_only_exceptions ps ->
  ∃ st' flow,
    try_except (sync_item ps prev item) is_Exception (fun _ => ret FallThrough) st
    = (st', Ok flow)
    ∧ cache st' = cache st
    ∧ save_checksum_interval st' = save_checksum_interval st
    ∧ sync_calls st' = sync_calls st ++ calls_for_item ps prev item
    ∧ cur_checksums st' = <[path item := checksum item]> (cur_checksums st).
Proof.
  intros Hs Hps. destruct (supported_ext item Hs) as (e & He & Hte).
  unfold calls_for_item, changed, known, is_track. rewrite Hs, He. cbn [andb].
  unfold try_except, sync_item. rewrite He.
  unfold bind, set_cur_checksum, sync_call, modify, ret, lift_outcome, raise.
  destruct (decide (Some (checksum item) = prev !! path item)) as [Heq|Hne].
  { rewrite (bool_decide_eq_true_2 (prev !! path item = Some (checksum item))) by done.
    cbn [negb].
    eexists _, _. split; [reflexivity|]. cbn. by rewrite app_nil_r. }
  rewrite (bool_decide_eq_false_2 (prev !! path item = Some (checksum item))) by done.
  cbn [negb].
  destruct (decide (e ∈ TRACK_EXTENSIONS)) as [Ht|Ht].
  - rewrite (bool_decide_eq_true_2 (e ∈ TRACK_EXTENSIONS)) by done.
    destruct (get_track ps (path item)) as [track|err] eqn:Hp.
    + eexists _, _. split; [reflexivity|]. cbn. by rewrite <- app_assoc.
    + rewrite (Hps (path item) err) by auto.
      eexists _, _. split; [reflexivity|]. done.
  - rewrite (bool_decide_eq_false_2 (e ∈ TRACK_EXTENSIONS)) by done.
    destruct (decide (e ∈ PLAYLIST_EXTENSIONS)) as [Hpl|Hpl]; [|by destruct Hte].
    destruct (get_playlist ps (path item)) as [playlist|err] eqn:Hp.
    + eexists _, _. split; [reflexivity|]. cbn. by rewrite <- app_assoc.
    + rewrite (Hps (path item) err) by auto.
      eexists _, _. split; [reflexivity|]. done.
Qed.

(** One turn of the walk loop. The cache changes at the checksum key
    only, by the periodic save. *)
Lemma walk_step_spec (ps : Parsers) (key : string) (V : Z) (prev : Checksums)
    (item : FileSystemItem) (st : SyncState) :
  raise_only_exceptions ps ->
  ∃ st', walk_step ps key V prev item st = (st', Ok tt)
         ∧ sync_calls st' = sync_calls st ++ calls_for_item ps prev item
         ∧ cur_checksums st' = record_item (cur_checksums st) item
         ∧ ∀ x, <[key := x]> (cache st') = <[key := x]> (cache st).
Proof.
  intros Hps. unfold walk_step, record_item.
  destruct (supported item) eqn:Hs; cbn [negb].
  2:{ exists st. unfold calls_for_item. rewrite Hs. cbn [andb]. by rewrite app_nil_r. }
  destruct (sync_item_spec ps prev item st Hs Hps) as (st1 & flow & E1 & C1 & I1 & K1 & M1).
  rewrite (bind_Ok _ _ _ _ _ E1). destruct flow.
  - rewrite (bind_Ok _ _ st1 st1 (save_checksum_interval st1)) by done.
    destruct (decide (save_checksum_interval st1 = 100)) as [Hn|Hn].
    + eexists. split; [reflexivity|]. cbn. repeat split; try done.
      intros x. unfold cache_set. by rewrite insert_insert_eq, C1.
    + eexists. split; [reflexivity|]. cbn. repeat split; try done.
      intros x. by rewrite C1.
  - exists st1. repeat split; try done. intros x. by rewrite C1.
Qed.

(** The walk loop as a whole. *)
Lemma walk_loop_spec (ps : Parsers) (key : string) (V : Z) (prev : Checksums)
    (walk : list FileSystemItem) (st : SyncState) :
  raise_only_exceptions ps ->
  ∃ st', for_each walk (walk_step ps key V prev) st = (st', Ok tt)
         ∧ sync_calls st' = sync_calls st ++ flat_map (calls_for_item ps prev) walk
         ∧ cur_checksums st' = foldl record_item (cur_checksums st) walk
         ∧ ∀ x, <[key := x]> (cache st') = <[key := x]> (cache st).
Proof.
  intros Hps. revert st. induction walk as [|item walk IH]; intros st.
  - exists st. cbn. by rewrite app_nil_r.
  - destruct (walk_step_spec ps key V prev item st Hps) as (st1 & E1 & K1 & M1 & C1).
    destruct (IH st1) as (st2 & E2 & K2 & M2 & C2).
    exists st2. split; [|split; [|split]].
    + change (for_each (item :: walk) (walk_step ps key V prev))
        with (walk_step ps key V prev item >> for_each walk (walk_step ps key V prev)).
      by rewrite (bind_Ok _ _ _ _ _ E1).
    + rewrite K2, K1. cbn [flat_map]. by rewrite app_assoc.
    + by rewrite M2, M1.
    + intros x. by rewrite C2, C1.
Qed.

Lemma elem_of_flat_map {A B : Type} (f : A -> list B) (l : list A) (y : B) :
  y ∈ flat_map f l <-> ∃ x, x ∈ l ∧ y ∈ f x.
Proof.
  induction l as [|a l IH]; cbn [flat_map].
  - split; [by intros ?%elem_of_nil|]. by intros (x & ?%elem_of_nil & _).
  - rewrite elem_of_app, IH. split.
    + intros [Hy|(x & Hx & Hy)].
      * exists a. split; [apply list_elem_of_here|done].
      * exists x. split; [by apply list_elem_of_further|done].
    + intros (x & [->|Hx]%elem_of_cons & Hy); [by left|right; eauto].
Qed.

(** An item accounts for a parser call on a path exactly when it is a
    supported item of that path whose checksum is not the recorded one. *)
Lemma parser_call_for_item (ps : Parsers) (prev : Checksums) (item : FileSystemItem) (p : string) :
  GetTrack p ∈ calls_for_item ps prev item ∨ GetPlaylist p ∈ calls_for_item ps prev item
  <-> supported item = true ∧ path item = p ∧ prev !! p ≠ Some (checksum item).
Proof.
  unfold calls_for_item, changed.
  destruct (supported item); cbn [andb].
  2:{ split; [intros [H|H]; by apply elem_of_nil in H|intros (? & _); discriminate]. }
  destruct (bool_decide_reflect (prev !! path item = Some (checksum item))) as [Heq|Hne];
    cbn [negb].
  { split; [intros [H|H]; by apply elem_of_nil in H|]. by intros (_ & <- & H). }
  destruct (is_track item).
  - split.
    + intros [Hc|Hc]; apply elem_of_cons in Hc as [Hc|Hc]; try discriminate Hc.
      * injection Hc as ->. by repeat split.
      * destruct (get_track ps (path item));
          [apply list_elem_of_singleton in Hc; discriminate Hc|by apply elem_of_nil in Hc].
      * destruct (get_track ps (path item));
          [apply list_elem_of_singleton in Hc; discriminate Hc|by apply elem_of_nil in Hc].
    + intros (_ & <- & _). left. apply list_elem_of_here.
  - split.
    + intros [Hc|Hc]; apply elem_of_cons in Hc as [Hc|Hc]; try discriminate Hc.
      * destruct (get_playlist ps (path item));
          [apply list_elem_of_singleton in Hc; discriminate Hc|by apply elem_of_nil in Hc].
      * injection Hc as ->. by repeat split.
      * destruct (get_playlist ps (path item));
          [apply list_elem_of_singleton in Hc; discriminate Hc|by apply elem_of_nil in Hc].
    + intros (_ & <- & _). right. apply list_elem_of_here.
Qed.

(** The result of a run, for parsers that fail with ordinary exceptions
    only: the walk loop and the final save always complete, and the run
    ends as the processing of the deleted paths ends. *)
Lemma sync_library_run (ps : Parsers) (instance_id' : string) (SCHEMA_VERSION : Z)
    (walk : list FileSystemItem) (cache0 : Cache) :
  raise_only_exceptions ps ->
  ∃ st o,
    sync_library ps instance_id' SCHEMA_VERSION walk cache0 = (st, o)
    ∧ (o = Ok tt
       <-> ∀ p, p ∈ dom (prev_checksums_of cache0 instance_id' SCHEMA_VERSION)
                    ∖ dom (walk_checksums walk) -> is_Some (after_last_dot p))
    ∧ (o = Ok tt ∨ o = Raise (ValueError "not enough values to unpack (expected 2, got 1)"))
    ∧ sync_calls st
      = flat_map (calls_for_item ps (prev_checksums_of cache0 instance_id' SCHEMA_VERSION)) walk
        ++ [ProcessDeletions (dom (prev_checksums_of cache0 instance_id' SCHEMA_VERSION)
                              ∖ dom (walk_checksums walk))]
    ∧ cache st
      = <[checksums_key instance_id' := (SCHEMA_VERSION, walk_checksums walk)]> cache0.
Proof.
  intros Hps.
  set (prev := prev_checksums_of cache0 instance_id' SCHEMA_VERSION).
  set (key := checksums_key instance_id').
  set (st0 := {| cache := cache0; sync_calls := []; cur_checksums := ∅;
                 save_checksum_interval := 0 |}).
  destruct (walk_loop_spec ps key SCHEMA_VERSION prev walk st0 Hps) as (st1 & E1 & K1 & M1 & C1).
  change (cur_checksums st0) with (∅ : Checksums) in M1.
  change (foldl record_item ∅ walk) with (walk_checksums walk) in M1.
  change (sync_calls st0) with (@nil SyncCall) in K1. rewrite app_nil_l in K1.
  change (cache st0) with cache0 in C1.
  set (D := dom prev ∖ dom (walk_checksums walk)).
  exists {| cache := cache_set key (cur_checksums st1) SCHEMA_VERSION (cache st1);
            sync_calls := sync_calls st1 ++ [ProcessDeletions D];
            cur_checksums := cur_checksums st1;
            save_checksum_interval := save_checksum_interval st1 |}.
  exists (if decide (set_Forall (fun p => is_Some (after_last_dot p)) D)
          then Ok tt
          else Raise (ValueError "not enough values to unpack (expected 2, got 1)")).
  split.
  { unfold sync_library. fold key. fold (prev_checksums_of cache0 instance_id' SCHEMA_VERSION).
    fold prev. fold st0. rewrite (bind_Ok _ _ _ _ _ E1).
    subst D prev key. unfold prev_checksums_of, checksums_key, await_process_deletions.
    unfold bind, save_checksums, modify, gets, sync_call.
    cbn [cur_checksums cache sync_calls save_checksum_interval]. rewrite M1.
    by case_decide. }
  cbn [sync_calls cache]. split; [|split; [|split]].
  - destruct (decide (set_Forall (fun p => is_Some (after_last_dot p)) D)) as [Hall|Hn].
    + split; [intros _; exact Hall|done].
    + split; [done|]. intros Hall. by destruct Hn.
  - destruct (decide (set_Forall (fun p => is_Some (after_last_dot p)) D)); [by left|by right].
  - by rewrite K1.
  - unfold cache_set. by rewrite C1, M1.
Qed.

(** C4 (as the code has it). With parsers that fail with ordinary
    exceptions only, the walk loop of [sync_library] and the final save of
    the checksums complete, for every cache and every walk. The calls made
    are, item by item in walk order, those of [calls_for_item], followed
    by the processing of the deleted paths. So a path is parsed exactly
    when the walk has a supported item of that path whose checksum is not
    the recorded one; a changed track whose parser returns is upserted
    with [overwrite_existing] set exactly when its path was recorded
    before; a changed playlist whose parser returns is upserted with the
    item's checksum and the in-library mark, and without an
    [overwrite_existing] argument; an item whose parser raises is not
    upserted. The checksum map persisted in the end, under the instance's
    key and the schema version, is the map from the walk's supported paths
    to their checksums, whether or not the parsers succeeded, and no other
    cache entry changes. The run returns normally exactly when every path
    handed to [_process_deletions] (recorded before, no longer a supported
    path of the walk) has a dot in it; otherwise it ends, after all of the
    above, with the [ValueError] of the unpacking in
    [_process_deletions]. *)
Theorem sync_library_reparses_changed_items
    (ps : Parsers) (instance_id' : string) (SCHEMA_VERSION : Z)
    (walk : list FileSystemItem) (cache0 : Cache) :
  raise_only_exceptions ps ->
  ∃ st o,
    sync_library ps instance_id' SCHEMA_VERSION walk cache0 = (st, o)
    ∧ (o = Ok tt
       <-> ∀ p, p ∈ dom (prev_checksums_of cache0 instance_id' SCHEMA_VERSION)
                    ∖ dom (walk_checksums walk) -> is_Some (after_last_dot p))
    ∧ (o = Ok tt ∨ o = Raise (ValueError "not enough values to unpack (expected 2, got 1)"))
    ∧ sync_calls st
      = flat_map (calls_for_item ps (prev_checksums_of cache0 instance_id' SCHEMA_VERSION)) walk
        ++ [ProcessDeletions (dom (prev_checksums_of cache0 instance_id' SCHEMA_VERSION)
                              ∖ dom (walk_checksums walk))]
    ∧ (∀ p, GetTrack p ∈ sync_calls st ∨ GetPlaylist p ∈ sync_calls st
            <-> ∃ item, item ∈ walk ∧ supported item = true ∧ path item = p
                        ∧ prev_checksums_of cache0 instance_id' SCHEMA_VERSION !! p
                          ≠ Some (checksum item))
    ∧ (∀ item track,
         item ∈ walk -> supported item = true -> is_track item = true ->
         changed (prev_checksums_of cache0 instance_id' SCHEMA_VERSION) item = true ->
         get_track ps (path item) = Ok track ->
         TracksAddDbItem track (known (prev_checksums_of cache0 instance_id' SCHEMA_VERSION) item)
         ∈ sync_calls st)
    ∧ (∀ item playlist,
         item ∈ walk -> supported item = true -> is_track item = false ->
         changed (prev_checksums_of cache0 instance_id' SCHEMA_VERSION) item = true ->
         get_playlist ps (path item) = Ok playlist ->
         PlaylistsAddDbItem (stamped item playlist) ∈ sync_calls st)
    ∧ cache_get (cache st) (checksums_key instance_id') SCHEMA_VERSION
      = Some (walk_checksums walk)
    ∧ (∀ k, k ≠ checksums_key instance_id' -> cache st !! k = cache0 !! k).
Proof.
  intros Hps.
  destruct (sync_library_run ps instance_id' SCHEMA_VERSION walk cache0 Hps)
    as (st & o & E & Hok & Hval & K & C).
  set (prev := prev_checksums_of cache0 instance_id' SCHEMA_VERSION) in *.
  exists st, o. split; [exact E|]. split; [exact Hok|]. split; [exact Hval|].
  split; [exact K|]. rewrite K, C. split; [|split; [|split; [|split]]].
  - intros p. rewrite !elem_of_app, !list_elem_of_singleton, !elem_of_flat_map. split.
    + intros [[(item & Hin & Hc)|?]|[(item & Hin & Hc)|?]]; try discriminate.
      * exists item. split; [done|]. apply (parser_call_for_item ps prev item p). by left.
      * exists item. split; [done|]. apply (parser_call_for_item ps prev item p). by right.
    + intros (item & Hin & Hitem).
      apply (parser_call_for_item ps prev item p) in Hitem as [Hc|Hc].
      * left. left. by exists item.
      * right. left. by exists item.
  - intros item track Hin Hs Ht Hch Hp. apply elem_of_app. left.
    apply elem_of_flat_map. exists item. split; [done|].
    unfold calls_for_item. rewrite Hs, Hch, Ht, Hp. cbn [andb].
    apply list_elem_of_further, list_elem_of_here.
  - intros item playlist Hin Hs Ht Hch Hp. apply elem_of_app. left.
    apply elem_of_flat_map. exists item. split; [done|].
    unfold calls_for_item. rewrite Hs, Hch, Ht, Hp. cbn [andb].
    apply list_elem_of_further, list_elem_of_here.
  - unfold cache_get. rewrite lookup_insert_eq. by rewrite decide_True.
  - intros k Hk. by rewrite lookup_insert_ne.
Qed.

Lemma sync_library_reparses_changed_items_witness :
  raise_only_exceptions ex_parsers
  ∧ ∃ st,
      sync_library ex_parsers "files1" 18 ex_walk ex_prior = (st, Ok tt)
      ∧ cache_get (cache st) (checksums_key "files1") 18 = Some (walk_checksums ex_walk).
Proof.
  assert (Hps : raise_only_exceptions ex_parsers) by (intros p e [H|H]; discriminate H).
  split; [exact Hps|].
  destruct (sync_library_reparses_changed_items ex_parsers "files1" 18 ex_walk ex_prior Hps)
    as (st & o & E & Hok & _ & _ & _ & _ & _ & Hc & _).
  exists st. split; [|exact Hc]. rewrite E. f_equal. apply Hok.
  intros p Hp. apply elem_of_difference in Hp as [Hp Hn]. exfalso. apply Hn.
  apply elem_of_dom in Hp as [c Hp]. apply elem_of_dom.
  change (prev_checksums_of ex_prior "files1" 18)
    with (<["a.mp3" := "1"]> (<["b.mp3" := "2"]> (∅ : Checksums))) in Hp.
  apply lookup_insert_Some in Hp as [[<- _]|[_ Hp]]; [by eexists|].
  apply lookup_insert_Some in Hp as [[<- _]|[_ Hp]]; [by eexists|].
  by rewrite lookup_empty in Hp.
Defined.

(** The example of the specification, evaluated: from the prior map
    [{a: 1, b: 2}] and a walk yielding [{a: 1, b: 9, c: 3}], only [b] and
    [c] are parsed and upserted, [b] overwriting what is stored and [c]
    not, and [{a: 1, b: 9, c: 3}] is persisted. *)
Lemma sync_library_resumes_from_prior_checksums :
  let r := sync_library ex_parsers "files1" 18 ex_walk ex_prior in
  r.2 = Ok tt
  ∧ sync_calls r.1
    = [GetTrack "b.mp3"; TracksAddDbItem {| track_item_id := "b.mp3" |} true;
       GetTrack "c.mp3"; TracksAddDbItem {| track_item_id := "c.mp3" |} false;
       ProcessDeletions ∅]
  ∧ cache_get (cache r.1) "files1.checksums" 18
    = Some (<["a.mp3" := "1"]> (<["b.mp3" := "9"]> (<["c.mp3" := "3"]> ∅))).
Proof. vm_compute. repeat split; reflexivity. Qed.

(** C4 fails as stated. The previous run recorded [b.mp3] and [mix.m3u];
    both have changed since, and the track file cannot be read. The track
    is parsed, [get_track] raises, the exception is caught and logged, and
    no track is upserted; its new checksum is persisted all the same, so
    the next run will skip it. The playlist, whose path was known, is
    upserted by a call that carries no [overwrite_existing] argument. *)
Lemma sync_library_does_not_upsert_unparsed_item :
  let prev := prev_checksums_of ex_prior_mix "files1" 18 in
  let r := sync_library ex_failing_parsers "files1" 18 ex_walk_mix ex_prior_mix in
  Forall (fun item => supported item = true ∧ changed prev item = true ∧ known prev item = true)
         ex_walk_mix
  ∧ r.2 = Ok tt
  ∧ sync_calls r.1
    = [GetTrack "b.mp3"; GetPlaylist "mix.m3u";
       PlaylistsAddDbItem {| playlist_item_id := "mix.m3u"; playlist_checksum := "6";
                             playlist_in_library := true |};
       ProcessDeletions ∅]
  ∧ (∀ track overwrite_existing, TracksAddDbItem track overwrite_existing ∉ sync_calls r.1)
  ∧ cache_get (cache r.1) "files1.checksums" 18
    = Some (<["b.mp3" := "9"]> (<["mix.m3u" := "6"]> ∅)).
Proof.
  assert (Hcalls : sync_calls (sync_library ex_failing_parsers "files1" 18 ex_walk_mix
                                 ex_prior_mix).1
                   = [GetTrack "b.mp3"; GetPlaylist "mix.m3u";
                      PlaylistsAddDbItem {| playlist_item_id := "mix.m3u";
                                            playlist_checksum := "6";
                                            playlist_in_library := true |};
                      ProcessDeletions ∅])
    by (vm_compute; reflexivity).
  cbv zeta. split; [|split; [|split; [|split]]].
  - repeat constructor; vm_compute; reflexivity.
  - vm_compute; reflexivity.
  - exact Hcalls.
  - intros track o. rewrite Hcalls, !elem_of_cons, elem_of_nil.
    intros [?|[?|[?|[?|[]]]]]; discriminate.
  - vm_compute; reflexivity.
Qed.

(** A run that ends in [_process_deletions]. The previous run recorded
    [README], which the walk no longer lists: both changed files are
    parsed and upserted and the new checksums are persisted, then the
    unpacking of [rsplit] on [README] raises and the exception leaves
    [sync_library]. *)
Lemma sync_library_ends_with_error_of_process_deletions :
  let r := sync_library ex_parsers "files1" 18 ex_walk_mix ex_prior_readme in
  r.2 = Raise (ValueError "not enough values to unpack (expected 2, got 1)")
  ∧ sync_calls r.1
    = [GetTrack "b.mp3"; TracksAddDbItem {| track_item_id := "b.mp3" |} true;
       GetPlaylist "mix.m3u";
       PlaylistsAddDbItem {| playlist_item_id := "mix.m3u"; playlist_checksum := "6";
                             playlist_in_library := true |};
       ProcessDeletions {[ "README" ]}]
  ∧ cache_get (cache r.1) "files1.checksums" 18
    = Some (<["b.mp3" := "9"]> (<["mix.m3u" := "6"]> ∅)).
Proof. vm_compute. repeat split; reflexivity. Qed.

(** * Further properties of the code *)

(** ** Provider lookup ([MusicAssistant.get_provider]) *)

Lemma find_first {A : Type} (f : A -> bool) (l : list A) (x : A) :
  find f l = Some x
  <-> ∃ l1 l2, l = l1 ++ x :: l2 ∧ f x = true ∧ ∀ y, y ∈ l1 -> f y = false.
Proof.
  induction l as [|a l IH]; simpl.
  - split; [done|]. intros (l1 & l2 & H & _). by destruct l1.
  - destruct (f a) eqn:Ha.
    + split.
      * intros [= ->]. exists [], l. split; [done|]. split; [done|].
        by intros y ?%elem_of_nil.
      * intros (l1 & l2 & Hl & Hx & Hb). destruct l1 as [|b l1].
        -- by injection Hl as ->.
        -- injection Hl as -> _. rewrite Hb in Ha; [done|apply list_elem_of_here].
    + rewrite IH. split.
      * intros (l1 & l2 & -> & Hx & Hb). exists (a :: l1), l2. split; [done|]. split; [done|].
        intros y [->|Hy]%elem_of_cons; auto.
      * intros (l1 & l2 & Hl & Hx & Hb). destruct l1 as [|b l1].
        -- injection Hl as -> _. congruence.
        -- injection Hl as -> ->. exists l1, l2. split; [done|]. split; [done|].
           intros y Hy. apply Hb. by apply list_elem_of_further.
Qed.

Lemma find_None_elem_of {A : Type} (f : A -> bool) (l : list A) :
  find f l = None <-> ∀ y, y ∈ l -> f y = false.
Proof.
  induction l as [|a l IH]; simpl.
  - split; [by intros _ y ?%elem_of_nil|done].
  - destruct (f a) eqn:Ha.
    + split; [done|]. intros H. rewrite H in Ha; [done|apply list_elem_of_here].
    + rewrite IH. split.
      * intros H y [->|Hy]%elem_of_cons; auto.
      * intros H y Hy. apply H. by apply list_elem_of_further.
Qed.

Lemma Dict_get_elem_of {V : Type} (k : string) (v : V) (d : list (string * V)) :
  Dict.get k d = Some v -> (k, v) ∈ d.
Proof.
  induction d as [|[k' v'] d IH]; simpl; [done|].
  destruct (decide (k = k')) as [->|Hne].
  - intros [= ->]. apply list_elem_of_here.
  - intros H. apply list_elem_of_further. by apply IH.
Qed.

Lemma elem_of_Dict_values {V : Type} (k : string) (v : V) (d : list (string * V)) :
  (k, v) ∈ d -> v ∈ Dict.values d.
Proof.
  intros H. unfold Dict.values. apply list_elem_of_fmap. by exists (k, v).
Qed.

(** X1. [get_provider] never changes the server. A provider registered
    under the given string as its instance id is returned, whatever the
    domains of the others; failing that, the first provider in
    registration order whose domain is the given string; and
    [ProviderUnavailableError] is raised exactly when no provider is
    registered under that id and none has that domain. *)
Theorem get_provider_by_id_then_domain (x : string) (s : MusicAssistant) :
  ∃ o, get_provider x s = (s, o)
       ∧ (∀ p, Dict.get x (_providers s) = Some p -> o = Ok p)
       ∧ (Dict.get x (_providers s) = None ->
          ∀ p, o = Ok p
               <-> ∃ before after, providers s = before ++ p :: after
                                   ∧ domain p = x
                                   ∧ ∀ q, q ∈ before -> domain q ≠ x)
       ∧ (∀ p, o = Ok p -> p ∈ providers s)
       ∧ (∀ e, o = Raise e
               <-> e = ProviderUnavailableError ("Provider " +:+ x +:+ " is not available")
                   ∧ Dict.get x (_providers s) = None
                   ∧ ∀ p, p ∈ providers s -> domain p ≠ x).
Proof.
  unfold get_provider, providers.
  destruct (Dict.get x (_providers s)) as [p0|] eqn:Hget.
  - exists (Ok p0). split; [done|]. split; [by intros p [= ->]|]. split; [done|]. split.
    + intros p [= <-]. eapply elem_of_Dict_values, Dict_get_elem_of, Hget.
    + intros e. split; [done|]. by intros (_ & ? & _).
  - destruct (find _ _) as [p0|] eqn:Hfind.
    + exists (Ok p0). split; [done|]. split; [done|]. split; [|split].
      * intros _ p. split.
        -- intros [= <-]. apply find_first in Hfind as (l1 & l2 & Hl & Hd & Hb).
           exists l1, l2. split; [done|]. split; [by apply bool_decide_eq_true in Hd|].
           intros q Hq. specialize (Hb q Hq). by apply bool_decide_eq_false in Hb.
        -- intros (l1 & l2 & Hl & Hd & Hb).
           assert (Hf : find (fun prov => bool_decide (domain prov = x))
                             (Dict.values (_providers s)) = Some p).
           { apply find_first. exists l1, l2. split; [done|].
             split; [by apply bool_decide_eq_true|].
             intros q Hq. apply bool_decide_eq_false. by apply Hb. }
           congruence.
      * intros p [= <-]. apply find_first in Hfind as (l1 & l2 & -> & _).
        apply elem_of_app. right. apply list_elem_of_here.
      * intros e. split; [done|]. intros (_ & _ & Hnone).
        apply find_first in Hfind as (l1 & l2 & Hl & Hd & _).
        apply bool_decide_eq_true in Hd. exfalso. apply (Hnone p0); [|done].
        rewrite Hl. apply elem_of_app. right. apply list_elem_of_here.
    + eexists. split; [reflexivity|]. split; [done|]. split; [|split].
      * intros _ p. split; [done|]. intros (l1 & l2 & Hl & Hd & _).
        pose proof (proj1 (find_None_elem_of _ _) Hfind p) as Hp.
        rewrite bool_decide_eq_false in Hp. exfalso. apply Hp; [|done].
        rewrite Hl. apply elem_of_app. right. apply list_elem_of_here.
      * done.
      * intros e. split.
        -- intros [= <-]. split; [done|]. split; [done|]. intros p Hp.
           pose proof (proj1 (find_None_elem_of _ _) Hfind p Hp) as Hd.
           by apply bool_decide_eq_false in Hd.
        -- by intros (-> & _).
Qed.

(** ** Subscribing and unsubscribing *)

Lemma list_remove_app_new {A : Type} `{EqDecision A} (x : A) (l : list A) :
  x ∉ l -> list_remove x (l ++ [x]) = Some l.
Proof.
  induction l as [|y l IH]; simpl; intros Hx.
  - by rewrite decide_True.
  - apply not_elem_of_cons in Hx as [Hne Hx]. rewrite decide_False by done.
    by rewrite IH.
Qed.

Lemma list_remove_None {A : Type} `{EqDecision A} (x : A) (l : list A) :
  x ∉ l -> list_remove x l = None.
Proof.
  induction l as [|y l IH]; simpl; intros Hx; [done|].
  apply not_elem_of_cons in Hx as [Hne Hx]. rewrite decide_False by done.
  by rewrite IH.
Qed.

Lemma list_remove_NoDup {A : Type} `{EqDecision A} (x : A) (l l' : list A) :
  NoDup l -> list_remove x l = Some l' ->
  NoDup l' ∧ ∀ y, y ∈ l' <-> y ∈ l ∧ y ≠ x.
Proof.
  intros Hnd. revert l'. induction Hnd as [|a l Ha Hnd IH]; simpl; intros l'; [done|].
  destruct (decide (x = a)) as [->|Hne].
  - intros [= <-]. split; [done|]. intros y. rewrite elem_of_cons. split.
    + intros Hy. split; [by right|]. by intros ->.
    + by intros [[->|Hy] Hne].
  - destruct (list_remove x l) as [l0|] eqn:Hrem; [|done]. simpl. intros [= <-].
    destruct (IH l0 eq_refl) as [Hnd0 Hl0]. split.
    + constructor; [|done]. rewrite Hl0. by intros [? _].
    + intros y. rewrite !elem_of_cons, Hl0. split.
      * intros [->|[Hy Hyx]]; [split; [by left|congruence]|split; [by right|done]].
      * intros [[->|Hy] Hyx]; [by left|by right].
Qed.

Lemma set_add_NoDup {A : Type} `{EqDecision A} (x : A) (l : list A) :
  NoDup l -> NoDup (set_add x l).
Proof.
  intros Hnd. unfold set_add. destruct (decide (x ∈ l)); [done|].
  apply NoDup_app. split; [done|]. split.
  - intros y Hy ->%list_elem_of_singleton. done.
  - apply NoDup_singleton.
Qed.

Lemma elem_of_set_add {A : Type} `{EqDecision A} (x y : A) (l : list A) :
  y ∈ set_add x l <-> y ∈ l ∨ y = x.
Proof.
  unfold set_add. destruct (decide (x ∈ l)).
  - split; [by left|]. by intros [?| ->].
  - by rewrite elem_of_app, list_elem_of_singleton.
Qed.

Lemma with_subscribers_id (s : MusicAssistant) :
  with_subscribers (fun _ => _subscribers s) s = s.
Proof. by destruct s. Qed.

(** X2. Subscribe, then call the returned [remove_listener]: for a
    listener tuple that was not subscribed before, the pair restores the
    server state exactly, and the removal returns normally. *)
Theorem subscribe_then_remove_listener_restores
    (cb : Callback) (ef : FilterArg EventType) (idf : FilterArg string) (s : MusicAssistant) :
  listener_of cb ef idf ∉ _subscribers s ->
  (let* listener := subscribe cb ef idf in remove_listener listener) s = (s, Ok tt).
Proof.
  intros Hnew. unfold subscribe, bind, modify, ret, remove_listener. simpl.
  fold (listener_of cb ef idf). unfold set_add. rewrite decide_False by done.
  rewrite list_remove_app_new by done. by destruct s.
Qed.

Lemma subscribe_then_remove_listener_restores_witness :
  (let* listener := subscribe {| cb_id := 7; cb_is_coroutine := false |}
                              (Single PROVIDERS_UPDATED) NoFilter in
   remove_listener listener) ex_bus = (ex_bus, Ok tt).
Proof.
  apply subscribe_then_remove_listener_restores.
  intros H. apply list_elem_of_singleton in H. discriminate H.
Defined.

(** X3. Unsubscribing. On a bus whose subscribers form a set,
    [remove_listener] returns normally exactly when the listener is
    subscribed and raises [KeyError] otherwise; it removes that listener
    and no other; and a second call of the same [remove_listener] raises
    [KeyError] and changes nothing. *)
Theorem remove_listener_removes_once (l : Subscription) (s : MusicAssistant) :
  subscribers_are_a_set s ->
  ∃ s1, remove_listener l s
        = (s1, if decide (l ∈ _subscribers s) then Ok tt else Raise (KeyError "listener"))
        ∧ subscribers_are_a_set s1
        ∧ (∀ l', l' ∈ _subscribers s1 <-> l' ∈ _subscribers s ∧ l' ≠ l)
        ∧ remove_listener l s1 = (s1, Raise (KeyError "listener")).
Proof.
  unfold subscribers_are_a_set. intros Hnd. unfold remove_listener.
  destruct (decide (l ∈ _subscribers s)) as [Hin|Hnin].
  - destruct (list_remove_is_Some l _ Hin) as [l0 Hrem]. rewrite Hrem.
    destruct (list_remove_NoDup l _ l0 Hnd Hrem) as [Hnd0 Hl0].
    eexists. split; [reflexivity|]. simpl. split; [done|]. split; [done|].
    rewrite list_remove_None; [done|]. rewrite Hl0. by intros [_ ?].
  - rewrite list_remove_None by done. exists s. split; [done|]. split; [done|]. split.
    + intros l'. split; [|by intros [? _]]. intros H. split; [done|]. by intros ->.
    + by rewrite list_remove_None.
Qed.

Lemma remove_listener_removes_once_witness :
  ∃ s1, remove_listener ex_listener ex_bus = (s1, Ok tt)
        ∧ remove_listener ex_listener s1 = (s1, Raise (KeyError "listener")).
Proof.
  destruct (remove_listener_removes_once ex_listener ex_bus) as (s1 & E & _ & _ & E2).
  - apply NoDup_singleton.
  - exists s1. split; [|exact E2]. rewrite E.
    rewrite decide_True; [reflexivity|apply list_elem_of_here].
Defined.

Lemma newly_scheduled_elem_of (ev : EventType) (oid : option string) (d : EventData)
    (s : MusicAssistant) (l : Subscription) :
  closing s = false ->
  deliver (mkEvent ev oid d) l ∈ newly_scheduled ev oid d s
  <-> l ∈ _subscribers s ∧ listener_matches ev oid l = true.
Proof.
  intros Hopen. destruct (newly_scheduled_open ev oid d s Hopen) as [-> _].
  rewrite list_elem_of_fmap. split.
  - intros (l' & Heq & Hin). apply deliver_inj in Heq as <-.
    by apply elem_of_List_filter in Hin.
  - intros Hm. exists l. split; [done|]. by apply elem_of_List_filter.
Qed.

Lemma newly_scheduled_closing (ev : EventType) (oid : option string) (d : EventData)
    (s : MusicAssistant) :
  closing s = true -> newly_scheduled ev oid d s = [].
Proof.
  intros Hc. unfold newly_scheduled, signal_event. rewrite Hc. simpl. apply drop_all.
Qed.

(** X4. An unsubscribed listener hears nothing more. After
    [remove_listener] has returned, no later event, of whatever type, id
    and payload, is handed to the event loop for that listener, while
    every other listener is scheduled exactly for the events it was
    scheduled for before. *)
Theorem removed_listener_is_not_scheduled
    (l : Subscription) (s s1 : MusicAssistant) :
  subscribers_are_a_set s ->
  remove_listener l s = (s1, Ok tt) ->
  ∀ ev oid d,
    (deliver (mkEvent ev oid d) l ∉ newly_scheduled ev oid d s1)
    ∧ ∀ l', l' ≠ l ->
            (deliver (mkEvent ev oid d) l' ∈ newly_scheduled ev oid d s1
             <-> deliver (mkEvent ev oid d) l' ∈ newly_scheduled ev oid d s).
Proof.
  intros Hnd Hrem ev oid d.
  destruct (remove_listener_removes_once l s Hnd) as (s1' & E & _ & Hsub & _).
  rewrite Hrem in E. injection E as <- _.
  assert (Hcl : closing s1 = closing s).
  { unfold remove_listener in Hrem. destruct (list_remove l (_subscribers s)); [|done].
    by injection Hrem as <-. }
  destruct (closing s) eqn:Hc.
  - rewrite !newly_scheduled_closing by congruence. split; [apply not_elem_of_nil|].
    intros l' _. done.
  - split.
    + rewrite newly_scheduled_elem_of by congruence. rewrite Hsub. by intros [[_ ?] _].
    + intros l' Hne. rewrite !newly_scheduled_elem_of by congruence. rewrite Hsub.
      split; [by intros [[? _] ?]|by intros [? ?]].
Qed.

Lemma removed_listener_is_not_scheduled_witness :
  ∃ s1, remove_listener ex_listener ex_bus = (s1, Ok tt)
        ∧ deliver (mkEvent SYNC_TASKS_UPDATED None NoData) ex_listener
          ∉ newly_scheduled SYNC_TASKS_UPDATED None NoData s1.
Proof.
  eexists. split; [reflexivity|].
  eapply (removed_listener_is_not_scheduled ex_listener ex_bus).
  - apply NoDup_singleton.
  - reflexivity.
Defined.

Lemma filter_of_arg_event (ef : FilterArg EventType) (ev : EventType) :
  event_filter_matches (filter_of_arg ef) ev = true <-> event_arg_accepts ef ev.
Proof.
  destruct ef as [|e|evs]; simpl.
  - done.
  - rewrite bool_decide_eq_true, list_elem_of_singleton. done.
  - by rewrite bool_decide_eq_true.
Qed.

Lemma filter_of_arg_id (idf : FilterArg string) (oid : option string) :
  id_filter_matches (filter_of_arg idf) oid = true <-> id_arg_accepts idf oid.
Proof.
  destruct idf as [|i|ids]; simpl.
  - done.
  - destruct oid as [j|]; [|done].
    rewrite bool_decide_eq_true, list_elem_of_singleton. split; congruence.
  - destruct oid as [j|].
    + rewrite bool_decide_eq_true. split; [by exists j|]. by intros (i & [= ->] & ?).
    + split; [done|]. by intros (i & ? & _).
Qed.

(** X5. Subscribing, then signalling. On a server that is not closing, a
    callback subscribed with a single event type, a tuple of them or none,
    and with a single id, a tuple of them or none, is handed an event
    exactly when the event's type is the one given (in the tuple, or no
    type was given) and the event's object id is the one given (in the
    tuple, or no id was given). An event without an object id is therefore
    never handed to a callback subscribed with an id filter. *)
Theorem subscribed_callback_receives_matching_events
    (cb : Callback) (ef : FilterArg EventType) (idf : FilterArg string) (s : MusicAssistant)
    (ev : EventType) (oid : option string) (d : EventData) :
  closing s = false ->
  ∃ s1 listener,
    subscribe cb ef idf s = (s1, Ok listener)
    ∧ cb_func listener = cb
    ∧ (deliver (mkEvent ev oid d) listener ∈ newly_scheduled ev oid d s1
       <-> event_arg_accepts ef ev ∧ id_arg_accepts idf oid)
    ∧ (idf ≠ NoFilter ->
       deliver (mkEvent ev None d) listener ∉ newly_scheduled ev None d s1).
Proof.
  intros Hopen. eexists _, _. split; [reflexivity|]. split; [done|].
  fold (listener_of cb ef idf).
  set (s1 := with_subscribers (set_add (listener_of cb ef idf)) s).
  assert (Hopen1 : closing s1 = false) by done.
  assert (Hin : listener_of cb ef idf ∈ _subscribers s1).
  { simpl. apply elem_of_set_add. by right. }
  split.
  - rewrite newly_scheduled_elem_of by done. unfold listener_matches. simpl.
    rewrite andb_true_iff, filter_of_arg_event, filter_of_arg_id. by split; [intros [_ ?]|].
  - intros Hidf. rewrite newly_scheduled_elem_of by done. unfold listener_matches. simpl.
    rewrite andb_true_iff, filter_of_arg_id. intros (_ & _ & Hacc).
    destruct idf as [|i|ids]; [done|done|]. by destruct Hacc as (i & ? & _).
Qed.

Lemma subscribed_callback_receives_matching_events_witness :
  ∃ s1 listener,
    subscribe {| cb_id := 2; cb_is_coroutine := true |} NoFilter (Single "player1") ex_bus
    = (s1, Ok listener)
    ∧ deliver (mkEvent QUEUE_TIME_UPDATED (Some "player1") NoData) listener
      ∈ newly_scheduled QUEUE_TIME_UPDATED (Some "player1") NoData s1.
Proof.
  destruct (subscribed_callback_receives_matching_events
              {| cb_id := 2; cb_is_coroutine := true |} NoFilter (Single "player1") ex_bus
              QUEUE_TIME_UPDATED (Some "player1") NoData eq_refl)
    as (s1 & listener & E & _ & H & _).
  exists s1, listener. split; [exact E|]. apply H. split; reflexivity.
Defined.

Lemma subscribe_keeps_set (cb : Callback) (ef : FilterArg EventType) (idf : FilterArg string)
    (s : MusicAssistant) :
  subscribers_are_a_set s -> subscribers_are_a_set (subscribe cb ef idf s).1.
Proof. unfold subscribers_are_a_set. simpl. apply set_add_NoDup. Qed.

(** X6. Subscribing the same callback with the same filters twice is
    subscribing it once: the second [subscribe] leaves the server as the
    first one left it and returns the same listener, the subscribers still
    form a set, and every event is handed to the event loop at most once
    per listener. *)
Theorem subscribe_twice_is_subscribe_once
    (cb : Callback) (ef : FilterArg EventType) (idf : FilterArg string) (s : MusicAssistant) :
  subscribers_are_a_set s ->
  ∃ s1 listener,
    subscribe cb ef idf s = (s1, Ok listener)
    ∧ subscribe cb ef idf s1 = (s1, Ok listener)
    ∧ subscribers_are_a_set s1
    ∧ ∀ ev oid d, NoDup (newly_scheduled ev oid d s1).
Proof.
  intros Hnd. eexists _, _. split; [reflexivity|].
  fold (listener_of cb ef idf).
  set (s1 := with_subscribers (set_add (listener_of cb ef idf)) s).
  assert (Hnd1 : NoDup (_subscribers s1)) by (simpl; by apply set_add_NoDup).
  split; [|split; [done|]].
  - assert (Hidem : set_add (listener_of cb ef idf)
                            (set_add (listener_of cb ef idf) (_subscribers s))
                    = set_add (listener_of cb ef idf) (_subscribers s)).
    { unfold set_add at 1. by rewrite decide_True by (apply elem_of_set_add; by right). }
    unfold subscribe, bind, modify, ret. fold (listener_of cb ef idf).
    unfold s1, with_subscribers. cbn [_subscribers]. by rewrite Hidem.
  - intros ev oid d. destruct (closing s1) eqn:Hc.
    + rewrite newly_scheduled_closing by done. apply NoDup_nil_2.
    + destruct (newly_scheduled_open ev oid d s1 Hc) as [-> _].
      apply NoDup_fmap_2; [intros a b; apply deliver_inj|].
      apply NoDup_ListNoDup, List.NoDup_filter, NoDup_ListNoDup, Hnd1.
Qed.

Lemma subscribe_twice_is_subscribe_once_witness :
  ∃ s1 listener,
    subscribe (cb_func ex_listener) (Single SYNC_TASKS_UPDATED) NoFilter ex_bus
    = (s1, Ok listener)
    ∧ subscribe (cb_func ex_listener) (Single SYNC_TASKS_UPDATED) NoFilter s1
      = (s1, Ok listener).
Proof.
  destruct (subscribe_twice_is_subscribe_once (cb_func ex_listener)
              (Single SYNC_TASKS_UPDATED) NoFilter ex_bus)
    as (s1 & l & E1 & E2 & _).
  - apply NoDup_singleton.
  - exists s1, l. split; [exact E1|exact E2].
Defined.
(** ** Launching a sync ([MusicController._start_provider_sync]) *)

Lemma get_provider_registered (P : string) (q : Provider) (s : MusicAssistant) :
  Dict.get P (_providers s) = Some q -> get_provider P s = (s, Ok q).
Proof. intros H. unfold get_provider. by rewrite H. Qed.

Lemma not_covered_not_in_progress (P : string) (types : list MediaType) (syncs : list SyncTask) :
  (∀ m, m ∈ types -> ¬ covered P m syncs) -> sync_in_progress P types syncs = false.
Proof.
  intros H. destruct (sync_in_progress P types syncs) eqn:E; [|done].
  apply sync_in_progress_covered in E as (m & Hm & Hc). by destruct (H m Hm).
Qed.

Lemma start_provider_sync_launch_eq
    (s : MusicAssistant) (P : string) (types : list MediaType) (provider : Provider) :
  sync_in_progress P types (in_progress_syncs s) = false ->
  get_provider P s = (s, Ok provider) ->
  _start_provider_sync P types s
  = signal_event SYNC_TASKS_UPDATED None
      (SyncTasksData (in_progress_syncs s ++ [launched_sync provider types s]))
      (with_in_progress_syncs (fun l => l ++ [launched_sync provider types s])
         (with_tracked_tasks (fun l => l ++ [launched_task provider s])
            (with_next_task_id (S (next_task_id s)) s))).
Proof.
  intros Hnot Hget. unfold _start_provider_sync. rewrite Hnot.
  rewrite (bind_Ok _ _ _ _ _ Hget). reflexivity.
Qed.

Lemma covered_app (P : string) (m : MediaType) (l1 l2 : list SyncTask) :
  covered P m (l1 ++ l2) <-> covered P m l1 ∨ covered P m l2.
Proof.
  unfold covered. split.
  - intros (st & [H|H]%elem_of_app & ?); [left|right]; by exists st.
  - intros [(st & H & ?)|(st & H & ?)]; exists st; (split; [|done]); apply elem_of_app; auto.
Qed.

(** What a launch does to each part of the server state. *)
Lemma start_provider_sync_launch
    (s : MusicAssistant) (P : string) (types : list MediaType) (provider : Provider) :
  sync_in_progress P types (in_progress_syncs s) = false ->
  get_provider P s = (s, Ok provider) ->
  ∃ s', _start_provider_sync P types s = (s', Ok tt)
        ∧ in_progress_syncs s' = in_progress_syncs s ++ [launched_sync provider types s]
        ∧ _tracked_tasks s' = _tracked_tasks s ++ [launched_task provider s]
        ∧ next_task_id s' = S (next_task_id s)
        ∧ keeps_registry s s'
        ∧ _subscribers s' = _subscribers s
        ∧ calls s' = calls s
        ∧ signalled s'
          = signalled s
            ++ (if closing s then []
                else [mkEvent SYNC_TASKS_UPDATED None
                        (SyncTasksData (in_progress_syncs s ++ [launched_sync provider types s]))]).
Proof.
  intros Hnot Hget. rewrite (start_provider_sync_launch_eq s P types provider Hnot Hget).
  match goal with |- context [signal_event ?ev ?oid ?d ?s0] =>
    destruct (signal_event_spec ev oid d s0) as (s' & E & Hp & Hc & Ha & Hm & Hs & Hi & Ht & Hcs & Hsig)
  end.
  exists s'. split; [exact E|]. rewrite Hi, Ht, Hs, Hcs, Hsig. simpl.
  split; [done|]. split; [done|]. split.
  { unfold signal_event in E. simpl in E. destruct (closing s); by injection E as <-. }
  split; [by repeat split|]. done.
Qed.





(** X9. A sync request for a provider that is not there. When no in-flight
    task holds a requested media type for the given instance, no provider
    is registered under that id and none has it as its domain,
    [_start_provider_sync] raises [ProviderUnavailableError] before
    anything is created: no task, no in-progress entry, no event. *)
Theorem start_provider_sync_unknown_provider
    (s : MusicAssistant) (P : string) (types : list MediaType) :
  (∀ m, m ∈ types -> ¬ covered P m (in_progress_syncs s)) ->
  Dict.get P (_providers s) = None ->
  (∀ p, p ∈ providers s -> domain p ≠ P) ->
  _start_provider_sync P types s
  = (s, Raise (ProviderUnavailableError ("Provider " +:+ P +:+ " is not available"))).
Proof.
  intros Hnot Hid Hdom. apply not_covered_not_in_progress in Hnot.
  unfold _start_provider_sync. rewrite Hnot.
  assert (Hget : get_provider P s
                 = (s, Raise (ProviderUnavailableError
                                ("Provider " +:+ P +:+ " is not available")))).
  { unfold get_provider. rewrite Hid.
    assert (Hf : find (fun prov => bool_decide (domain prov = P)) (Dict.values (_providers s))
                 = None).
    { apply find_None_elem_of. intros p Hp. apply bool_decide_eq_false. by apply Hdom. }
    by rewrite Hf. }
  by rewrite (bind_Raise _ _ _ _ _ Hget).
Qed.

Lemma start_provider_sync_unknown_provider_witness :
  _start_provider_sync "tidal1" [ALBUM] ex_idle
  = (ex_idle, Raise (ProviderUnavailableError "Provider tidal1 is not available")).
Proof.
  apply (start_provider_sync_unknown_provider ex_idle "tidal1" [ALBUM]).
  - intros m _ (st & Hst & _). by apply elem_of_nil in Hst.
  - reflexivity.
  - intros p Hp. apply list_elem_of_singleton in Hp as ->. discriminate.
Defined.


(** ** Starting the sync of several providers ([MusicController.start_sync]) *)

(** One round of the loop of [start_sync] for a provider that is
    registered under its instance id. *)
Lemma start_provider_sync_step (P : string) (types : list MediaType) (q : Provider)
    (s : MusicAssistant) :
  Dict.get P (_providers s) = Some q ->
  instance_id q = P ->
  ∃ s' new, _start_provider_sync P types s = (s', Ok tt)
            ∧ keeps_registry s s'
            ∧ calls s' = calls s
            ∧ in_progress_syncs s' = in_progress_syncs s ++ new
            ∧ (new = [] ∨ new = [launched_sync q types s])
            ∧ (types ≠ [] -> ∃ m, m ∈ types ∧ covered P m (in_progress_syncs s')).
Proof.
  intros Hreg Hid. pose proof (get_provider_registered P q s Hreg) as Hget.
  destruct (sync_in_progress P types (in_progress_syncs s)) eqn:Hdup.
  - exists s, []. split; [unfold _start_provider_sync; by rewrite Hdup|].
    split; [apply keeps_registry_refl|]. split; [done|]. split; [by rewrite app_nil_r|].
    split; [by left|]. intros _. by apply sync_in_progress_covered.
  - destruct (start_provider_sync_launch s P types q Hdup Hget)
      as (s' & E & Hi & _ & _ & Hk & _ & Hc & _).
    exists s', [launched_sync q types s]. split; [exact E|]. split; [exact Hk|].
    split; [exact Hc|]. split; [exact Hi|]. split; [by right|].
    intros Hne. destruct types as [|m types]; [done|]. exists m.
    split; [apply list_elem_of_here|]. rewrite Hi. apply covered_app. right.
    exists (launched_sync q (m :: types) s). split; [apply list_elem_of_here|].
    split; [done|apply list_elem_of_here].
Qed.

Lemma start_sync_loop (types : list MediaType) (requested : list string) (l : list Provider) :
  ∀ s,
    (∀ p, p ∈ l -> instance_id p ∈ requested ->
          ∃ q, Dict.get (instance_id p) (_providers s) = Some q
               ∧ instance_id q = instance_id p) ->
    ∃ s' new,
      for_each l (fun provider =>
                    if decide (instance_id provider ∈ requested)
                    then _start_provider_sync (instance_id provider) types
                    else ret tt) s = (s', Ok tt)
      ∧ keeps_registry s s'
      ∧ calls s' = calls s
      ∧ in_progress_syncs s' = in_progress_syncs s ++ new
      ∧ (∀ st, st ∈ new ->
               media_types st = types
               ∧ provider_instance st ∈ requested
               ∧ ∃ p, p ∈ l ∧ provider_instance st = instance_id p)
      ∧ (types ≠ [] ->
         ∀ p, p ∈ l -> instance_id p ∈ requested ->
              ∃ m, m ∈ types ∧ covered (instance_id p) m (in_progress_syncs s')).
Proof.
  induction l as [|p l IH]; intros s Hreg.
  - exists s, []. split; [done|]. split; [apply keeps_registry_refl|]. split; [done|].
    split; [by rewrite app_nil_r|]. split; [by intros st ?%elem_of_nil|].
    by intros _ p ?%elem_of_nil.
  - cbn [for_each].
    assert (Hstep : ∃ s1 new1,
              (if decide (instance_id p ∈ requested)
               then _start_provider_sync (instance_id p) types else ret tt) s = (s1, Ok tt)
              ∧ keeps_registry s s1 ∧ calls s1 = calls s
              ∧ in_progress_syncs s1 = in_progress_syncs s ++ new1
              ∧ (∀ st, st ∈ new1 -> media_types st = types
                                    ∧ provider_instance st ∈ requested
                                    ∧ provider_instance st = instance_id p)
              ∧ (types ≠ [] -> instance_id p ∈ requested ->
                 ∃ m, m ∈ types ∧ covered (instance_id p) m (in_progress_syncs s1))).
    { destruct (decide (instance_id p ∈ requested)) as [Hin|Hnin].
      - destruct (Hreg p (list_elem_of_here _ _) Hin) as (q & Hq & Hid).
        destruct (start_provider_sync_step (instance_id p) types q s Hq Hid)
          as (s1 & new1 & E1 & K1 & C1 & I1 & N1 & V1).
        exists s1, new1. split; [exact E1|]. split; [exact K1|]. split; [exact C1|].
        split; [exact I1|]. split; [|auto].
        intros st Hst. destruct N1 as [->| ->]; [by apply elem_of_nil in Hst|].
        apply list_elem_of_singleton in Hst as ->. simpl. by rewrite Hid.
      - exists s, []. split; [done|]. split; [apply keeps_registry_refl|]. split; [done|].
        split; [by rewrite app_nil_r|]. split; [by intros st ?%elem_of_nil|done]. }
    destruct Hstep as (s1 & new1 & E1 & K1 & C1 & I1 & N1 & V1).
    destruct (IH s1) as (s' & new & E & K & C & I & N & V).
    { intros p' Hp' Hin'. destruct K1 as (-> & _). apply Hreg; [|done].
      by apply list_elem_of_further. }
    exists s', (new1 ++ new). rewrite (bind_Ok _ _ _ _ _ E1).
    split; [exact E|]. split; [by eapply keeps_registry_trans|]. split; [congruence|].
    split; [by rewrite I, I1, app_assoc|]. split.
    + intros st [Hst|Hst]%elem_of_app.
      * destruct (N1 st Hst) as (? & ? & ?). split; [done|]. split; [done|].
        exists p. split; [apply list_elem_of_here|done].
      * destruct (N st Hst) as (? & ? & p' & ? & ?). split; [done|]. split; [done|].
        exists p'. split; [by apply list_elem_of_further|done].
    + intros Hne p' [->|Hp']%elem_of_cons Hin'.
      * destruct (V1 Hne Hin') as (m & Hm & Hc). exists m. split; [done|].
        rewrite I. apply covered_app. by left.
      * by apply V.
Qed.

Lemma elem_of_music_providers (p : Provider) (s : MusicAssistant) :
  p ∈ music_providers s <-> p ∈ providers s ∧ type p = MUSIC.
Proof.
  unfold music_providers, get_providers, providers. rewrite elem_of_List_filter.
  rewrite bool_decide_eq_true. split; intros [? ?]; by split.
Qed.

Lemma keyed_provider_resolves (p : Provider) (s : MusicAssistant) :
  keyed_by_instance_id s ->
  p ∈ providers s ->
  ∃ q, Dict.get (instance_id p) (_providers s) = Some q ∧ instance_id q = instance_id p.
Proof.
  intros Hkey Hp. apply DictFacts.elem_of_values in Hp as (k & Hk).
  pose proof (Hkey k p Hk) as <-.
  destruct (DictFacts.elem_of_get _ _ _ Hk) as [q Hq]. exists q. split; [done|].
  apply Hkey. by apply Dict_get_elem_of.
Qed.

(** X10. [start_sync] on a registry that files every provider under its
    instance id. The call returns normally and leaves the registry as it
    is; the metadata scan is started once, after the loop, and no other
    collaborator is called. Every sync task it adds carries the requested
    media types (all five when none were given) and belongs to a
    registered provider of type [MUSIC] that is in the requested list of
    instances (when one was given): providers of other types and music
    providers that were not asked for get no sync. And, for a non-empty
    list of media types, every music provider that was asked for has a
    sync in flight afterwards that holds one of them. *)
Theorem start_sync_syncs_requested_music_providers
    (types : option (list MediaType)) (requested : option (list string)) (s : MusicAssistant) :
  keyed_by_instance_id s ->
  ∃ s' new,
    start_sync types requested s = (s', Ok tt)
    ∧ keeps_registry s s'
    ∧ calls s' = calls s ++ [MetadataScanStarted]
    ∧ in_progress_syncs s' = in_progress_syncs s ++ new
    ∧ (∀ st, st ∈ new ->
             media_types st = default MediaType_ALL types
             ∧ (∃ p, p ∈ providers s ∧ type p = MUSIC ∧ provider_instance st = instance_id p)
             ∧ (∀ l, requested = Some l -> provider_instance st ∈ l))
    ∧ (types ≠ Some [] ->
       ∀ p, p ∈ providers s -> type p = MUSIC ->
            (∀ l, requested = Some l -> instance_id p ∈ l) ->
            ∃ m, m ∈ default MediaType_ALL types
                 ∧ covered (instance_id p) m (in_progress_syncs s')).
Proof.
  intros Hkey. unfold start_sync.
  set (types' := default MediaType_ALL types).
  set (requested' := default (map instance_id (music_providers s)) requested).
  destruct (start_sync_loop types' requested' (music_providers s) s)
    as (s1 & new & E & K & C & I & N & V).
  { intros p Hp _. apply keyed_provider_resolves; [done|].
    by apply elem_of_music_providers in Hp as [? _]. }
  exists (with_call MetadataScanStarted s1), new.
  rewrite (bind_Ok _ _ _ _ _ E). split; [done|].
  split; [destruct K as (? & ? & ? & ?); by repeat split|].
  split; [simpl; by rewrite C|]. split; [exact I|]. split.
  - intros st Hst. destruct (N st Hst) as (Hty & Hreq & p & Hp & Hid).
    apply elem_of_music_providers in Hp as [Hp Hmusic].
    split; [done|]. split; [by exists p|].
    intros l ->. exact Hreq.
  - intros Hne p Hp Hmusic Hreq.
    assert (Hmp : p ∈ music_providers s) by (by apply elem_of_music_providers).
    simpl. apply V; [|done|].
    + unfold types'. destruct types as [[|]|]; done.
    + unfold requested'. destruct requested as [l|]; simpl; [by apply Hreq|].
      apply list_elem_of_fmap. by exists p.
Qed.

Lemma start_sync_syncs_requested_music_providers_witness :
  ∃ s' new,
    start_sync None None ex_idle = (s', Ok tt)
    ∧ calls s' = calls ex_idle ++ [MetadataScanStarted]
    ∧ in_progress_syncs s' = in_progress_syncs ex_idle ++ new
    ∧ ∃ m, m ∈ MediaType_ALL ∧ covered "spotify1" m (in_progress_syncs s').
Proof.
  destruct (start_sync_syncs_requested_music_providers None None ex_idle)
    as (s' & new & E & _ & C & I & _ & V).
  - intros k p Hp. apply list_elem_of_singleton in Hp. by injection Hp as -> ->.
  - exists s', new. split; [exact E|]. split; [exact C|]. split; [exact I|].
    apply (V ltac:(discriminate) ex_spotify).
    + apply list_elem_of_here.
    + reflexivity.
    + discriminate.
Defined.
(** ** Loading, reloading and unloading an instance *)

Lemma Dict_set_set {V : Type} (k : string) (v v' : V) (d : list (string * V)) :
  Dict.set k v' (Dict.set k v d) = Dict.set k v' d.
Proof.
  induction d as [|[k0 v0] d IH]; simpl.
  - by rewrite decide_True.
  - destruct (decide (k = k0)) as [->|Hne]; simpl.
    + by rewrite decide_True.
    + rewrite decide_False by done. by rewrite IH.
Qed.

Lemma Dict_update_set {V : Type} (k : string) (f : V -> V) (v : V) (d : list (string * V)) :
  Dict.update k f (Dict.set k v d) = Dict.set k (f v) d.
Proof. unfold Dict.update. rewrite DictFacts.get_set_eq. apply Dict_set_set. Qed.

Lemma elem_of_Dict_pop {V : Type} (k k' : string) (v : V) (d : list (string * V)) :
  (k, v) ∈ Dict.pop k' d <-> (k, v) ∈ d ∧ k ≠ k'.
Proof.
  unfold Dict.pop. rewrite elem_of_List_filter. simpl.
  rewrite negb_true_iff, bool_decide_eq_false. done.
Qed.

(** The guarded part of [load_provider] when the class is found and its
    [setup()] returns. *)
Lemma load_provider_body_setup_returns
    (m : ProviderManifest) (conf : ProviderConfig) (s : MusicAssistant)
    (members : list (string * Member)) (cls : ProviderBehaviour) :
  provider_modules s !! conf_domain conf = Some members ->
  find_provider_class m members = Some cls ->
  on_setup cls = None ->
  load_provider_body m conf s
  = if decide (manifest_type m = MUSIC)
    then start_sync None (Some [conf_instance_id conf]) (set_up m conf cls s)
    else (set_up m conf cls s, Ok tt).
Proof.
  intros Hmod Hcls Hsetup. unfold load_provider_body.
  rewrite (bind_Ok _ _ s s members) by (unfold import_module; by rewrite Hmod).
  rewrite (bind_Ok _ _ s s cls) by (unfold locate_class; by rewrite Hcls).
  set (provider := Provider__init__ m conf cls).
  change (instance_id provider) with (conf_instance_id conf).
  change (type provider) with (manifest_type m).
  set (id := conf_instance_id conf).
  set (s1 := with_providers (Dict.set id provider) s).
  rewrite (bind_Ok _ _ s s1 tt) by done.
  set (s2 := with_call (SetupCalled id) s1).
  set (s3 := with_providers (Dict.update id (set_available true)) s2).
  set (s4 := with_providers (Dict.update id (set_last_error None)) s3).
  assert (Hpre : ∀ k : unit -> Mass unit,
             bind (try_except (provider_setup provider) is_MusicAssistantError
                     (fun err =>
                        provider_assign id (set_last_error (Some (str_of_exn err))) >>
                        provider_assign id (set_available false) >> raise err))
                  (fun _ => provider_assign id (set_available true) >>
                            provider_assign id (set_last_error None) >> k tt) s1
             = k tt s4).
  { intros k. erewrite bind_Ok; [reflexivity|]. unfold try_except.
    rewrite provider_setup_spec. simpl. by rewrite Hsetup. }
  assert (Hs4 : s4 = set_up m conf cls s).
  { unfold s4, s3, s2, s1, set_up, with_providers, with_call. cbn [_providers].
    fold id. fold provider. rewrite !Dict_update_set. reflexivity. }
  destruct (decide (manifest_type m = MUSIC)).
  - rewrite (Hpre (fun _ => start_sync None (Some [id]))). by rewrite Hs4.
  - rewrite (Hpre (fun _ => ret tt)). by rewrite Hs4.
Qed.

(** [start_sync] for one instance that is registered under its id as a
    music provider. *)
Lemma start_sync_one_instance (id : string) (ready : Provider) (s : MusicAssistant) :
  Dict.get id (_providers s) = Some ready ->
  instance_id ready = id ->
  type ready = MUSIC ->
  ∃ s' new,
    start_sync None (Some [id]) s = (s', Ok tt)
    ∧ keeps_registry s s'
    ∧ calls s' = calls s ++ [MetadataScanStarted]
    ∧ in_progress_syncs s' = in_progress_syncs s ++ new
    ∧ (∀ st, st ∈ new -> media_types st = MediaType_ALL ∧ provider_instance st = id)
    ∧ ∃ m, covered id m (in_progress_syncs s').
Proof.
  intros Hreg Hid Hty. unfold start_sync.
  destruct (start_sync_loop MediaType_ALL [id] (music_providers s) s)
    as (s1 & new & E & K & C & I & N & V).
  { intros p _ Hp. apply list_elem_of_singleton in Hp. rewrite Hp. by exists ready. }
  exists (with_call MetadataScanStarted s1), new.
  cbn [default]. rewrite (bind_Ok _ _ _ _ _ E). split; [done|].
  split; [destruct K as (? & ? & ? & ?); by repeat split|].
  split; [simpl; by rewrite C|]. split; [exact I|]. split.
  - intros st Hst. destruct (N st Hst) as (? & Hin & _).
    by apply list_elem_of_singleton in Hin.
  - destruct (V ltac:(discriminate) ready) as (m & _ & Hm).
    + apply elem_of_music_providers. split; [|done].
      eapply elem_of_Dict_values, Dict_get_elem_of, Hreg.
    + rewrite Hid. apply list_elem_of_here.
    + exists m. simpl. by rewrite Hid in Hm.
Qed.

(** A [load_provider] that passes its guards, finds the class and whose
    [setup()] returns. *)
Lemma load_provider_setup_returns
    (s s1 : MusicAssistant) (conf : ProviderConfig) (m : ProviderManifest)
    (members : list (string * Member)) (cls : ProviderBehaviour) :
  unload_provider (conf_instance_id conf) s = (s1, Ok tt) ->
  enabled conf = true ->
  _available_providers s1 !! conf_domain conf = Some m ->
  (find (fun x => bool_decide (domain x = conf_domain conf)) (providers s1) = None
   ∨ multi_instance m = true) ->
  provider_modules s1 !! conf_domain conf = Some members ->
  find_provider_class m members = Some cls ->
  on_setup cls = None ->
  ∃ s' new,
    load_provider conf s = (s', Ok tt)
    ∧ _providers s'
      = Dict.set (conf_instance_id conf) (ready_provider m conf cls) (_providers s1)
    ∧ calls s'
      = calls s1 ++ SetupCalled (conf_instance_id conf)
                    :: (if decide (manifest_type m = MUSIC) then [MetadataScanStarted] else [])
    ∧ in_progress_syncs s' = in_progress_syncs s1 ++ new
    ∧ (∀ st, st ∈ new ->
             media_types st = MediaType_ALL ∧ provider_instance st = conf_instance_id conf)
    ∧ (manifest_type m = MUSIC ->
       ∃ mt, covered (conf_instance_id conf) mt (in_progress_syncs s'))
    ∧ (manifest_type m ≠ MUSIC -> new = []).
Proof.
  intros Hun Hen Hm Hex Hmod Hcls Hsetup.
  rewrite (load_provider_past_guards s s1 conf m Hun Hen Hm Hex).
  set (id := conf_instance_id conf). set (ready := ready_provider m conf cls).
  set (s4 := set_up m conf cls s1).
  assert (Hget4 : Dict.get id (_providers s4) = Some ready)
    by (simpl; apply DictFacts.get_set_eq).
  assert (Hbody : ∃ s5 new,
            load_provider_body m conf s1 = (s5, Ok tt)
            ∧ keeps_registry s4 s5
            ∧ calls s5 = calls s1 ++ SetupCalled id
                         :: (if decide (manifest_type m = MUSIC)
                             then [MetadataScanStarted] else [])
            ∧ in_progress_syncs s5 = in_progress_syncs s1 ++ new
            ∧ (∀ st, st ∈ new -> media_types st = MediaType_ALL ∧ provider_instance st = id)
            ∧ (manifest_type m = MUSIC -> ∃ mt, covered id mt (in_progress_syncs s5))
            ∧ (manifest_type m ≠ MUSIC -> new = [])).
  { rewrite (load_provider_body_setup_returns m conf s1 members cls Hmod Hcls Hsetup).
    fold id. fold s4. destruct (decide (manifest_type m = MUSIC)) as [Hty|Hty].
    - destruct (start_sync_one_instance id ready s4 Hget4 eq_refl Hty)
        as (s5 & new & E & K & C & I & N & V).
      exists s5, new. split; [exact E|]. split; [exact K|].
      split; [rewrite C; simpl; by rewrite <- app_assoc|].
      split; [exact I|]. split; [exact N|]. split; [done|]. done.
    - exists s4, []. split; [done|]. split; [apply keeps_registry_refl|].
      split; [done|]. split; [simpl; by rewrite app_nil_r|].
      split; [by intros st ?%elem_of_nil|]. split; [done|]. done. }
  destruct Hbody as (s5 & new & E5 & K5 & C5 & I5 & N5 & V5 & W5).
  assert (E5' : try_except (load_provider_body m conf) is_Exception (fun exc => ret tt) s1
                = (s5, Ok tt)) by (unfold try_except; by rewrite E5).
  rewrite (bind_Ok _ _ _ _ _ E5').
  rewrite (bind_Ok _ _ s5 s5 (get_providers None s5)) by done.
  destruct (signal_event_spec PROVIDERS_UPDATED None (ProvidersData (get_providers None s5)) s5)
    as (s6 & E6 & P6 & _ & _ & _ & _ & I6 & _ & C6 & _).
  exists s6, new. split; [exact E6|]. destruct K5 as (P5 & _).
  split; [by rewrite P6, P5|]. split; [by rewrite C6|]. rewrite I6.
  split; [exact I5|]. split; [exact N5|]. split; [exact V5|exact W5].
Qed.

(** X12. Bringing an instance up. For an enabled config that passes the
    guards of [load_provider] (the opening unload returned, the manifest is
    known, the single-instance check passes), whose package holds a
    provider class and whose [setup()] returns: [load_provider] returns
    normally; the instance is registered under the config's id, made from
    that manifest, config and class, marked available and without an
    error; [setup()] was called once and, for a music provider, the
    metadata scan was started after it; and a music provider has a sync in
    flight afterwards, which holds all five media types when no sync of
    that instance was in flight before. A provider of another type gets no
    sync. *)
Theorem load_provider_brings_up_instance
    (s s1 : MusicAssistant) (conf : ProviderConfig) (m : ProviderManifest)
    (members : list (string * Member)) (cls : ProviderBehaviour) :
  unload_provider (conf_instance_id conf) s = (s1, Ok tt) ->
  enabled conf = true ->
  _available_providers s1 !! conf_domain conf = Some m ->
  (find (fun x => bool_decide (domain x = conf_domain conf)) (providers s1) = None
   ∨ multi_instance m = true) ->
  provider_modules s1 !! conf_domain conf = Some members ->
  find_provider_class m members = Some cls ->
  on_setup cls = None ->
  ∃ s',
    load_provider conf s = (s', Ok tt)
    ∧ Dict.get (conf_instance_id conf) (_providers s') = Some (ready_provider m conf cls)
    ∧ available (ready_provider m conf cls) = true
    ∧ last_error (ready_provider m conf cls) = None
    ∧ calls s'
      = calls s1 ++ SetupCalled (conf_instance_id conf)
                    :: (if decide (manifest_type m = MUSIC) then [MetadataScanStarted] else [])
    ∧ (manifest_type m = MUSIC ->
       (∃ mt, covered (conf_instance_id conf) mt (in_progress_syncs s'))
       ∧ ((∀ st, st ∈ in_progress_syncs s1 -> provider_instance st ≠ conf_instance_id conf) ->
          ∀ mt, covered (conf_instance_id conf) mt (in_progress_syncs s')))
    ∧ (manifest_type m ≠ MUSIC -> in_progress_syncs s' = in_progress_syncs s1).
Proof.
  intros Hun Hen Hm Hex Hmod Hcls Hsetup.
  destruct (load_provider_setup_returns s s1 conf m members cls Hun Hen Hm Hex Hmod Hcls Hsetup)
    as (s' & new & E & P & C & I & N & V & W).
  exists s'. split; [exact E|].
  split; [rewrite P; apply DictFacts.get_set_eq|]. split; [done|]. split; [done|].
  split; [exact C|]. split.
  - intros Hty. split; [by apply V|]. intros Hnone mt.
    destruct (V Hty) as (mt0 & st & Hst & Hinst & _).
    rewrite I in Hst. apply elem_of_app in Hst as [Hst|Hst]; [by destruct (Hnone st Hst)|].
    exists st. split; [rewrite I; apply elem_of_app; by right|]. split; [done|].
    destruct (N st Hst) as [-> _]. unfold MediaType_ALL.
    destruct mt; rewrite !elem_of_cons; auto 10.
  - intros Hty. rewrite I, (W Hty). apply app_nil_r.
Qed.

Lemma load_provider_brings_up_instance_witness :
  ∃ s',
    load_provider (ex_config "files1" "filesystem") ex_startup = (s', Ok tt)
    ∧ Dict.get "files1" (_providers s')
      = Some (ready_provider (ex_manifest MUSIC "filesystem" true)
                (ex_config "files1" "filesystem") ex_behaviour)
    ∧ calls s' = [SetupCalled "files1"; MetadataScanStarted]
    ∧ ∀ mt, covered "files1" mt (in_progress_syncs s').
Proof.
  destruct (load_provider_brings_up_instance ex_startup ex_startup
              (ex_config "files1" "filesystem") (ex_manifest MUSIC "filesystem" true)
              [("FileSystemProvider", AClass ProviderSubclass ex_behaviour)] ex_behaviour)
    as (s' & E & Hp & _ & _ & Hc & Hm & _); try reflexivity.
  - by left.
  - exists s'. split; [exact E|]. split; [exact Hp|]. split; [exact Hc|].
    apply (proj2 (Hm eq_refl)). intros st Hst. by apply elem_of_nil in Hst.
Defined.

Lemma stop_sync_tasks_run (instance_id' : string) (s : MusicAssistant) :
  syncs_return_on_cancel instance_id' s ->
  ∃ s1, stop_sync_tasks instance_id' (length (in_progress_syncs s)) 0 s = (s1, Ok tt)
        ∧ stops_only_syncs s s1.
Proof.
  intros Hret.
  destruct (stop_sync_tasks_frame instance_id' (length (in_progress_syncs s)) 0 s)
    as (s1 & o & E & F).
  pose proof (stop_sync_tasks_returned instance_id' (length (in_progress_syncs s)) 0 s Hret)
    as Ho.
  rewrite E in Ho. simpl in Ho. subst o. by exists s1.
Qed.

(** [unload_provider] of a registered instance whose sync tasks return on
    cancellation: after the cancel-and-await loop comes [close()], and
    what follows depends on how it ends. *)
Lemma unload_provider_run (instance_id' : string) (provider : Provider) (s : MusicAssistant) :
  Dict.get instance_id' (_providers s) = Some provider ->
  syncs_return_on_cancel instance_id' s ->
  ∃ s1, stops_only_syncs s s1
        ∧ unload_provider instance_id' s
          = match on_close (behaviour provider) with
            | Some e => (with_call (CloseCalled (instance_id provider)) s1, Raise e)
            | None =>
                let s3 := with_providers (Dict.pop instance_id')
                            (with_call (CloseCalled (instance_id provider)) s1) in
                signal_event PROVIDERS_UPDATED None (ProvidersData (get_providers None s3)) s3
            end.
Proof.
  intros Hget Hret. destruct (stop_sync_tasks_run instance_id' s Hret) as (s1 & E1 & F1).
  exists s1. split; [exact F1|]. unfold unload_provider. rewrite Hget.
  rewrite (bind_Ok _ _ _ _ _ E1).
  pose proof (provider_close_spec provider s1) as E2.
  destruct (on_close (behaviour provider)) as [e|].
  - by rewrite (bind_Raise _ _ _ _ _ E2).
  - rewrite (bind_Ok _ _ _ _ _ E2).
    assert (E3 : providers_pop instance_id' (with_call (CloseCalled (instance_id provider)) s1)
                 = (with_providers (Dict.pop instance_id')
                      (with_call (CloseCalled (instance_id provider)) s1), Ok tt)).
    { unfold providers_pop. simpl. destruct F1 as (-> & _). by rewrite Hget. }
    rewrite (bind_Ok _ _ _ _ _ E3). reflexivity.
Qed.

(** X13. A [close()] that raises. Unloading a registered instance whose
    [close()] raises ends with that exception, which [unload_provider]
    does not catch: the instance stays in the registry exactly as it was,
    no [PROVIDERS_UPDATED] event is signalled, and [close()] was the last
    call made. A [load_provider] for a config with that instance id,
    enabled or not, begins with this unload and ends with the same
    exception in the same state: the new instance is never set up. *)
Theorem unload_provider_close_raises
    (s : MusicAssistant) (instance_id' : string) (provider : Provider) (e : Exn) :
  Dict.get instance_id' (_providers s) = Some provider ->
  syncs_return_on_cancel instance_id' s ->
  on_close (behaviour provider) = Some e ->
  ∃ s' cs evs,
    unload_provider instance_id' s = (s', Raise e)
    ∧ _providers s' = _providers s
    ∧ calls s' = calls s ++ cs ++ [CloseCalled (instance_id provider)]
    ∧ Forall (fun c => ∃ t, c = TaskCancelled t ∨ c = TaskAwaited t) cs
    ∧ signalled s' = signalled s ++ evs
    ∧ Forall (fun ev => event ev = SYNC_TASKS_UPDATED) evs
    ∧ ∀ conf, conf_instance_id conf = instance_id' -> load_provider conf s = (s', Raise e).
Proof.
  intros Hget Hret Hclose.
  destruct (unload_provider_run instance_id' provider s Hget Hret) as (s1 & F1 & E).
  rewrite Hclose in E.
  destruct F1 as (P1 & _ & _ & _ & _ & _ & (cs & C1 & Hcs) & (evs & S1 & Hevs)).
  exists (with_call (CloseCalled (instance_id provider)) s1), cs, evs.
  split; [exact E|]. split; [exact P1|]. split; [simpl; by rewrite C1, app_assoc|].
  split; [exact Hcs|]. split; [exact S1|]. split; [exact Hevs|].
  intros conf Hid. unfold load_provider. rewrite Hid. by rewrite (bind_Raise _ _ _ _ _ E).
Qed.

Lemma unload_provider_close_raises_witness :
  ∃ s', unload_provider "spotify1" ex_stuck_server
        = (s', Raise (OtherException "socket is gone"))
        ∧ _providers s' = _providers ex_stuck_server
        ∧ load_provider (ex_config "spotify1" "spotify") ex_stuck_server
          = (s', Raise (OtherException "socket is gone")).
Proof.
  destruct (unload_provider_close_raises ex_stuck_server "spotify1" ex_stuck
              (OtherException "socket is gone"))
    as (s' & cs & evs & E & P & _ & _ & _ & _ & L).
  - reflexivity.
  - intros st Hst. by apply elem_of_nil in Hst.
  - reflexivity.
  - exists s'. split; [exact E|]. split; [exact P|]. by apply L.
Defined.

(** X14. Reloading. [load_provider] for a config whose instance id is
    already registered closes the old instance before it sets the new one
    up: with sync tasks that return on cancellation, an old instance whose
    [close()] returns and a class whose [setup()] returns, the call
    returns normally, and the calls made are the cancellations and awaits
    of the old instance's sync tasks, then [close()] of the old instance,
    then [setup()] of the new one (then, for a music provider, the start
    of the metadata scan). The registry ends with the new instance under
    that id, available and made from the new config and class, and every
    other instance is registered as before. *)
Theorem load_provider_reloads_registered_instance
    (s : MusicAssistant) (conf : ProviderConfig) (old : Provider) (m : ProviderManifest)
    (members : list (string * Member)) (cls : ProviderBehaviour) :
  Dict.get (conf_instance_id conf) (_providers s) = Some old ->
  syncs_return_on_cancel (conf_instance_id conf) s ->
  on_close (behaviour old) = None ->
  enabled conf = true ->
  _available_providers s !! conf_domain conf = Some m ->
  (multi_instance m = true
   ∨ ∀ k p, (k, p) ∈ _providers s -> domain p = conf_domain conf -> k = conf_instance_id conf) ->
  provider_modules s !! conf_domain conf = Some members ->
  find_provider_class m members = Some cls ->
  on_setup cls = None ->
  ∃ s' cs,
    load_provider conf s = (s', Ok tt)
    ∧ Dict.get (conf_instance_id conf) (_providers s') = Some (ready_provider m conf cls)
    ∧ (∀ k, k ≠ conf_instance_id conf ->
            Dict.get k (_providers s') = Dict.get k (_providers s))
    ∧ calls s'
      = calls s ++ cs
        ++ CloseCalled (instance_id old) :: SetupCalled (conf_instance_id conf)
           :: (if decide (manifest_type m = MUSIC) then [MetadataScanStarted] else [])
    ∧ Forall (fun c => ∃ t, c = TaskCancelled t ∨ c = TaskAwaited t) cs.
Proof.
  intros Hget Hret Hclose Hen Hm Hsingle Hmod Hcls Hsetup.
  set (id := conf_instance_id conf) in *.
  destruct (unload_provider_run id old s Hget Hret) as (s1 & F1 & E).
  rewrite Hclose in E. cbv zeta in E.
  destruct F1 as (P1 & _ & A1 & M1 & _ & _ & (cs & C1 & Hcs) & _).
  set (s3 := with_providers (Dict.pop id) (with_call (CloseCalled (instance_id old)) s1)) in E.
  destruct (signal_event_spec PROVIDERS_UPDATED None (ProvidersData (get_providers None s3)) s3)
    as (s4 & E4 & P4 & _ & A4 & M4 & _ & _ & _ & C4 & _).
  rewrite E4 in E.
  assert (Hreg4 : _providers s4 = Dict.pop id (_providers s)) by (rewrite P4; simpl; by rewrite P1).
  destruct (load_provider_setup_returns s s4 conf m members cls)
    as (s' & new & E' & Hr' & Hc' & _); try done.
  - rewrite A4. simpl. by rewrite A1.
  - destruct Hsingle as [?|Hsole]; [by right|left].
    apply find_None_elem_of. intros p Hp. apply bool_decide_eq_false. intros Hdom.
    unfold providers in Hp. rewrite Hreg4 in Hp.
    apply DictFacts.elem_of_values in Hp as (k & Hk).
    apply elem_of_Dict_pop in Hk as [Hk Hne]. apply Hne. by eapply Hsole.
  - rewrite M4. simpl. by rewrite M1.
  - exists s', cs. split; [exact E'|].
    split; [rewrite Hr'; apply DictFacts.get_set_eq|]. split; [|split; [|exact Hcs]].
    + intros k Hk. rewrite Hr', Hreg4.
      rewrite DictFacts.get_set_ne by done. by apply DictFacts.get_pop_ne.
    + rewrite Hc', C4. simpl. rewrite C1, <- !app_assoc. done.
Qed.

Lemma load_provider_reloads_registered_instance_witness :
  ∃ s' cs,
    load_provider (ex_config "spotify1" "spotify") ex_idle = (s', Ok tt)
    ∧ calls s'
      = calls ex_idle ++ cs
        ++ [CloseCalled "spotify1"; SetupCalled "spotify1"; MetadataScanStarted].
Proof.
  destruct (load_provider_reloads_registered_instance ex_idle (ex_config "spotify1" "spotify")
              ex_spotify (ex_manifest MUSIC "spotify" false)
              [("SpotifyProvider", AClass ProviderSubclass ex_behaviour)] ex_behaviour)
    as (s' & cs & E & _ & _ & C & _); try reflexivity.
  - intros st Hst. by apply elem_of_nil in Hst.
  - right. intros k p Hp _. apply list_elem_of_singleton in Hp. by injection Hp as -> _.
  - exists s', cs. split; [exact E|exact C].
Defined.

(** ** Reading the manifests *)

Lemma same_but_manifests_refl (s : MusicAssistant) : same_but_manifests s s.
Proof. done. Qed.

Lemma same_but_manifests_trans (s1 s2 s3 : MusicAssistant) :
  same_but_manifests s1 s2 -> same_but_manifests s2 s3 -> same_but_manifests s1 s3.
Proof. unfold same_but_manifests. congruence. Qed.

(** One manifest file: whatever goes wrong is caught; a manifest that
    parses is filed under its domain, also when its requirements cannot be
    installed. *)
Lemma load_manifest_spec (parsed : Outcome ProviderManifest) (installed : option Exn)
    (s : MusicAssistant) :
  (∀ e, parsed = Raise e ∨ installed = Some e -> is_Exception e = true) ->
  load_manifest parsed installed s
  = (match parsed with
     | Ok m => with_available_providers (<[manifest_domain m := m]>) s
     | Raise _ => s
     end, Ok tt).
Proof.
  intros Hexn. unfold load_manifest, try_except.
  destruct parsed as [m|e]; simpl.
  - unfold bind, modify. destruct installed as [e|]; simpl; [|done].
    by rewrite (Hexn e) by (by right).
  - unfold bind, raise. by rewrite (Hexn e) by (by left).
Qed.

(** X15. Reading the manifests. When parsing a manifest and installing
    its requirements fail with ordinary exceptions only,
    [__load_available_providers] returns normally and changes nothing but
    the table of available providers. Every manifest in that table
    afterwards was there before or was parsed from a [manifest.json] of a
    directory of the providers folder, and is then filed under its own
    domain; so a table that files manifests under their domain stays one.
    Every [manifest.json] that parses makes its domain available, also
    when the installation of its requirements fails; a manifest that does
    not parse, a file of another name and an entry that is not a
    directory are passed over and stop nothing. *)
Theorem load_available_providers_files_manifests_by_domain
    (listing : list (string * PathEntry)) (s : MusicAssistant) :
  manifest_errors_are_exceptions listing ->
  ∃ s', __load_available_providers listing s = (s', Ok tt)
        ∧ same_but_manifests s s'
        ∧ (∀ d m, _available_providers s' !! d = Some m ->
                  _available_providers s !! d = Some m
                  ∨ (manifest_domain m = d ∧ manifest_found listing m))
        ∧ (∀ m, manifest_found listing m ->
                is_Some (_available_providers s' !! manifest_domain m))
        ∧ (∀ d, is_Some (_available_providers s !! d) ->
                is_Some (_available_providers s' !! d))
        ∧ (manifests_by_domain s -> manifests_by_domain s').
Proof.
  intros Hexn.
  set (R := fun a b : MusicAssistant =>
              same_but_manifests a b
              ∧ (∀ d m, _available_providers b !! d = Some m ->
                        _available_providers a !! d = Some m
                        ∨ (manifest_domain m = d ∧ manifest_found listing m))
              ∧ (∀ d, is_Some (_available_providers a !! d) ->
                      is_Some (_available_providers b !! d))).
  assert (Hrefl : ∀ a, R a a).
  { intros a. split; [done|]. split; [by left|done]. }
  assert (Htrans : ∀ a b c, R a b -> R b c -> R a c).
  { intros a b c (S1 & F1 & K1) (S2 & F2 & K2).
    split; [by eapply same_but_manifests_trans|]. split; [|by auto].
    intros d m Hm. destruct (F2 d m Hm) as [Hb|?]; [by apply F1|by right]. }
  assert (Hfile : ∀ dir_str files, (dir_str, Directory files) ∈ listing ->
            ∀ s0, ∃ s1,
              for_each files
                (fun file =>
                   match file.2 with
                   | NotAFile => ret tt
                   | RegularFile parsed requirements_installed =>
                       if negb (bool_decide (file.1 = "manifest.json")) then ret tt
                       else load_manifest parsed requirements_installed
                   end) s0 = (s1, Ok tt)
              ∧ R s0 s1
              ∧ ∀ file, file ∈ files ->
                        ∀ m inst, file = ("manifest.json", RegularFile (Ok m) inst) ->
                                  is_Some (_available_providers s1 !! manifest_domain m)).
  { intros dir_str files Hdir s0.
    apply (for_each_establishes (fun _ => True) R
             (fun file s1 => ∀ m inst, file = ("manifest.json", RegularFile (Ok m) inst) ->
                                       is_Some (_available_providers s1 !! manifest_domain m)));
      [exact Hrefl|exact Htrans|done| | |done].
    - intros file a b (_ & _ & K) Q m inst Hf. eapply K, Q, Hf.
    - intros [file_str file] a Hin _. simpl. destruct file as [parsed inst|].
      2:{ exists a. split; [done|]. split; [apply Hrefl|]. intros m inst [= ]. }
      destruct (bool_decide_reflect (file_str = "manifest.json")) as [->|Hne]; simpl.
      2:{ exists a. split; [done|]. split; [apply Hrefl|]. intros m inst' [= ]. done. }
      rewrite load_manifest_spec by (intros e He; eapply (Hexn dir_str files); eauto).
      destruct parsed as [m|e].
      + eexists. split; [reflexivity|]. split; [split; [done|split]|].
        * intros d m' Hm'. simpl in Hm'.
          apply lookup_insert_Some in Hm' as [[<- <-]|[_ Hm']]; [right|by left].
          split; [done|]. by exists dir_str, files, inst.
        * intros d Hd. simpl. destruct (decide (manifest_domain m = d)) as [<-|Hne].
          -- rewrite lookup_insert_eq. by eexists.
          -- by rewrite lookup_insert_ne.
        * intros m' inst' [= <- <-]. simpl. rewrite lookup_insert_eq. by eexists.
      + exists a. split; [done|]. split; [apply Hrefl|]. intros m inst' [= ]. }
  destruct (for_each_establishes (fun _ => True) R
              (fun dir s1 => ∀ files m inst,
                   dir.2 = Directory files ->
                   ("manifest.json", RegularFile (Ok m) inst) ∈ files ->
                   is_Some (_available_providers s1 !! manifest_domain m))
              (fun dir =>
                 match dir.2 with
                 | NotADirectory => ret tt
                 | Directory files =>
                     for_each files
                       (fun file =>
                          match file.2 with
                          | NotAFile => ret tt
                          | RegularFile parsed requirements_installed =>
                              if negb (bool_decide (file.1 = "manifest.json")) then ret tt
                              else load_manifest parsed requirements_installed
                          end)
                 end) listing Hrefl Htrans) with (s := s) as (s' & E & (S & F & K) & Q);
    [done| | |done|].
  - intros dir a b (_ & _ & K) Q files m inst Hd Hin. eapply K, Q; eauto.
  - intros [dir_str entry] a Hin _. simpl. destruct entry as [files|].
    + destruct (Hfile dir_str files Hin a) as (b & E & Rab & Q).
      exists b. split; [exact E|]. split; [exact Rab|].
      intros files' m inst [= <-] Hm. by eapply Q.
    + exists a. split; [done|]. split; [apply Hrefl|]. intros files m inst [= ].
  - exists s'. split; [exact E|]. split; [exact S|]. split; [exact F|]. split; [|split].
    + intros m (dir_str & files & inst & Hdir & Hm).
      by apply (Q (dir_str, Directory files) Hdir files m inst).
    + exact K.
    + intros Hby d m Hm. destruct (F d m Hm) as [?|[? _]]; [by apply Hby|done].
Qed.

Lemma load_available_providers_files_manifests_by_domain_witness :
  ∃ s', __load_available_providers ex_listing ex_empty = (s', Ok tt)
        ∧ is_Some (_available_providers s' !! "tidal")
        ∧ is_Some (_available_providers s' !! "spotify")
        ∧ manifests_by_domain s'.
Proof.
  destruct (load_available_providers_files_manifests_by_domain ex_listing ex_empty)
    as (s' & E & _ & _ & Q & _ & B).
  - intros dir_str files file_str parsed inst e Hdir Hfile He.
    destruct e; try reflexivity. exfalso. unfold ex_listing in Hdir.
    repeat (apply elem_of_cons in Hdir as [Hdir|Hdir]);
      try (by apply elem_of_nil in Hdir); try discriminate Hdir;
      injection Hdir as _ ->;
      repeat (apply elem_of_cons in Hfile as [Hfile|Hfile]);
      try (by apply elem_of_nil in Hfile); try discriminate Hfile;
      injection Hfile as _ -> ->; destruct He as [He|He]; discriminate He.
  - exists s'. split; [exact E|]. split; [|split].
    + apply (Q (ex_manifest MUSIC "tidal" true)).
      eexists "tidal", _, _. split.
      * apply list_elem_of_further, list_elem_of_further, list_elem_of_here.
      * apply list_elem_of_further, list_elem_of_here.
    + apply (Q (ex_manifest MUSIC "spotify" false)).
      eexists "spotify", _, _. split.
      * do 3 apply list_elem_of_further. apply list_elem_of_here.
      * apply list_elem_of_further, list_elem_of_here.
    + apply B. intros d m Hm. simpl in Hm. by rewrite lookup_empty in Hm.
Defined.
(** ** Shutting down *)

Lemma with_calls_nil (s : MusicAssistant) : with_calls [] s = s.
Proof. destruct s. unfold with_calls. simpl. by rewrite app_nil_r. Qed.

Lemma with_calls_cons (c : Call) (cs : list Call) (s : MusicAssistant) :
  with_calls cs (with_call c s) = with_calls (c :: cs) s.
Proof. unfold with_calls, with_call. simpl. by rewrite <- app_assoc. Qed.

Lemma with_calls_app (cs1 cs2 : list Call) (s : MusicAssistant) :
  with_calls cs2 (with_calls cs1 s) = with_calls (cs1 ++ cs2) s.
Proof. unfold with_calls. simpl. by rewrite <- app_assoc. Qed.

Lemma cancel_all_tasks (ts : list Task) (s : MusicAssistant) :
  for_each ts task_cancel s
  = (with_calls (map (fun t => TaskCancelled (task_id t)) ts) s, Ok tt).
Proof.
  revert s. induction ts as [|t ts IH]; intros s; simpl.
  - by rewrite with_calls_nil.
  - unfold bind at 1. unfold task_cancel at 1. unfold modify. rewrite IH.
    by rewrite with_calls_cons.
Qed.

(** The loop of [stop] that closes the providers stops at the first
    [close()] that raises. *)
Lemma close_providers_until_failure (ps : list Provider) (s : MusicAssistant) :
  (∀ q, q ∈ ps -> on_close (behaviour q) = None)
  ∧ for_each ps provider_close s
    = (with_calls (map (fun p => CloseCalled (instance_id p)) ps) s, Ok tt)
  ∨ ∃ before p after e,
      ps = before ++ p :: after
      ∧ (∀ q, q ∈ before -> on_close (behaviour q) = None)
      ∧ on_close (behaviour p) = Some e
      ∧ for_each ps provider_close s
        = (with_calls (map (fun p => CloseCalled (instance_id p)) (before ++ [p])) s, Raise e).
Proof.
  revert s. induction ps as [|p ps IH]; intros s.
  - left. split; [by intros q ?%elem_of_nil|]. simpl. by rewrite with_calls_nil.
  - assert (Hhead : for_each (p :: ps) provider_close s
                    = match on_close (behaviour p) with
                      | Some e => (with_call (CloseCalled (instance_id p)) s, Raise e)
                      | None => for_each ps provider_close
                                  (with_call (CloseCalled (instance_id p)) s)
                      end).
    { cbn [for_each]. unfold bind. rewrite provider_close_spec.
      by destruct (on_close (behaviour p)). }
    rewrite Hhead. clear Hhead.
    destruct (on_close (behaviour p)) as [e|] eqn:Hp.
    + right. exists [], p, ps, e. split; [done|]. split; [by intros q ?%elem_of_nil|].
      split; [done|]. reflexivity.
    + destruct (IH (with_call (CloseCalled (instance_id p)) s))
        as [[Hall E]|(before & p' & after & e & -> & Hb & Hp' & E)].
      * left. split.
        -- intros q [->|Hq]%elem_of_cons; auto.
        -- rewrite E. simpl. by rewrite with_calls_cons.
      * right. exists (p :: before), p', after, e. split; [done|]. split.
        -- intros q [->|Hq]%elem_of_cons; auto.
        -- split; [done|]. rewrite E. simpl. by rewrite with_calls_cons.
Qed.

Lemma split_first_failure (before before' after after' : list Provider) (p p' : Provider)
    (e : Exn) :
  before ++ p :: after = before' ++ p' :: after' ->
  (∀ q, q ∈ before -> on_close (behaviour q) = None) ->
  (∀ q, q ∈ before' -> on_close (behaviour q) = None) ->
  on_close (behaviour p) = Some e ->
  is_Some (on_close (behaviour p')) ->
  before = before' ∧ p = p'.
Proof.
  revert before'. induction before as [|b before IH]; intros [|b' before'] Heq Hb Hb' Hp Hp'.
  - by injection Heq as ->.
  - injection Heq as <- _. rewrite (Hb' p) in Hp; [done|apply list_elem_of_here].
  - injection Heq as -> _. rewrite (Hb p') in Hp'; [by destruct Hp'|apply list_elem_of_here].
  - injection Heq as -> Heq. destruct (IH before' Heq) as [-> ->]; try done.
    + intros q Hq. apply Hb. by apply list_elem_of_further.
    + intros q Hq. apply Hb'. by apply list_elem_of_further.
Qed.

(** The state in which [stop] begins its awaits. *)
Lemma stop_eq (c : Collaborators) (s : MusicAssistant) :
  stop c s
  = stop_awaits c
      (with_calls (map (fun t => TaskCancelled (task_id t)) (_tracked_tasks s))
         (with_closing true (signal_event SHUTDOWN None NoData s).1)).
Proof.
  unfold stop.
  destruct (signal_event_spec SHUTDOWN None NoData s) as (s1 & E1 & _ & _ & _ & _ & _ & _ & T1 & _).
  rewrite (bind_Ok _ _ _ _ _ E1). rewrite E1. cbn [fst].
  rewrite (bind_Ok _ _ s1 (with_closing true s1) tt) by done.
  erewrite bind_Ok; [reflexivity|]. simpl. rewrite T1. apply cancel_all_tasks.
Qed.

(** The awaits of [stop] change nothing but the record of calls, to which
    they add the [close()] calls of providers. *)
Lemma stop_awaits_frame (c : Collaborators) (s : MusicAssistant) :
  ∃ o closed, stop_awaits c s = (with_calls (map CloseCalled closed) s, o).
Proof.
  assert (Hnone : ∀ o : Outcome unit, (s, o) = (with_calls (map CloseCalled []) s, o))
    by (intros o; simpl; by rewrite with_calls_nil).
  unfold stop_awaits, music_close.
  destruct (streams_close c) as [e|]; [exists (Raise e), []; apply Hnone|].
  destruct (web_tcp_stop c) as [e|]; [exists (Raise e), []; apply Hnone|].
  destruct (web_apprunner_cleanup c) as [e|]; [exists (Raise e), []; apply Hnone|].
  destruct (webapp_shutdown c) as [e|]; [exists (Raise e), []; apply Hnone|].
  destruct (webapp_cleanup c) as [e|]; [exists (Raise e), []; apply Hnone|].
  destruct (metadata_close c) as [e|]; [exists (Raise e), []; apply Hnone|].
  destruct (players_close c) as [e|]; [exists (Raise e), []; apply Hnone|].
  cbn [bind await_collaborator ret]. unfold bind at 1. cbv beta.
  destruct (close_providers_until_failure (Dict.values (_providers s)) s)
    as [[_ E]|(before & p & after & e & _ & _ & _ & E)]; rewrite E.
  - exists (match config_close c with
            | Some e => Raise e
            | None => match cache_close c with
                      | Some e => Raise e
                      | None => match http_session c with
                                | Some (Some e) => Raise e
                                | _ => Ok tt
                                end
                      end
            end), (map instance_id (Dict.values (_providers s))).
    rewrite map_map.
    destruct (config_close c); [done|]. destruct (cache_close c); [done|].
    by destruct (http_session c) as [[|]|].
  - exists (Raise e), (map instance_id (before ++ [p])). by rewrite map_map.
Qed.

Lemma scheduled_signal_event (ev : EventType) (oid : option string) (d : EventData)
    (s : MusicAssistant) :
  scheduled (signal_event ev oid d s).1 = scheduled s ++ newly_scheduled ev oid d s.
Proof.
  destruct (closing s) eqn:Hc.
  - rewrite newly_scheduled_closing by done. unfold signal_event. rewrite Hc. simpl.
    by rewrite app_nil_r.
  - by destruct (newly_scheduled_open ev oid d s Hc) as [_ ->].
Qed.

(** X16. Shutting down the bus. However its awaits end, [stop] signals
    [SHUTDOWN] to the listeners that match it before anything else (on a
    server that was not closing already, and then exactly once), sets
    [closing], and asks every tracked task to cancel, in the order the
    tasks were created; from then on [signal_event] does nothing, whatever
    the event; the only other calls [stop] makes to what the model records
    are [close()] calls of providers; and it unregisters no provider. *)
Theorem stop_signals_shutdown_then_silences_bus (c : Collaborators) (s : MusicAssistant) :
  ∃ s' o closed,
    stop c s = (s', o)
    ∧ closing s' = true
    ∧ signalled s' = signalled s ++ (if closing s then [] else [mkEvent SHUTDOWN None NoData])
    ∧ scheduled s' = scheduled s ++ newly_scheduled SHUTDOWN None NoData s
    ∧ calls s'
      = calls s ++ map (fun t => TaskCancelled (task_id t)) (_tracked_tasks s)
        ++ map CloseCalled closed
    ∧ _providers s' = _providers s
    ∧ ∀ ev oid d, signal_event ev oid d s' = (s', Ok tt).
Proof.
  rewrite stop_eq.
  destruct (signal_event_spec SHUTDOWN None NoData s)
    as (s1 & E1 & P1 & _ & _ & _ & _ & _ & _ & C1 & S1).
  pose proof (scheduled_signal_event SHUTDOWN None NoData s) as Hsch.
  rewrite E1 in *. cbn [fst] in *.
  set (s3 := with_calls _ (with_closing true s1)).
  destruct (stop_awaits_frame c s3) as (o & closed & E).
  exists (with_calls (map CloseCalled closed) s3), o, closed. split; [exact E|].
  simpl. split; [done|]. split; [exact S1|]. split; [exact Hsch|].
  split; [by rewrite C1, <- app_assoc|]. split; [exact P1|]. done.
Qed.

(** X17. Closing the providers on shutdown. When the controllers that
    [stop] awaits first all close, the providers are closed in
    registration order with no handler around them. If every [close()]
    returns, every registered provider is closed, and [stop] returns
    normally when the config, the cache and the http session close too. If
    some [close()] raises, [stop] ends with the exception of the first
    one that does: the providers registered before it were closed, those
    registered after it are never closed. *)
Theorem stop_closes_providers_in_registration_order
    (c : Collaborators) (s : MusicAssistant) :
  controllers_close c ->
  ((∀ p, p ∈ providers s -> on_close (behaviour p) = None) ->
   ∃ s' o,
     stop c s = (s', o)
     ∧ calls s'
       = calls s ++ map (fun t => TaskCancelled (task_id t)) (_tracked_tasks s)
         ++ map (fun p => CloseCalled (instance_id p)) (providers s)
     ∧ (config_close c = None -> cache_close c = None ->
        http_session c = None ∨ http_session c = Some None ->
        o = Ok tt))
  ∧ (∀ before p after e,
       providers s = before ++ p :: after ->
       (∀ q, q ∈ before -> on_close (behaviour q) = None) ->
       on_close (behaviour p) = Some e ->
       ∃ s',
         stop c s = (s', Raise e)
         ∧ calls s'
           = calls s ++ map (fun t => TaskCancelled (task_id t)) (_tracked_tasks s)
             ++ map (fun p => CloseCalled (instance_id p)) (before ++ [p])).
Proof.
  intros (H1 & H2 & H3 & H4 & H5 & H6 & H7).
  destruct (signal_event_spec SHUTDOWN None NoData s)
    as (s1 & E1 & P1 & _ & _ & _ & _ & _ & _ & C1 & _).
  assert (Heq : ∀ s3, stop_awaits c s3
            = ((fun s => for_each (Dict.values (_providers s)) provider_close s) >>
               await_collaborator (config_close c) >>
               await_collaborator (cache_close c) >>
               match http_session c with
               | Some outcome => await_collaborator outcome
               | None => ret tt
               end) s3).
  { intros s3. unfold stop_awaits. by rewrite H1, H2, H3, H4, H5, H6, H7. }
  set (s3 := with_calls (map (fun t => TaskCancelled (task_id t)) (_tracked_tasks s))
               (with_closing true s1)).
  assert (Hstop : stop c s
            = (for_each (providers s) provider_close >>
               await_collaborator (config_close c) >>
               await_collaborator (cache_close c) >>
               match http_session c with
               | Some outcome => await_collaborator outcome
               | None => ret tt
               end) s3).
  { rewrite stop_eq, E1. cbn [fst]. fold s3. rewrite Heq.
    assert (Hprov : Dict.values (_providers s3) = providers s)
      by (unfold providers; by rewrite <- P1).
    unfold bind at 1 3. cbv beta. by rewrite Hprov. }
  rewrite Hstop. clear Hstop Heq.
  destruct (close_providers_until_failure (providers s) s3)
    as [[Hall E]|(before' & p' & after' & e' & Hl' & Hb' & Hp' & E)].
  - rewrite (bind_Ok _ _ _ _ _ E). split.
    + intros _.
      destruct (config_close c) as [e1|]; [|destruct (cache_close c) as [e2|];
        [|destruct (http_session c) as [[e3|]|]]];
        (eexists _, _; split; [reflexivity|]); simpl;
        (split; [by rewrite C1, <- app_assoc|]); try done.
      by intros _ _ [?|?].
    + intros before p after e Hl Hb Hp. rewrite (Hall p) in Hp; [done|].
      rewrite Hl. apply elem_of_app. right. apply list_elem_of_here.
  - rewrite (bind_Raise _ _ _ _ _ E). split.
    + intros Hall. rewrite (Hall p') in Hp'; [done|].
      rewrite Hl'. apply elem_of_app. right. apply list_elem_of_here.
    + intros before p after e Hl Hb Hp.
      destruct (split_first_failure before before' after after' p p' e) as [-> ->];
        try done; [congruence|].
      assert (e' = e) as -> by congruence.
      eexists. split; [reflexivity|]. simpl. by rewrite C1, <- app_assoc.
Qed.

Lemma stop_closes_providers_in_registration_order_witness :
  ∃ s', stop ex_collaborators ex_two_providers = (s', Raise (OtherException "socket is gone"))
        ∧ calls s' = [CloseCalled "spotify1"].
Proof.
  destruct (stop_closes_providers_in_registration_order ex_collaborators ex_two_providers)
    as [_ H].
  - by repeat split.
  - destruct (H [] ex_stuck [ex_files] (OtherException "socket is gone"))
      as (s' & E & C); try reflexivity.
    + by intros q ?%elem_of_nil.
    + exists s'. split; [exact E|exact C].
Defined.
(** ** File extensions ([FileSystemItem.ext]) *)

Lemma after_last_dot_app (base e : string) :
  after_last_dot e = None -> after_last_dot (base +:+ "." +:+ e) = Some e.
Proof.
  intros He. induction base as [|c base IH].
  - change (after_last_dot (String "." e) = Some e). simpl. by rewrite He.
  - change (after_last_dot (String c (base +:+ "." +:+ e)) = Some e). simpl. by rewrite IH.
Qed.

Lemma after_last_dot_Some (s e : string) :
  after_last_dot s = Some e -> ∃ base, s = base +:+ "." +:+ e ∧ after_last_dot e = None.
Proof.
  revert e. induction s as [|c s IH]; simpl; intros e; [done|].
  destruct (after_last_dot s) as [e'|] eqn:Hs.
  - intros [= <-]. destruct (IH e' eq_refl) as (base & -> & He).
    by exists (String c base).
  - destruct (Ascii.eqb_spec c ".") as [->|Hne]; [|done].
    intros [= <-]. by exists "".
Qed.

Lemma supported_extensions_plain (e : string) :
  e ∈ SUPPORTED_EXTENSIONS -> after_last_dot e = None ∧ e ≠ "".
Proof.
  unfold SUPPORTED_EXTENSIONS, TRACK_EXTENSIONS, PLAYLIST_EXTENSIONS. simpl.
  rewrite !elem_of_cons, elem_of_nil.
  intros H. repeat destruct H as [->|H]; try done.
Qed.

(** X18. Which files are synced. An item passes the guards of the walk
    loop exactly when its name is some text, a dot, and one of the eleven
    supported extensions, written as in the list (in lower case); its
    [ext] is then that extension, also when the text before the last dot
    holds dots itself or is empty. *)
Theorem supported_iff_name_ends_in_supported_extension (item : FileSystemItem) :
  supported item = true
  <-> ∃ base e, name item = base +:+ "." +:+ e
                ∧ e ∈ SUPPORTED_EXTENSIONS
                ∧ ext item = Some e.
Proof.
  unfold supported, ext. split.
  - destruct (after_last_dot (name item)) as [e|] eqn:He; [|done].
    destruct e as [|c e]; [done|]. intros Hin%bool_decide_eq_true.
    destruct (after_last_dot_Some _ _ He) as (base & Hname & _).
    by exists base, (String c e).
  - intros (base & e & Hname & Hin & _).
    destruct (supported_extensions_plain e Hin) as [Hplain Hne].
    rewrite Hname, (after_last_dot_app base e Hplain).
    destruct e as [|c e]; [done|]. by apply bool_decide_eq_true.
Qed.

(** ** Runs of [sync_library] *)

Lemma walk_checksums_from (m : Checksums) (walk : list FileSystemItem) (p c : string) :
  foldl record_item m walk !! p = Some c ->
  m !! p = Some c
  ∨ ∃ item, item ∈ walk ∧ supported item = true ∧ path item = p ∧ checksum item = c.
Proof.
  revert m. induction walk as [|x walk IH]; intros m; cbn [foldl]; [by left|].
  intros H. destruct (IH _ H) as [Hm|(item & Hin & ?)].
  - unfold record_item in Hm. destruct (supported x) eqn:Hs; [|by left].
    apply lookup_insert_Some in Hm as [[<- <-]|[_ Hm]]; [right|by left].
    exists x. split; [apply list_elem_of_here|done].
  - right. exists item. split; [by apply list_elem_of_further|done].
Qed.

Lemma walk_checksums_is_Some (m : Checksums) (walk : list FileSystemItem) (p : string) :
  is_Some (foldl record_item m walk !! p) <-> is_Some (m !! p) ∨ walked walk p.
Proof.
  revert m. induction walk as [|x walk IH]; intros m; cbn [foldl].
  - split; [by left|]. intros [?|(item & ?%elem_of_nil & _)]; done.
  - rewrite IH. unfold record_item, walked. split.
    + intros [Hm|(item & Hin & Hs & Hp)].
      * destruct (supported x) eqn:Hs; [|by left].
        destruct (decide (path x = p)) as [Hp|Hp].
        -- right. exists x. split; [apply list_elem_of_here|done].
        -- rewrite lookup_insert_ne in Hm by done. by left.
      * right. exists item. split; [by apply list_elem_of_further|done].
    + intros [Hm|(item & [->|Hin]%elem_of_cons & Hs & Hp)].
      * left. destruct (supported x); [|done].
        destruct (decide (path x = p)) as [Hp|Hp].
        -- rewrite Hp, lookup_insert_eq. by eexists.
        -- by rewrite lookup_insert_ne.
      * left. rewrite Hs, Hp, lookup_insert_eq. by eexists.
      * right. by exists item.
Qed.

Lemma flat_map_nil {A B : Type} (f : A -> list B) (l : list A) :
  (∀ x, x ∈ l -> f x = []) -> flat_map f l = [].
Proof.
  induction l as [|a l IH]; intros H; simpl; [done|].
  rewrite (H a) by apply list_elem_of_here. apply IH. intros x Hx. apply H.
  by apply list_elem_of_further.
Qed.

Lemma prev_checksums_of_saved (cache0 : Cache) (instance_id' : string) (V : Z) (m : Checksums) :
  prev_checksums_of (<[checksums_key instance_id' := (V, m)]> cache0) instance_id' V = m.
Proof.
  unfold prev_checksums_of, cache_get. rewrite lookup_insert_eq. by rewrite decide_True.
Qed.

(** How a call of [_process_deletions] ends depends on the paths alone,
    not on their order nor on what the controllers know: normally when
    every path has a dot, with the [ValueError] of the unpacking
    otherwise. *)
Lemma process_deletions_outcome (db_item : Controller -> string -> option string)
    (l : list string) (calls0 : list DeletionCall) :
  (_process_deletions db_item l calls0).2
  = if decide (Forall (fun p => is_Some (after_last_dot p)) l) then Ok tt
    else Raise (ValueError "not enough values to unpack (expected 2, got 1)").
Proof.
  revert calls0. induction l as [|p l IH]; intros calls0.
  { by rewrite decide_True by constructor. }
  unfold _process_deletions in *. cbn [for_each]. unfold bind at 1.
  destruct (after_last_dot p) as [ext|] eqn:Hp.
  - assert (Hrest : ∀ calls1,
              (for_each l
                 (fun file_path =>
                    match after_last_dot file_path with
                    | None => raise (ValueError "not enough values to unpack (expected 2, got 1)")
                    | Some ext =>
                        if negb (bool_decide (ext ∈ SUPPORTED_EXTENSIONS)) then ret tt
                        else
                          let controller :=
                            if bool_decide (ext ∈ PLAYLIST_EXTENSIONS)
                            then get_controller PLAYLIST else get_controller TRACK in
                          modify (fun calls => calls ++ [GetDbItemByProvId controller file_path]) >>
                          match db_item controller file_path with
                          | Some db_item_id =>
                              modify
                                (fun calls => calls ++ [RemoveProvMapping controller db_item_id])
                          | None => ret tt
                          end
                    end) calls1).2
              = if decide (Forall (fun p => is_Some (after_last_dot p)) (p :: l)) then Ok tt
                else Raise (ValueError "not enough values to unpack (expected 2, got 1)")).
    { intros calls1. rewrite IH.
      destruct (decide (Forall (fun p => is_Some (after_last_dot p)) l)) as [Hl|Hl].
      - rewrite decide_True; [done|]. constructor; [by eexists|done].
      - rewrite decide_False; [done|]. intros H. apply Hl. by inversion H. }
    destruct (bool_decide (ext ∈ SUPPORTED_EXTENSIONS)); cbn [negb].
    + cbv zeta. unfold bind, modify, ret.
      destruct (db_item (if bool_decide (ext ∈ PLAYLIST_EXTENSIONS)
                         then get_controller PLAYLIST else get_controller TRACK) p);
        apply Hrest.
    + unfold ret. apply Hrest.
  - unfold raise. cbn [snd].
    rewrite decide_False; [done|]. intros H. inversion H as [|? ? [? Hs] _]; subst.
    by rewrite Hp in Hs.
Qed.

(** X19. Syncing twice. On a walk that lists no path with two different
    checksums, and with parsers that fail with ordinary exceptions only, a
    second run of [sync_library] over the same walk, started from the
    cache the first run left, returns normally, parses nothing and upserts
    nothing: its only call is the processing of an empty set of
    deletions, and it leaves the cache as it found it. This holds whatever
    the first run started from, whether or not its parsers succeeded, and
    also when the first run ended with the [ValueError] of
    [_process_deletions]: the checksums were stored before that call. *)
Theorem sync_library_second_run_parses_nothing
    (ps : Parsers) (instance_id' : string) (SCHEMA_VERSION : Z)
    (walk : list FileSystemItem) (cache0 : Cache) :
  raise_only_exceptions ps ->
  one_checksum_per_path walk ->
  ∃ st1 o1 st2,
    sync_library ps instance_id' SCHEMA_VERSION walk cache0 = (st1, o1)
    ∧ (o1 = Ok tt ∨ o1 = Raise (ValueError "not enough values to unpack (expected 2, got 1)"))
    ∧ sync_library ps instance_id' SCHEMA_VERSION walk (cache st1) = (st2, Ok tt)
    ∧ sync_calls st2 = [ProcessDeletions ∅]
    ∧ cache st2 = cache st1.
Proof.
  intros Hps Hone.
  destruct (sync_library_run ps instance_id' SCHEMA_VERSION walk cache0 Hps)
    as (st1 & o1 & E1 & _ & Hval & _ & C1).
  destruct (sync_library_run ps instance_id' SCHEMA_VERSION walk (cache st1) Hps)
    as (st2 & o2 & E2 & Hok & _ & K2 & C2).
  rewrite C1 in K2, C2, Hok. rewrite prev_checksums_of_saved in K2, Hok.
  rewrite difference_diag_L in K2, Hok.
  assert (o2 = Ok tt) as -> by (apply Hok; intros p Hp; by apply elem_of_empty in Hp).
  exists st1, o1, st2. split; [exact E1|]. split; [exact Hval|]. split; [exact E2|]. split.
  - rewrite K2, flat_map_nil; [done|].
    intros item Hin. unfold calls_for_item.
    destruct (supported item) eqn:Hs; [|done]. cbn [andb].
    assert (Hsame : walk_checksums walk !! path item = Some (checksum item)).
    { destruct (proj2 (walk_checksums_is_Some ∅ walk (path item))) as [c Hc].
      { right. by exists item. }
      fold (walk_checksums walk) in Hc. rewrite Hc. f_equal.
      destruct (walk_checksums_from ∅ walk _ _ Hc) as [Hm|(item' & Hin' & Hs' & Hp' & <-)].
      - by rewrite lookup_empty in Hm.
      - by apply Hone. }
    unfold changed. by rewrite (bool_decide_eq_true_2 _ Hsame).
  - rewrite C2, C1. apply insert_insert_eq.
Qed.

Lemma sync_library_second_run_parses_nothing_witness :
  ∃ st1 st2,
    sync_library ex_failing_parsers "files1" 18 ex_walk_mix ex_prior_readme
    = (st1, Raise (ValueError "not enough values to unpack (expected 2, got 1)"))
    ∧ sync_library ex_failing_parsers "files1" 18 ex_walk_mix (cache st1) = (st2, Ok tt)
    ∧ sync_calls st2 = [ProcessDeletions ∅].
Proof.
  destruct (sync_library_second_run_parses_nothing ex_failing_parsers "files1" 18
              ex_walk_mix ex_prior_readme) as (st1 & o1 & st2 & E1 & _ & E2 & K & _).
  - intros p e [H|H]; [injection H as <-; reflexivity|discriminate H].
  - intros item item' Hi Hi' _ _ Hp. unfold ex_walk_mix in Hi, Hi'.
    rewrite !elem_of_cons, elem_of_nil in Hi, Hi'.
    destruct Hi as [->|[->|[]]], Hi' as [->|[->|[]]]; try reflexivity; discriminate Hp.
  - exists st1, st2. split; [|split; [exact E2|exact K]].
    rewrite E1. f_equal.
    assert (Ho : (sync_library ex_failing_parsers "files1" 18 ex_walk_mix ex_prior_readme).2
                 = Raise (ValueError "not enough values to unpack (expected 2, got 1)"))
      by (vm_compute; reflexivity).
    by rewrite E1 in Ho.
Defined.

(** X20. What is reported as deleted. With parsers that fail with
    ordinary exceptions only, the last call of [sync_library], and its
    only call of that kind, hands [_process_deletions] the set of deleted
    paths: a path is in it exactly when the previous run recorded it and
    the present walk has no supported item of that path. A file that is
    still there but has changed, or that could not be parsed, is not
    reported. The run ends as [_process_deletions] ends on that set, in
    whatever order it walks the set and whatever the controllers know:
    normally exactly when every deleted path has a dot. *)
Theorem sync_library_reports_vanished_paths
    (ps : Parsers) (instance_id' : string) (SCHEMA_VERSION : Z)
    (walk : list FileSystemItem) (cache0 : Cache) :
  raise_only_exceptions ps ->
  ∃ st o deleted_files,
    sync_library ps instance_id' SCHEMA_VERSION walk cache0 = (st, o)
    ∧ last (sync_calls st) = Some (ProcessDeletions deleted_files)
    ∧ (∀ D, ProcessDeletions D ∈ sync_calls st -> D = deleted_files)
    ∧ (∀ p, p ∈ deleted_files
            <-> is_Some (prev_checksums_of cache0 instance_id' SCHEMA_VERSION !! p)
                ∧ ¬ walked walk p)
    ∧ (o = Ok tt <-> ∀ p, p ∈ deleted_files -> is_Some (after_last_dot p))
    ∧ (∀ db_item l calls0,
         (∀ p, p ∈ l <-> p ∈ deleted_files) ->
         (_process_deletions db_item l calls0).2 = o).
Proof.
  intros Hps.
  destruct (sync_library_run ps instance_id' SCHEMA_VERSION walk cache0 Hps)
    as (st & o & E & Hok & Hval & K & _).
  set (prev := prev_checksums_of cache0 instance_id' SCHEMA_VERSION) in *.
  exists st, o, (dom prev ∖ dom (walk_checksums walk)). split; [exact E|]. rewrite K.
  split; [apply last_snoc|]. split; [|split; [|split; [exact Hok|]]].
  - intros D [Hin|Hin]%elem_of_app; [|by apply list_elem_of_singleton in Hin as [= ->]].
    apply elem_of_flat_map in Hin as (item & _ & Hc). unfold calls_for_item in Hc.
    destruct (supported item && changed prev item); [|by apply elem_of_nil in Hc].
    destruct (is_track item).
    + destruct (get_track ps (path item)); rewrite !elem_of_cons, ?elem_of_nil in Hc;
        destruct Hc as [?|Hc]; try done; by destruct Hc.
    + destruct (get_playlist ps (path item)); rewrite !elem_of_cons, ?elem_of_nil in Hc;
        destruct Hc as [?|Hc]; try done; by destruct Hc.
  - intros p. rewrite elem_of_difference, !elem_of_dom. unfold walk_checksums.
    rewrite walk_checksums_is_Some. split.
    + intros [Hp Hn]. split; [done|]. intros Hw. apply Hn. by right.
    + intros [Hp Hn]. split; [done|]. intros [[? Hm]|Hw]; [by rewrite lookup_empty in Hm|done].
  - intros db_item l calls0 Hl. rewrite process_deletions_outcome.
    destruct (decide (Forall (fun p => is_Some (after_last_dot p)) l)) as [Hall|Hn].
    + symmetry. apply Hok. intros p Hp. rewrite Forall_forall in Hall. apply Hall.
      by apply Hl.
    + destruct Hval as [Ho|Ho]; rewrite Ho in *; [|done]. destruct Hn. apply Forall_forall.
      intros p Hp. apply (proj1 Hok eq_refl). by apply Hl.
Qed.

Lemma sync_library_reports_vanished_paths_witness :
  ∃ st deleted_files,
    sync_library ex_parsers "files1" 18 [ex_file "b.mp3" "9"] ex_prior = (st, Ok tt)
    ∧ last (sync_calls st) = Some (ProcessDeletions deleted_files)
    ∧ "a.mp3" ∈ deleted_files
    ∧ "b.mp3" ∉ deleted_files.
Proof.
  destruct (sync_library_reports_vanished_paths ex_parsers "files1" 18 [ex_file "b.mp3" "9"]
              ex_prior) as (st & o & D & E & L & _ & H & Hok & _).
  - intros p e [H|H]; discriminate H.
  - exists st, D. split; [|split; [exact L|split]].
    + rewrite E. f_equal. apply Hok. intros p Hp. apply H in Hp as [[c Hp] _].
      change (prev_checksums_of ex_prior "files1" 18)
        with (<["a.mp3" := "1"]> (<["b.mp3" := "2"]> (∅ : Checksums))) in Hp.
      apply lookup_insert_Some in Hp as [[<- _]|[_ Hp]]; [by eexists|].
      apply lookup_insert_Some in Hp as [[<- _]|[_ Hp]]; [by eexists|].
      by rewrite lookup_empty in Hp.
    + apply H. split; [by eexists|].
      intros (item & Hin & _ & Hp). apply list_elem_of_singleton in Hin as ->. discriminate Hp.
    + intros [_ Hn]%H. apply Hn. exists (ex_file "b.mp3" "9").
      split; [apply list_elem_of_here|]. split; reflexivity.
Defined.

(** X21. A cache of another schema version. When the cache holds no
    checksum map for the instance under the current schema version (none
    at all, or one written under another version), [sync_library] starts
    from the empty map: every supported item of the walk is parsed, a
    track that parses is upserted with [overwrite_existing] unset, and the
    set of deletions processed is empty, whatever the old map recorded.
    The map of the walk is then stored under the current version. *)
Theorem sync_library_ignores_cache_of_other_version
    (ps : Parsers) (instance_id' : string) (SCHEMA_VERSION : Z)
    (walk : list FileSystemItem) (cache0 : Cache) :
  raise_only_exceptions ps ->
  (∀ data, cache0 !! checksums_key instance_id' ≠ Some (SCHEMA_VERSION, data)) ->
  ∃ st,
    sync_library ps instance_id' SCHEMA_VERSION walk cache0 = (st, Ok tt)
    ∧ (∀ item, item ∈ walk -> supported item = true ->
               GetTrack (path item) ∈ sync_calls st ∨ GetPlaylist (path item) ∈ sync_calls st)
    ∧ (∀ track overwrite_existing,
         TracksAddDbItem track overwrite_existing ∈ sync_calls st -> overwrite_existing = false)
    ∧ last (sync_calls st) = Some (ProcessDeletions ∅)
    ∧ cache_get (cache st) (checksums_key instance_id') SCHEMA_VERSION
      = Some (walk_checksums walk).
Proof.
  intros Hps Hother.
  destruct (sync_library_run ps instance_id' SCHEMA_VERSION walk cache0 Hps)
    as (st & o & E & Hok & _ & K & C).
  assert (Hprev : prev_checksums_of cache0 instance_id' SCHEMA_VERSION = ∅).
  { unfold prev_checksums_of, cache_get.
    destruct (cache0 !! checksums_key instance_id') as [[v data]|] eqn:Hc; [|done].
    destruct (decide (v = SCHEMA_VERSION)) as [->|]; [|done]. by destruct (Hother data). }
  rewrite Hprev in K, Hok.
  assert (o = Ok tt) as ->.
  { apply Hok. intros p Hp. apply elem_of_difference in Hp as [Hp _].
    rewrite dom_empty_L in Hp. by apply elem_of_empty in Hp. }
  exists st. split; [exact E|]. rewrite K. split; [|split; [|split]].
  - intros item Hin Hs.
    assert (Hcall : GetTrack (path item) ∈ calls_for_item ps ∅ item
                    ∨ GetPlaylist (path item) ∈ calls_for_item ps ∅ item).
    { apply parser_call_for_item. split; [done|]. split; [done|]. by rewrite lookup_empty. }
    destruct Hcall as [Hc|Hc]; [left|right]; apply elem_of_app; left;
      apply elem_of_flat_map; by exists item.
  - intros track o [Hin|Hin]%elem_of_app; [|by apply list_elem_of_singleton in Hin].
    apply elem_of_flat_map in Hin as (item & _ & Hc). unfold calls_for_item in Hc.
    destruct (supported item && changed ∅ item); [|by apply elem_of_nil in Hc].
    destruct (is_track item).
    + destruct (get_track ps (path item)); rewrite !elem_of_cons, ?elem_of_nil in Hc.
      * destruct Hc as [?|[[= _ ->]|[]]]; [done|]. unfold known.
        apply bool_decide_eq_false. rewrite lookup_empty. by intros [? ?].
      * by destruct Hc as [?|[]].
    + destruct (get_playlist ps (path item)); rewrite !elem_of_cons, ?elem_of_nil in Hc.
      * by destruct Hc as [?|[?|[]]].
      * by destruct Hc as [?|[]].
  - rewrite last_snoc. do 2 f_equal. rewrite dom_empty_L. apply difference_disjoint_L.
    set_solver.
  - rewrite C. unfold cache_get. rewrite lookup_insert_eq. by rewrite decide_True.
Qed.

Lemma sync_library_ignores_cache_of_other_version_witness :
  ∃ st,
    sync_library ex_parsers "files1" 19 ex_walk ex_prior = (st, Ok tt)
    ∧ (GetTrack "a.mp3" ∈ sync_calls st ∨ GetPlaylist "a.mp3" ∈ sync_calls st)
    ∧ last (sync_calls st) = Some (ProcessDeletions ∅).
Proof.
  destruct (sync_library_ignores_cache_of_other_version ex_parsers "files1" 19 ex_walk ex_prior)
    as (st & E & P & _ & L & _).
  - intros p e [H|H]; discriminate H.
  - intros data H. vm_compute in H. discriminate H.
  - exists st. split; [exact E|]. split; [|exact L].
    apply (P (ex_file "a.mp3" "1")); [apply list_elem_of_here|reflexivity].
Defined.

(** ** Failures of the class lookup, and configs that need no loading *)

Lemma unload_provider_unregisters (instance_id' : string) (s s1 : MusicAssistant) :
  unload_provider instance_id' s = (s1, Ok tt) ->
  Dict.get instance_id' (_providers s1) = None.
Proof.
  unfold unload_provider.
  destruct (Dict.get instance_id' (_providers s)) as [provider|] eqn:Hget.
  2:{ by intros [= <-]. }
  destruct (stop_sync_tasks_frame instance_id' (length (in_progress_syncs s)) 0 s)
    as (sa & [[]|e1] & E1 & (P1 & _)).
  2:{ by rewrite (bind_Raise _ _ _ _ _ E1). }
  rewrite (bind_Ok _ _ _ _ _ E1).
  pose proof (provider_close_spec provider sa) as E2.
  destruct (on_close (behaviour provider)) as [e2|].
  { by rewrite (bind_Raise _ _ _ _ _ E2). }
  rewrite (bind_Ok _ _ _ _ _ E2).
  set (sb := with_call (CloseCalled (instance_id provider)) sa).
  assert (E3 : providers_pop instance_id' sb = (with_providers (Dict.pop instance_id') sb, Ok tt)).
  { unfold providers_pop. simpl. by rewrite P1, Hget. }
  rewrite (bind_Ok _ _ _ _ _ E3).
  set (sc := with_providers (Dict.pop instance_id') sb).
  rewrite (bind_Ok _ _ sc sc (get_providers None sc)) by done.
  destruct (signal_event_spec PROVIDERS_UPDATED None (ProvidersData (get_providers None sc)) sc)
    as (sd & E4 & P4 & _).
  rewrite E4. intros [= <-]. rewrite P4. simpl. apply DictFacts.get_pop_eq.
Qed.

(** X22. A provider that cannot be found. For an enabled config that
    passes the guards of [load_provider], when the provider's package
    cannot be imported or holds no class that the lookup accepts, the
    error is caught and logged: [load_provider] returns normally, nothing
    is registered under the config's id and the rest of the registry is as
    the opening unload left it, no [setup()] or other call is made, and
    [PROVIDERS_UPDATED] is signalled all the same, with the providers that
    are registered. *)
Theorem load_provider_swallows_lookup_failure
    (s s1 : MusicAssistant) (conf : ProviderConfig) (m : ProviderManifest) :
  unload_provider (conf_instance_id conf) s = (s1, Ok tt) ->
  enabled conf = true ->
  _available_providers s1 !! conf_domain conf = Some m ->
  (find (fun x => bool_decide (domain x = conf_domain conf)) (providers s1) = None
   ∨ multi_instance m = true) ->
  class_not_found m conf s1 ->
  ∃ s',
    load_provider conf s = (s', Ok tt)
    ∧ _providers s' = _providers s1
    ∧ Dict.get (conf_instance_id conf) (_providers s') = None
    ∧ calls s' = calls s1
    ∧ in_progress_syncs s' = in_progress_syncs s1
    ∧ signalled s'
      = signalled s1
        ++ (if closing s1 then []
            else [mkEvent PROVIDERS_UPDATED None (ProvidersData (providers s1))]).
Proof.
  intros Hun Hen Hm Hex Hnf.
  rewrite (load_provider_past_guards s s1 conf m Hun Hen Hm Hex).
  assert (Hbody : ∃ e, load_provider_body m conf s1 = (s1, Raise e) ∧ is_Exception e = true).
  { unfold class_not_found in Hnf. unfold load_provider_body.
    destruct (provider_modules s1 !! conf_domain conf) as [members|] eqn:Hmod.
    - rewrite (bind_Ok _ _ s1 s1 members) by (unfold import_module; by rewrite Hmod).
      eexists. split; [|shelve]. apply bind_Raise. unfold locate_class. by rewrite Hnf.
    - eexists. split; [|shelve]. apply bind_Raise. unfold import_module. by rewrite Hmod. }
  Unshelve. 2,3: reflexivity.
  destruct Hbody as (e & E & He).
  assert (E' : try_except (load_provider_body m conf) is_Exception (fun exc => ret tt) s1
               = (s1, Ok tt)) by (unfold try_except; by rewrite E, He).
  rewrite (bind_Ok _ _ _ _ _ E').
  rewrite (bind_Ok _ _ s1 s1 (get_providers None s1)) by done.
  destruct (signal_event_spec PROVIDERS_UPDATED None (ProvidersData (get_providers None s1)) s1)
    as (s' & E2 & P2 & _ & _ & _ & _ & I2 & _ & C2 & S2).
  exists s'. split; [exact E2|]. split; [exact P2|].
  split; [rewrite P2; by eapply unload_provider_unregisters|].
  split; [exact C2|]. split; [exact I2|]. rewrite S2. f_equal.
  destruct (closing s1); [done|]. do 3 f_equal.
  unfold get_providers, providers. induction (Dict.values (_providers s1)) as [|p l IH]; [done|].
  simpl. by rewrite IH.
Qed.

Lemma load_provider_swallows_lookup_failure_witness :
  ∃ s',
    load_provider (ex_config "sonos1" "sonos") ex_no_package = (s', Ok tt)
    ∧ Dict.get "sonos1" (_providers s') = None
    ∧ calls s' = [].
Proof.
  destruct (load_provider_swallows_lookup_failure ex_no_package ex_no_package
              (ex_config "sonos1" "sonos") (ex_manifest PLAYER "sonos" false))
    as (s' & E & _ & G & C & _); try reflexivity.
  - by left.
  - exists s'. split; [exact E|]. split; [exact G|exact C].
Defined.

Lemma load_configured_nothing_to_load (allow : bool) (conf : ProviderConfig)
    (s : MusicAssistant) :
  nothing_to_load s conf -> load_configured allow conf s = (s, Ok tt).
Proof.
  intros [[m Hm] Hcase]. unfold load_configured. rewrite Hm.
  destruct (truthy (depends_on m) && negb allow); [done|].
  destruct (bool_decide_reflect (is_Some (Dict.get (conf_instance_id conf) (_providers s))))
    as [Hreg|Hnreg]; [done|].
  destruct Hcase as [?|Hdis]; [done|].
  assert (Hnone : Dict.get (conf_instance_id conf) (_providers s) = None).
  { destruct (Dict.get _ _); [|done]. exfalso. apply Hnreg. by eexists. }
  unfold load_provider. rewrite (bind_Ok _ _ _ _ _ (unload_provider_unregistered _ _ Hnone)).
  by rewrite Hdis.
Qed.

Lemma for_each_unchanged {St A : Type} (body : A -> M St unit) (xs : list A) (s : St) :
  (∀ x, x ∈ xs -> body x s = (s, Ok tt)) -> for_each xs body s = (s, Ok tt).
Proof.
  induction xs as [|x xs IH]; intros H; simpl; [done|].
  rewrite (bind_Ok _ _ _ _ _ (H x (list_elem_of_here _ _))). apply IH.
  intros y Hy. apply H. by apply list_elem_of_further.
Qed.

(** X23. Nothing to load. When every config of the list has a manifest
    and either its instance is registered already or it is disabled and
    nothing is registered under its id, both passes of [_load_providers]
    pass over every config: the call returns normally and leaves the
    server exactly as it was. No registered instance is reloaded, closed
    or set up again, and no event is signalled. *)
Theorem load_providers_leaves_registered_instances_alone
    (provider_configs : list ProviderConfig) (s : MusicAssistant) :
  (∀ c, c ∈ provider_configs -> nothing_to_load s c) ->
  _load_providers provider_configs s = (s, Ok tt).
Proof.
  intros Hall. unfold _load_providers.
  apply for_each_unchanged. intros allow _. apply for_each_unchanged.
  intros c Hc. by apply load_configured_nothing_to_load, Hall.
Qed.

Lemma load_providers_leaves_registered_instances_alone_witness :
  _load_providers [ex_config "spotify1" "spotify"; ex_disabled_config] ex_idle
  = (ex_idle, Ok tt).
Proof.
  apply load_providers_leaves_registered_instances_alone.
  intros c Hc. rewrite !elem_of_cons, elem_of_nil in Hc. destruct Hc as [->|[->|[]]].
  - split; [by eexists|]. left. by eexists.
  - split; [by eexists|]. by right.
Defined.

(** X24. A config of an unknown domain. The loading loop looks the
    manifest of every config up before anything else, with no handler:
    when the configs before it need no loading, a config whose domain has
    no manifest ends [_load_providers] in its first pass with the
    [KeyError] of that lookup, and the server is left as it was; none of
    the configs that follow is loaded, whatever their state. *)
Theorem load_providers_aborts_on_unknown_domain
    (before after : list ProviderConfig) (conf : ProviderConfig) (s : MusicAssistant) :
  (∀ c, c ∈ before -> nothing_to_load s c) ->
  _available_providers s !! conf_domain conf = None ->
  _load_providers (before ++ conf :: after) s = (s, Raise (KeyError (conf_domain conf))).
Proof.
  intros Hall Hnone. unfold _load_providers. cbn [for_each].
  apply bind_Raise. induction before as [|c before IH]; cbn [for_each app].
  - apply bind_Raise. unfold load_configured. by rewrite Hnone.
  - rewrite (bind_Ok _ _ s s tt).
    + apply IH. intros c' Hc'. apply Hall. by apply list_elem_of_further.
    + apply load_configured_nothing_to_load, Hall, list_elem_of_here.
Qed.

Lemma load_providers_aborts_on_unknown_domain_witness :
  _load_providers ([ex_config "spotify1" "spotify"]
                   ++ ex_config "sonos1" "sonos" :: [ex_config "files1" "filesystem"]) ex_idle
  = (ex_idle, Raise (KeyError "sonos")).
Proof.
  apply (load_providers_aborts_on_unknown_domain [ex_config "spotify1" "spotify"]
           [ex_config "files1" "filesystem"] (ex_config "sonos1" "sonos") ex_idle).
  - intros c Hc. apply list_elem_of_singleton in Hc as ->.
    split; [by eexists|]. left. by eexists.
  - reflexivity.
Defined.
(** ** The sync task after a cancelled one *)

Lemma list_remove_NoDup_map {A B : Type} `{EqDecision A} (f : A -> B) (x : A) (l l' : list A) :
  NoDup (map f l) -> list_remove x l = Some l' -> NoDup (map f l').
Proof.
  revert l'. induction l as [|a l IH]; simpl; intros l' Hnd; [done|].
  apply NoDup_cons in Hnd as [Ha Hnd].
  destruct (decide (x = a)) as [->|Hne]; [by intros [= <-]|].
  destruct (list_remove x l) as [l0|] eqn:Hrem; [|done]. simpl. intros [= <-].
  simpl. apply NoDup_cons. split; [|by apply IH].
  intros Hin. apply Ha. apply list_elem_of_fmap in Hin as (y & -> & Hy).
  apply list_elem_of_fmap. exists y. split; [done|]. by eapply list_remove_elem_of.
Qed.

(** Cancelling and awaiting one sync task: the two calls recorded, and the
    in-progress list without the task. *)
Lemma cancel_and_await_lists (st : SyncTask) (s : MusicAssistant) :
  ∃ s', (task_cancel (task st) >> await_cancelled_task st) s = (s', cancel_outcome st)
        ∧ _providers s' = _providers s
        ∧ calls s' = calls s ++ [TaskCancelled (task_id (task st)); TaskAwaited (task_id (task st))]
        ∧ in_progress_syncs s'
          = default (in_progress_syncs s) (list_remove st (in_progress_syncs s)).
Proof.
  set (s0 := with_call (TaskCancelled (task_id (task st))) s).
  set (s1 := with_call (TaskAwaited (task_id (task st))) s0).
  destruct (task_done_callback_spec (task st) s1)
    as (s2 & E2 & P2 & _ & _ & _ & _ & I2 & K2 & _).
  assert (H3 : ∃ s3, on_sync_task_done st s2 = (s3, Ok tt)
                     ∧ _providers s3 = _providers s2 ∧ calls s3 = calls s2
                     ∧ in_progress_syncs s3
                       = default (in_progress_syncs s2) (list_remove st (in_progress_syncs s2))).
  { unfold on_sync_task_done.
    destruct (list_remove st (in_progress_syncs s2)) as [l|]; [|by exists s2].
    destruct (signal_event_spec SYNC_TASKS_UPDATED None
                (SyncTasksData (in_progress_syncs (with_in_progress_syncs (fun _ => l) s2)))
                (with_in_progress_syncs (fun _ => l) s2))
      as (s3 & E3 & P3 & _ & _ & _ & _ & I3 & _ & K3 & _).
    exists s3. by repeat split. }
  destruct H3 as (s3 & E3 & P3 & K3 & I3).
  exists s3. split.
  - rewrite (bind_Ok _ _ s s0 tt) by done. unfold await_cancelled_task.
    rewrite (bind_Ok _ _ s0 s1 tt) by done.
    rewrite (bind_Ok _ _ _ _ _ E2), (bind_Ok _ _ _ _ _ E3). unfold cancel_outcome.
    by destruct (task_on_cancel (task st)).
  - split; [by rewrite P3, P2|]. split.
    + rewrite K3, K2. simpl. by rewrite <- app_assoc.
    + by rewrite I3, I2.
Qed.

(** From the second element on, the loop leaves the head of the
    in-progress list where it is and never cancels its task. *)
Lemma stop_sync_tasks_keeps_head (instance_id' : string) (fuel i : nat) (s : MusicAssistant)
    (y : SyncTask) :
  1 <= i ->
  in_progress_syncs s !! 0 = Some y ->
  NoDup (sync_task_ids (in_progress_syncs s)) ->
  ∃ s' o cs,
    stop_sync_tasks instance_id' fuel i s = (s', o)
    ∧ _providers s' = _providers s
    ∧ in_progress_syncs s' !! 0 = Some y
    ∧ calls s' = calls s ++ cs
    ∧ (TaskCancelled (task_id (task y)) ∉ cs)
    ∧ Forall (fun c => ∃ t, c = TaskCancelled t ∨ c = TaskAwaited t) cs.
Proof.
  revert i s. induction fuel as [|fuel IH]; intros i s Hi Hy Hnd; cbn [stop_sync_tasks].
  { exists s, (Ok tt), []. rewrite app_nil_r. repeat split; try done. apply not_elem_of_nil. }
  destruct (in_progress_syncs s !! i) as [st|] eqn:Hst.
  2:{ exists s, (Ok tt), []. rewrite app_nil_r. repeat split; try done. apply not_elem_of_nil. }
  destruct (decide (provider_instance st = instance_id')) as [Hp|Hp].
  - destruct (cancel_and_await_lists st s) as (s1 & E1 & P1 & K1 & I1).
    assert (Hids : task_id (task st) ≠ task_id (task y)).
    { intros Heq. assert (i = 0); [|lia].
      eapply (NoDup_lookup _ _ _ _ Hnd); unfold sync_task_ids; rewrite list_lookup_fmap.
      - by rewrite Hst.
      - rewrite Hy. simpl. by rewrite Heq. }
    assert (Hne : st ≠ y) by congruence.
    assert (Hy1 : in_progress_syncs s1 !! 0 = Some y
                  ∧ NoDup (sync_task_ids (in_progress_syncs s1))).
    { rewrite I1. destruct (list_remove st (in_progress_syncs s)) as [l|] eqn:Hrem; [|done].
      simpl. split; [|by eapply list_remove_NoDup_map].
      destruct (in_progress_syncs s) as [|y' l0]; [done|]. injection Hy as ->.
      simpl in Hrem. rewrite decide_False in Hrem by done.
      destruct (list_remove st l0); [|done]. by injection Hrem as <-. }
    destruct Hy1 as [Hy1 Hnd1].
    assert (Hnot : TaskCancelled (task_id (task y))
                   ∉ [TaskCancelled (task_id (task st)); TaskAwaited (task_id (task st))]).
    { rewrite !elem_of_cons, elem_of_nil. intros [[= ?]|[?|[]]]; [congruence|done]. }
    assert (Hall : Forall (fun c => ∃ t, c = TaskCancelled t ∨ c = TaskAwaited t)
                          [TaskCancelled (task_id (task st)); TaskAwaited (task_id (task st))]).
    { repeat constructor; eauto. }
    unfold cancel_outcome in E1. destruct (task_on_cancel (task st)) eqn:Hr.
    + eexists s1, (Raise CancelledError), _. rewrite (bind_Raise _ _ _ _ _ E1).
      by repeat split.
    + destruct (IH (S i) s1) as (s2 & o & cs & E2 & P2 & Y2 & K2 & N2 & A2); [lia|done|done|].
      exists s2, o, ([TaskCancelled (task_id (task st)); TaskAwaited (task_id (task st))] ++ cs).
      rewrite (bind_Ok _ _ _ _ tt E1). split; [exact E2|]. split; [congruence|].
      split; [exact Y2|]. split; [by rewrite K2, K1, <- app_assoc|]. split.
      * rewrite elem_of_app. by intros [?|?].
      * by apply Forall_app.
    + eexists s1, (Raise e), _. rewrite (bind_Raise _ _ _ _ _ E1). by repeat split.
  - destruct (IH (S i) s) as (s2 & o & cs & E2 & H2); [lia|done|done|].
    exists s2, o, cs. rewrite (bind_Ok _ _ s s tt) by done. by split.
Qed.

(** X25. The sync task after a cancelled one. The loop of
    [unload_provider] walks the in-progress list while awaiting a
    cancelled task takes that task off the same list. When the first
    in-flight sync task belongs to the instance being unloaded, the sync
    task that follows it in the list is therefore stepped over: it is
    never asked to cancel and is still in the in-progress list when
    [unload_provider] ends, however it ends and whichever instance that
    task belongs to. In particular, when the sync tasks of the instance
    return on cancellation and [close()] returns, the instance is closed
    and unregistered while that sync task is still in flight. *)
Theorem unload_provider_steps_over_next_sync
    (s : MusicAssistant) (instance_id' : string) (provider : Provider)
    (first next : SyncTask) (rest : list SyncTask) :
  Dict.get instance_id' (_providers s) = Some provider ->
  in_progress_syncs s = first :: next :: rest ->
  provider_instance first = instance_id' ->
  NoDup (sync_task_ids (in_progress_syncs s)) ->
  ∃ s' o cs,
    unload_provider instance_id' s = (s', o)
    ∧ calls s' = calls s ++ cs
    ∧ TaskCancelled (task_id (task first)) ∈ cs
    ∧ (TaskCancelled (task_id (task next)) ∉ cs)
    ∧ next ∈ in_progress_syncs s'
    ∧ (syncs_return_on_cancel instance_id' s -> on_close (behaviour provider) = None ->
       o = Ok tt
       ∧ Dict.get instance_id' (_providers s') = None
       ∧ CloseCalled (instance_id provider) ∈ cs).
Proof.
  intros Hget Hsyncs Hfirst Hnd.
  assert (Hne : task_id (task first) ≠ task_id (task next)).
  { rewrite Hsyncs in Hnd. simpl in Hnd. apply NoDup_cons in Hnd as [Hn _].
    intros Heq. apply Hn. rewrite Heq. apply list_elem_of_here. }
  destruct (cancel_and_await_lists first s) as (s1 & E1 & P1 & K1 & I1).
  rewrite Hsyncs in I1. simpl in I1. rewrite decide_True in I1 by done. simpl in I1.
  assert (Hloop : ∃ s2 o2 cs2,
            stop_sync_tasks instance_id' (length (in_progress_syncs s)) 0 s = (s2, o2)
            ∧ _providers s2 = _providers s
            ∧ in_progress_syncs s2 !! 0 = Some next
            ∧ calls s2 = calls s ++ [TaskCancelled (task_id (task first));
                                     TaskAwaited (task_id (task first))] ++ cs2
            ∧ (TaskCancelled (task_id (task next)) ∉ cs2)
            ∧ Forall (fun c => ∃ t, c = TaskCancelled t ∨ c = TaskAwaited t) cs2).
  { assert (Hlen : length (in_progress_syncs s) = S (S (length rest))) by (by rewrite Hsyncs).
    rewrite Hlen. cbn [stop_sync_tasks]. rewrite Hsyncs. cbn [lookup list_lookup].
    rewrite decide_True by done. unfold cancel_outcome in E1.
    destruct (task_on_cancel (task first)) eqn:Hr.
    - exists s1, (Raise CancelledError), []. rewrite (bind_Raise _ _ _ _ _ E1).
      split; [done|]. split; [done|]. split; [by rewrite I1|]. split; [by rewrite K1|].
      split; [apply not_elem_of_nil|done].
    - destruct (stop_sync_tasks_keeps_head instance_id' (S (length rest)) 1 s1 next)
        as (s2 & o2 & cs2 & E2 & P2 & Y2 & K2 & N2 & A2).
      + lia.
      + by rewrite I1.
      + rewrite I1. rewrite Hsyncs in Hnd. simpl in Hnd. by apply NoDup_cons in Hnd as [_ ?].
      + exists s2, o2, cs2. rewrite (bind_Ok _ _ _ _ tt E1). split; [exact E2|].
        split; [congruence|]. split; [exact Y2|]. split; [|done].
        by rewrite K2, K1, <- app_assoc.
    - exists s1, (Raise e), []. rewrite (bind_Raise _ _ _ _ _ E1).
      split; [done|]. split; [done|]. split; [by rewrite I1|]. split; [by rewrite K1|].
      split; [apply not_elem_of_nil|done]. }
  destruct Hloop as (s2 & o2 & cs2 & E2 & P2 & Y2 & K2 & N2 & A2).
  assert (Hin2 : next ∈ in_progress_syncs s2) by (by eapply list_elem_of_lookup_2).
  assert (Hrun : ∃ s' o cs3,
            unload_provider instance_id' s = (s', o)
            ∧ in_progress_syncs s' = in_progress_syncs s2
            ∧ calls s' = calls s2 ++ cs3
            ∧ (cs3 = [] ∨ cs3 = [CloseCalled (instance_id provider)])
            ∧ (o = Ok tt -> cs3 = [CloseCalled (instance_id provider)])).
  { unfold unload_provider. rewrite Hget. destruct o2 as [[]|e2].
    2:{ exists s2, (Raise e2), []. rewrite (bind_Raise _ _ _ _ _ E2). rewrite app_nil_r.
        split; [done|]. split; [done|]. split; [done|]. split; [by left|done]. }
    rewrite (bind_Ok _ _ _ _ _ E2).
    pose proof (provider_close_spec provider s2) as E3.
    set (s3 := with_call (CloseCalled (instance_id provider)) s2) in *.
    destruct (on_close (behaviour provider)) as [e3|].
    { exists s3, (Raise e3), [CloseCalled (instance_id provider)].
      rewrite (bind_Raise _ _ _ _ _ E3). split; [done|]. split; [done|]. split; [done|].
      split; [by right|done]. }
    rewrite (bind_Ok _ _ _ _ _ E3).
    assert (E4 : providers_pop instance_id' s3
                 = (with_providers (Dict.pop instance_id') s3, Ok tt)).
    { unfold providers_pop. simpl. by rewrite P2, Hget. }
    rewrite (bind_Ok _ _ _ _ _ E4).
    set (s4 := with_providers (Dict.pop instance_id') s3).
    rewrite (bind_Ok _ _ s4 s4 (get_providers None s4)) by done.
    destruct (signal_event_spec PROVIDERS_UPDATED None (ProvidersData (get_providers None s4)) s4)
      as (s5 & E5 & _ & _ & _ & _ & _ & I5 & _ & K5 & _).
    exists s5, (Ok tt), [CloseCalled (instance_id provider)]. split; [exact E5|].
    split; [by rewrite I5|]. split; [by rewrite K5|]. split; [by right|done]. }
  destruct Hrun as (s' & o & cs3 & E & I & K & Hcs3 & Hok).
  exists s', o, ([TaskCancelled (task_id (task first)); TaskAwaited (task_id (task first))]
                 ++ cs2 ++ cs3).
  split; [exact E|]. split; [by rewrite K, K2, <- !app_assoc|].
  split; [apply elem_of_app; left; apply list_elem_of_here|]. split; [|split].
  - rewrite !elem_of_app, !elem_of_cons, elem_of_nil.
    intros [[[= ?]|[?|[]]]|[?|Hc]]; try done.
    destruct Hcs3 as [->| ->]; [by apply elem_of_nil in Hc|].
    by apply list_elem_of_singleton in Hc.
  - by rewrite I.
  - intros Hret Hclose.
    destruct (unload_provider_run instance_id' provider s Hget Hret) as (sx & _ & Ex).
    rewrite Hclose in Ex. cbv zeta in Ex.
    match type of Ex with _ = signal_event ?ev ?oid ?d ?s0 =>
      destruct (signal_event_spec ev oid d s0) as (sy & Ey & _) end.
    rewrite Ey, E in Ex. injection Ex as -> ->.
    split; [done|]. split; [by eapply unload_provider_unregisters|].
    rewrite (Hok eq_refl), !elem_of_app. right. right. apply list_elem_of_here.
Qed.

Lemma unload_provider_steps_over_next_sync_witness :
  ∃ s' cs,
    unload_provider "spotify1" ex_two_syncs = (s', Ok tt)
    ∧ calls s' = calls ex_two_syncs ++ cs
    ∧ (TaskCancelled 1 ∉ cs)
    ∧ ex_returning_sync 1 [ALBUM] ∈ in_progress_syncs s'
    ∧ Dict.get "spotify1" (_providers s') = None.
Proof.
  destruct (unload_provider_steps_over_next_sync ex_two_syncs "spotify1" ex_spotify
              (ex_returning_sync 0 [ARTIST]) (ex_returning_sync 1 [ALBUM]) [])
    as (s' & o & cs & E & K & _ & N & I & H); try reflexivity.
  - repeat constructor; rewrite ?elem_of_cons, ?elem_of_nil; intros H; decompose [or] H; done.
  - destruct H as (-> & G & _).
    + intros st Hst _. unfold ex_two_syncs in Hst. simpl in Hst.
      rewrite !elem_of_cons, elem_of_nil in Hst. by destruct Hst as [->|[->|[]]].
    + reflexivity.
    + exists s', cs. repeat split; assumption.
Defined.

(** ** The two passes of [_load_providers] *)

Lemma touches_only_refl (id : string) (s : MusicAssistant) : touches_only id s s.
Proof.
  split; [done|]. split; [done|]. exists []. rewrite app_nil_r. split; [done|].
  by intros k ?%elem_of_nil.
Qed.

Lemma touches_only_trans (id : string) (s1 s2 s3 : MusicAssistant) :
  touches_only id s1 s2 -> touches_only id s2 s3 -> touches_only id s1 s3.
Proof.
  intros (A1 & P1 & cs1 & C1 & H1) (A2 & P2 & cs2 & C2 & H2).
  split; [congruence|]. split.
  - intros k Hk. by rewrite P2, P1.
  - exists (cs1 ++ cs2). split; [by rewrite C2, C1, app_assoc|].
    intros k [?|?]%elem_of_app; auto.
Qed.

Lemma touches_only_quiet (id : string) (s s' : MusicAssistant) :
  _available_providers s' = _available_providers s ->
  _providers s' = _providers s ->
  calls s' = calls s ->
  touches_only id s s'.
Proof.
  intros A P C. split; [done|]. split; [by rewrite P|]. exists []. rewrite app_nil_r.
  split; [done|]. by intros k ?%elem_of_nil.
Qed.

Lemma unload_provider_touches_only (instance_id' : string) (s : MusicAssistant) :
  ∃ s' o, unload_provider instance_id' s = (s', o) ∧ touches_only instance_id' s s'.
Proof.
  unfold unload_provider. destruct (Dict.get instance_id' (_providers s)) as [provider|] eqn:Hget.
  2:{ exists s, (Ok tt). split; [done|apply touches_only_refl]. }
  destruct (stop_sync_tasks_frame instance_id' (length (in_progress_syncs s)) 0 s)
    as (s1 & o1 & E1 & (P1 & _ & A1 & _ & _ & _ & (cs & C1 & Hcs) & _)).
  assert (T1 : touches_only instance_id' s s1).
  { split; [done|]. split; [by rewrite P1|]. exists cs. split; [done|].
    intros k Hk. rewrite Forall_forall in Hcs. by destruct (Hcs _ Hk) as (t & [?|?]). }
  destruct o1 as [[]|e1].
  2:{ exists s1, (Raise e1). by rewrite (bind_Raise _ _ _ _ _ E1). }
  rewrite (bind_Ok _ _ _ _ _ E1).
  pose proof (provider_close_spec provider s1) as E2.
  set (s2 := with_call (CloseCalled (instance_id provider)) s1) in *.
  assert (T2 : touches_only instance_id' s s2).
  { eapply touches_only_trans; [exact T1|]. split; [done|]. split; [done|].
    exists [CloseCalled (instance_id provider)]. split; [done|].
    by intros k ?%list_elem_of_singleton. }
  destruct (on_close (behaviour provider)) as [e2|].
  { exists s2, (Raise e2). by rewrite (bind_Raise _ _ _ _ _ E2). }
  rewrite (bind_Ok _ _ _ _ _ E2).
  assert (E3 : providers_pop instance_id' s2
               = (with_providers (Dict.pop instance_id') s2, Ok tt)).
  { unfold providers_pop. simpl. by rewrite P1, Hget. }
  rewrite (bind_Ok _ _ _ _ _ E3).
  set (s3 := with_providers (Dict.pop instance_id') s2).
  rewrite (bind_Ok _ _ s3 s3 (get_providers None s3)) by done.
  destruct (signal_event_spec PROVIDERS_UPDATED None (ProvidersData (get_providers None s3)) s3)
    as (s4 & E4 & P4 & _ & A4 & _ & _ & _ & _ & C4 & _).
  exists s4, (Ok tt). split; [exact E4|].
  eapply touches_only_trans; [exact T2|]. split; [by rewrite A4|]. split.
  - intros k Hk. rewrite P4. simpl. by apply DictFacts.get_pop_ne.
  - exists []. rewrite app_nil_r. split; [by rewrite C4|]. by intros k ?%elem_of_nil.
Qed.

Lemma start_provider_sync_quiet (P : string) (types : list MediaType) (s : MusicAssistant) :
  ∃ s' o, _start_provider_sync P types s = (s', o)
          ∧ keeps_registry s s' ∧ calls s' = calls s.
Proof.
  destruct (sync_in_progress P types (in_progress_syncs s)) eqn:Hdup.
  { exists s, (Ok tt). split; [unfold _start_provider_sync; by rewrite Hdup|].
    split; [apply keeps_registry_refl|done]. }
  destruct (get_provider_spec P s) as ([p|e] & Hget & _).
  - destruct (start_provider_sync_launch s P types p Hdup Hget)
      as (s' & E & _ & _ & _ & K & _ & C & _).
    by exists s', (Ok tt).
  - exists s, (Raise e). split; [|split; [apply keeps_registry_refl|done]].
    unfold _start_provider_sync. rewrite Hdup. by rewrite (bind_Raise _ _ _ _ _ Hget).
Qed.

Lemma start_sync_touches_nothing (types : option (list MediaType)) (ps : option (list string))
    (id : string) (s : MusicAssistant) :
  ∃ s' o, start_sync types ps s = (s', o) ∧ touches_only id s s'.
Proof.
  unfold start_sync.
  destruct (for_each_frame
              (fun a b : MusicAssistant => keeps_registry a b ∧ calls b = calls a)
              (fun _ => True)
              (fun provider =>
                 if decide (instance_id provider
                            ∈ default (map instance_id (music_providers s)) ps)
                 then _start_provider_sync (instance_id provider) (default MediaType_ALL types)
                 else ret tt)
              (music_providers s))
    with (s := s) as (s1 & o1 & E1 & ((P1 & A1 & _) & C1) & _).
  - intros a. split; [apply keeps_registry_refl|done].
  - intros a b c [K1 C1] [K2 C2]. split; [by eapply keeps_registry_trans|congruence].
  - intros p a. destruct (decide _).
    + destruct (start_provider_sync_quiet (instance_id p) (default MediaType_ALL types) a)
        as (a' & o & E & K & C). by exists a', o.
    + exists a, (Ok tt). split; [done|]. split; [|done]. split; [apply keeps_registry_refl|done].
  - destruct o1 as [[]|e1].
    + exists (with_call MetadataScanStarted s1), (Ok tt).
      rewrite (bind_Ok _ _ _ _ _ E1). split; [done|]. split; [done|]. split; [by rewrite <- P1|].
      exists [MetadataScanStarted]. split; [simpl; by rewrite C1|].
      by intros k ?%list_elem_of_singleton.
    + exists s1, (Raise e1). rewrite (bind_Raise _ _ _ _ _ E1). split; [done|].
      by apply touches_only_quiet.
Qed.

Lemma load_provider_body_touches_only (m : ProviderManifest) (conf : ProviderConfig)
    (s : MusicAssistant) :
  ∃ s' o, load_provider_body m conf s = (s', o) ∧ touches_only (conf_instance_id conf) s s'.
Proof.
  unfold load_provider_body.
  destruct (provider_modules s !! conf_domain conf) as [members|] eqn:Hmod.
  2:{ eexists s, _. split; [|apply touches_only_refl].
      apply bind_Raise. unfold import_module. by rewrite Hmod. }
  rewrite (bind_Ok _ _ s s members) by (unfold import_module; by rewrite Hmod).
  destruct (find_provider_class m members) as [cls|] eqn:Hcls.
  2:{ eexists s, _. split; [|apply touches_only_refl].
      apply bind_Raise. unfold locate_class. by rewrite Hcls. }
  rewrite (bind_Ok _ _ s s cls) by (unfold locate_class; by rewrite Hcls).
  set (provider := Provider__init__ m conf cls).
  change (instance_id provider) with (conf_instance_id conf).
  set (id := conf_instance_id conf).
  set (s1 := with_providers (Dict.set id provider) s).
  rewrite (bind_Ok _ _ s s1 tt) by done.
  set (s2 := with_call (SetupCalled id) s1).
  assert (T2 : touches_only id s s2).
  { split; [done|]. split.
    - intros k Hk. simpl. by apply DictFacts.get_set_ne.
    - exists [SetupCalled id]. split; [done|]. by intros k [= ->]%list_elem_of_singleton. }
  assert (Hassign : ∀ f a, touches_only id a (with_providers (Dict.update id f) a)).
  { intros f a. split; [done|]. split.
    - intros k Hk. simpl. by apply DictFacts.get_update_ne.
    - exists []. rewrite app_nil_r. split; [done|]. by intros k ?%elem_of_nil. }
  destruct (on_setup cls) as [e|] eqn:Hsetup.
  - set (s3 := with_providers (Dict.update id (set_last_error (Some (str_of_exn e)))) s2).
    set (s4 := with_providers (Dict.update id (set_available false)) s3).
    exists (if is_MusicAssistantError e then s4 else s2), (Raise e). split.
    { erewrite bind_Raise; [reflexivity|]. unfold try_except.
      rewrite provider_setup_spec. simpl. rewrite Hsetup.
      destruct (is_MusicAssistantError e); reflexivity. }
    destruct (is_MusicAssistantError e); [|done].
    eapply touches_only_trans; [exact T2|]. eapply touches_only_trans; apply Hassign.
  - set (s3 := with_providers (Dict.update id (set_available true)) s2).
    set (s4 := with_providers (Dict.update id (set_last_error None)) s3).
    assert (T4 : touches_only id s s4).
    { eapply touches_only_trans; [exact T2|]. eapply touches_only_trans; apply Hassign. }
    assert (Hpre : ∀ k : unit -> Mass unit,
               bind (try_except (provider_setup provider) is_MusicAssistantError
                       (fun err =>
                          provider_assign id (set_last_error (Some (str_of_exn err))) >>
                          provider_assign id (set_available false) >> raise err))
                    (fun _ => provider_assign id (set_available true) >>
                              provider_assign id (set_last_error None) >> k tt) s1
               = k tt s4).
    { intros k. erewrite bind_Ok; [reflexivity|]. unfold try_except.
      rewrite provider_setup_spec. simpl. by rewrite Hsetup. }
    destruct (decide (type provider = MUSIC)) as [Hty|Hty].
    + destruct (start_sync_touches_nothing None (Some [id]) id s4) as (s5 & o & E5 & T5).
      exists s5, o. split; [|by eapply touches_only_trans].
      rewrite (Hpre (fun _ => start_sync None (Some [id]))). exact E5.
    + exists s4, (Ok tt). split; [by rewrite (Hpre (fun _ => ret tt))|done].
Qed.

Lemma load_provider_touches_only (conf : ProviderConfig) (s : MusicAssistant) :
  ∃ s' o, load_provider conf s = (s', o) ∧ touches_only (conf_instance_id conf) s s'.
Proof.
  unfold load_provider.
  destruct (unload_provider_touches_only (conf_instance_id conf) s) as (s1 & o1 & E1 & T1).
  destruct o1 as [[]|e1].
  2:{ exists s1, (Raise e1). by rewrite (bind_Raise _ _ _ _ _ E1). }
  rewrite (bind_Ok _ _ _ _ _ E1).
  destruct (enabled conf); cbn [negb].
  2:{ by exists s1, (Ok tt). }
  rewrite (bind_Ok _ _ s1 s1 (_available_providers s1 !! conf_domain conf)) by done.
  erewrite (bind_Ok _ _ s1 s1) by reflexivity.
  assert (Hrest : ∀ m, ∃ s' o,
            (try_except (load_provider_body m conf) is_Exception (fun exc => ret tt) >>
             let* provs := gets (get_providers None) in
             signal_event PROVIDERS_UPDATED None (ProvidersData provs)) s1 = (s', o)
            ∧ touches_only (conf_instance_id conf) s s').
  { intros m. destruct (load_provider_body_touches_only m conf s1) as (s2 & o2 & E2 & T2).
    assert (T12 : touches_only (conf_instance_id conf) s s2)
      by (by eapply touches_only_trans).
    assert (Hsig : ∀ a, ∃ a', (let* provs := gets (get_providers None) in
                              signal_event PROVIDERS_UPDATED None (ProvidersData provs)) a
                             = (a', Ok tt)
                             ∧ touches_only (conf_instance_id conf) a a').
    { intros a. rewrite (bind_Ok _ _ a a (get_providers None a)) by done.
      destruct (signal_event_spec PROVIDERS_UPDATED None (ProvidersData (get_providers None a)) a)
        as (a' & E & P & _ & A & _ & _ & _ & _ & C & _).
      exists a'. split; [exact E|]. by apply touches_only_quiet. }
    unfold try_except, bind at 1. rewrite E2. destruct o2 as [[]|e2].
    - destruct (Hsig s2) as (s3 & E3 & T3). exists s3, (Ok tt).
      split; [exact E3|by eapply touches_only_trans].
    - destruct (is_Exception e2).
      + unfold ret. destruct (Hsig s2) as (s3 & E3 & T3). exists s3, (Ok tt).
        split; [exact E3|by eapply touches_only_trans].
      + by exists s2, (Raise e2). }
  destruct (_available_providers s1 !! conf_domain conf) as [m|];
    destruct (find _ (providers s1)) as [x|].
  - destruct (multi_instance m); cbn [negb].
    + rewrite (bind_Ok _ _ s1 s1 tt) by done. apply Hrest.
    + eexists s1, _. split; [reflexivity|done].
  - rewrite (bind_Ok _ _ s1 s1 tt) by done. apply Hrest.
  - eexists s1, _. split; [reflexivity|done].
  - eexists s1, _. split; [reflexivity|done].
Qed.

Lemma leaves_alone_refl (k : string) (s : MusicAssistant) : leaves_alone k s s.
Proof.
  split; [done|]. split; [done|]. exists []. rewrite app_nil_r. split; [done|].
  apply not_elem_of_nil.
Qed.

Lemma leaves_alone_trans (k : string) (s1 s2 s3 : MusicAssistant) :
  leaves_alone k s1 s2 -> leaves_alone k s2 s3 -> leaves_alone k s1 s3.
Proof.
  intros (A1 & P1 & cs1 & C1 & H1) (A2 & P2 & cs2 & C2 & H2).
  split; [congruence|]. split; [congruence|].
  exists (cs1 ++ cs2). split; [by rewrite C2, C1, app_assoc|].
  rewrite elem_of_app. by intros [?|?].
Qed.

Lemma touches_only_leaves_alone (id k : string) (s s' : MusicAssistant) :
  id ≠ k -> touches_only id s s' -> leaves_alone k s s'.
Proof.
  intros Hne (A & P & cs & C & H). split; [done|]. split; [apply P; congruence|].
  exists cs. split; [done|]. intros Hk. apply Hne. symmetry. by apply H.
Qed.

(** X26. Dependencies first. [_load_providers] runs two passes over the
    configs. Take an instance id all of whose configs are of providers
    whose manifest names a dependency. The first pass does not touch it:
    however that pass ends, what is registered under the id is as before
    and the [setup()] of that id has not been called, while the configs of
    providers without dependencies have had their turn. Such a provider is
    loaded in the second pass only, which starts from the state the first
    pass left, and only if the first pass returned. *)
Theorem load_providers_defers_dependent_providers
    (provider_configs : list ProviderConfig) (k : string) (s : MusicAssistant) :
  (∀ c, c ∈ provider_configs -> conf_instance_id c = k -> depends_on_another s c) ->
  ∃ s1 o1 cs1,
    for_each provider_configs (load_configured false) s = (s1, o1)
    ∧ calls s1 = calls s ++ cs1
    ∧ (SetupCalled k ∉ cs1)
    ∧ Dict.get k (_providers s1) = Dict.get k (_providers s)
    ∧ _load_providers provider_configs s
      = match o1 with
        | Ok _ => (for_each provider_configs (load_configured true) >> ret tt) s1
        | Raise e => (s1, Raise e)
        end.
Proof.
  intros Hdep.
  assert (Hloop : ∀ cfgs, (∀ c, c ∈ cfgs -> c ∈ provider_configs) ->
            ∀ a, _available_providers a = _available_providers s ->
                 ∃ a' o, for_each cfgs (load_configured false) a = (a', o)
                         ∧ leaves_alone k a a').
  { induction cfgs as [|c cfgs IH]; intros Hsub a Ha.
    { exists a, (Ok tt). split; [done|apply leaves_alone_refl]. }
    cbn [for_each].
    assert (Hc : ∃ a1 o1, load_configured false c a = (a1, o1) ∧ leaves_alone k a a1).
    { unfold load_configured.
      destruct (_available_providers a !! conf_domain c) as [m|] eqn:Hm.
      2:{ eexists a, _. split; [reflexivity|apply leaves_alone_refl]. }
      destruct (truthy (depends_on m)) eqn:Hd; cbn [andb negb].
      { exists a, (Ok tt). split; [done|apply leaves_alone_refl]. }
      destruct (bool_decide _).
      { exists a, (Ok tt). split; [done|apply leaves_alone_refl]. }
      destruct (load_provider_touches_only c a) as (a1 & o1 & E1 & T1).
      exists a1, o1. split; [exact E1|]. eapply touches_only_leaves_alone; [|exact T1].
      intros Hid. destruct (Hdep c (Hsub c (list_elem_of_here _ _)) Hid) as (m' & Hm' & Hd').
      rewrite Ha, Hm' in Hm. injection Hm as ->. congruence. }
    destruct Hc as (a1 & o1 & E1 & L1). destruct o1 as [[]|e1].
    - destruct (IH (fun c' Hc' => Hsub c' (list_elem_of_further _ _ _ Hc')) a1)
        as (a' & o & E & L).
      { destruct L1 as (-> & _). exact Ha. }
      exists a', o. rewrite (bind_Ok _ _ _ _ _ E1). split; [exact E|].
      by eapply leaves_alone_trans.
    - exists a1, (Raise e1). by rewrite (bind_Raise _ _ _ _ _ E1). }
  destruct (Hloop provider_configs (fun c Hc => Hc) s eq_refl)
    as (s1 & o1 & E1 & (_ & P1 & cs1 & C1 & N1)).
  exists s1, o1, cs1. split; [exact E1|]. split; [exact C1|]. split; [exact N1|].
  split; [exact P1|]. unfold _load_providers. cbn [for_each].
  unfold bind at 1. rewrite E1. by destruct o1.
Qed.

Lemma load_providers_defers_dependent_providers_witness :
  ∃ s1 cs1,
    for_each [ex_config "lyrics1" "lyrics"; ex_config "spotify1" "spotify"]
             (load_configured false) ex_with_plugin = (s1, Ok tt)
    ∧ calls s1 = calls ex_with_plugin ++ cs1
    ∧ (SetupCalled "lyrics1" ∉ cs1)
    ∧ Dict.get "lyrics1" (_providers s1) = None.
Proof.
  destruct (load_providers_defers_dependent_providers
              [ex_config "lyrics1" "lyrics"; ex_config "spotify1" "spotify"] "lyrics1"
              ex_with_plugin) as (s1 & o1 & cs1 & E & C & N & P & _).
  - intros c Hc Hid. rewrite !elem_of_cons, elem_of_nil in Hc.
    destruct Hc as [->|[->|[]]]; [|discriminate Hid].
    exists ex_plugin_manifest. split; reflexivity.
  - assert (Ho : o1 = Ok tt).
    { assert (H : (for_each [ex_config "lyrics1" "lyrics"; ex_config "spotify1" "spotify"]
                            (load_configured false) ex_with_plugin).2 = Ok tt)
        by (vm_compute; reflexivity).
      by rewrite E in H. }
    subst o1. exists s1, cs1. split; [exact E|]. split; [exact C|]. split; [exact N|exact P].
Defined.
(** ** Browsing *)

Lemma append_cons (c : ascii) (r x : string) : String c r +:+ x = String c (r +:+ x).
Proof. reflexivity. Qed.

Lemma append_nil (x : string) : "" +:+ x = x.
Proof. reflexivity. Qed.

Lemma append_assoc_string (a b c : string) : (a +:+ b) +:+ c = a +:+ (b +:+ c).
Proof.
  induction a as [|x a IH]; [done|].
  change (String x ((a +:+ b) +:+ c) = String x (a +:+ (b +:+ c))). by rewrite IH.
Qed.

Lemma prefix_scheme_app (c : ascii) (r x : string) :
  String.prefix "://" (String c r) = false ->
  String.prefix "://" (String c (r +:+ "://" +:+ x)) = false.
Proof.
  assert (Hsep : ∀ y, "://" +:+ y = String ":" (String "/" (String "/" y))) by done.
  cbn [String.prefix]. destruct (ascii_dec ":" c) as [_|]; [|done].
  destruct r as [|d r].
  { intros _. rewrite append_nil, Hsep. cbn [String.prefix].
    by destruct (ascii_dec "/" ":"). }
  rewrite append_cons. cbn [String.prefix]. destruct (ascii_dec "/" d) as [_|]; [|done].
  destruct r as [|e r].
  { intros _. rewrite append_nil, Hsep. cbn [String.prefix].
    by destruct (ascii_dec "/" ":"). }
  rewrite append_cons. cbn [String.prefix]. destruct (ascii_dec "/" e); [|done].
  intros H. by destruct r.
Qed.

Lemma split_scheme_head_app (id rest : string) :
  has_scheme id = false -> split_scheme_head (id +:+ "://" +:+ rest) = id.
Proof.
  induction id as [|c id IH]; intros H.
  - rewrite append_nil. change ("://" +:+ rest) with (String ":" (String "/" (String "/" rest))).
    by destruct rest.
  - cbn [has_scheme] in H. apply orb_false_iff in H as [Hp Hr].
    rewrite append_cons. cbn [split_scheme_head].
    rewrite (prefix_scheme_app c id rest Hp). by rewrite IH.
Qed.

Lemma scheme_path_is_a_path (id rest : string) :
  negb (truthy (Some (id +:+ "://" +:+ rest)))
  || bool_decide (Some (id +:+ "://" +:+ rest) = Some "root") = false.
Proof.
  apply orb_false_iff. split.
  - apply negb_false_iff. unfold truthy. apply negb_true_iff, bool_decide_eq_false.
    destruct id; discriminate.
  - apply bool_decide_eq_false. intros [= H].
    destruct id as [|a [|b [|c [|d [|e id]]]]]; try discriminate H.
Qed.

(** X27. From the root folder to the provider. [browse] without a path,
    with the empty path and with the path ["root"] returns the root
    folder and changes nothing; its items are the folders of exactly the
    registered music providers whose class supports browsing, in
    registration order, each with the path made of the instance id and
    ["://"]. On a registry that files providers under their instance id,
    browsing such a path, or any path below it, hands the path unchanged
    to the [browse] of the provider registered under that instance id,
    provided the id itself holds no ["://"]. A path whose head is neither
    an instance id nor a domain of a registered provider ends with
    [ProviderUnavailableError]. *)
Theorem browse_root_folders_lead_to_their_provider
    (config_name : ProviderConfig -> option string) (supports_browse : Provider -> bool)
    (s : MusicAssistant) :
  keyed_by_instance_id s ->
  ∃ items,
    browse config_name supports_browse None s = (s, Ok (RootFolder items))
    ∧ browse config_name supports_browse (Some "") s = (s, Ok (RootFolder items))
    ∧ browse config_name supports_browse (Some "root") s = (s, Ok (RootFolder items))
    ∧ items = map (provider_folder config_name s)
                  (List.filter supports_browse (music_providers s))
    ∧ (∀ folder, folder ∈ items
                 <-> ∃ prov, prov ∈ providers s ∧ type prov = MUSIC
                             ∧ supports_browse prov = true
                             ∧ folder = provider_folder config_name s prov)
    ∧ (∀ prov rest,
         prov ∈ providers s ->
         has_scheme (instance_id prov) = false ->
         ∃ q, browse config_name supports_browse
                (Some (folder_path (provider_folder config_name s prov) +:+ rest)) s
              = (s, Ok (ProviderBrowse q
                          (folder_path (provider_folder config_name s prov) +:+ rest)))
              ∧ instance_id q = instance_id prov)
    ∧ (∀ head rest,
         has_scheme head = false ->
         Dict.get head (_providers s) = None ->
         (∀ p, p ∈ providers s -> domain p ≠ head) ->
         browse config_name supports_browse (Some (head +:+ "://" +:+ rest)) s
         = (s, Raise (ProviderUnavailableError ("Provider " +:+ head +:+ " is not available")))).
Proof.
  intros Hkey. eexists. split; [reflexivity|]. split; [reflexivity|]. split.
  { unfold browse. rewrite (bool_decide_eq_true_2 (Some "root" = Some "root")) by done.
    rewrite orb_true_r. reflexivity. }
  split; [reflexivity|]. split; [|split].
  - intros folder. rewrite list_elem_of_fmap. split.
    + intros (prov & Heq & Hin). apply elem_of_List_filter in Hin as [Hin Hb].
      apply elem_of_music_providers in Hin as [Hin Hty]. by exists prov.
    + intros (prov & Hin & Hty & Hb & Heq). exists prov. split; [done|].
      apply elem_of_List_filter. split; [|done]. by apply elem_of_music_providers.
  - intros prov rest Hin Hns.
    destruct (keyed_provider_resolves prov s Hkey Hin) as (q & Hq & Hid).
    exists q. split; [|done]. unfold browse. cbn [folder_path provider_folder].
    rewrite append_assoc_string, scheme_path_is_a_path. cbn [from_option id].
    rewrite split_scheme_head_app by done.
    by rewrite (bind_Ok _ _ _ _ _ (get_provider_registered _ _ _ Hq)).
  - intros head rest Hns Hnone Hdom. unfold browse.
    rewrite scheme_path_is_a_path. cbn [from_option id]. rewrite split_scheme_head_app by done.
    apply bind_Raise. unfold get_provider. rewrite Hnone.
    assert (Hf : find (fun prov => bool_decide (domain prov = head))
                      (Dict.values (_providers s)) = None).
    { apply find_None_elem_of. intros p Hp. apply bool_decide_eq_false. by apply Hdom. }
    by rewrite Hf.
Qed.

Lemma browse_root_folders_lead_to_their_provider_witness :
  ∃ q, browse (fun _ => None) (fun _ => true) (Some "spotify1://artists") ex_idle
       = (ex_idle, Ok (ProviderBrowse q "spotify1://artists"))
       ∧ instance_id q = "spotify1".
Proof.
  destruct (browse_root_folders_lead_to_their_provider (fun _ => None) (fun _ => true) ex_idle)
    as (items & _ & _ & _ & _ & _ & H & _).
  - intros k p Hp. apply list_elem_of_singleton in Hp. by injection Hp as -> ->.
  - destruct (H ex_spotify "artists") as (q & E & Hq).
    + apply list_elem_of_here.
    + reflexivity.
    + exists q. split; [exact E|exact Hq].
Defined.
(** ** Processing deletions *)

Lemma for_each_app {St A : Type} (body : A -> M St unit) (l1 l2 : list A) (s : St) :
  for_each (l1 ++ l2) body s
  = match for_each l1 body s with
    | (s1, Ok _) => for_each l2 body s1
    | (s1, Raise e) => (s1, Raise e)
    end.
Proof.
  revert s. induction l1 as [|x l1 IH]; intros s; [done|].
  cbn [app for_each]. unfold bind. destruct (body x s) as [s' [[]|e]]; [apply IH|done].
Qed.

(** X28. Processing deletions. When every deleted path has a dot,
    [_process_deletions] returns normally whatever the order in which the
    set is walked, and a provider mapping is removed exactly for the paths
    with a supported extension that the controller knows: playlists for
    the playlist extensions, tracks for all others; a path with another
    extension leads to no call at all. A deleted path without a dot makes
    the unpacking of [rsplit] fail: the call then ends with [ValueError],
    in every order, and the paths that the loop had not reached are not
    processed. *)
Theorem process_deletions_removes_known_supported_paths
    (db_item : Controller -> string -> option string) (deleted_files : list string) :
  ((∀ p, p ∈ deleted_files -> is_Some (after_last_dot p)) ->
   ∃ calls,
     _process_deletions db_item deleted_files [] = (calls, Ok tt)
     ∧ (∀ controller db_item_id,
          RemoveProvMapping controller db_item_id ∈ calls
          <-> ∃ p ext, p ∈ deleted_files ∧ after_last_dot p = Some ext
                       ∧ ext ∈ SUPPORTED_EXTENSIONS
                       ∧ controller = controller_of ext
                       ∧ db_item controller p = Some db_item_id)
     ∧ (∀ controller p,
          GetDbItemByProvId controller p ∈ calls
          <-> ∃ ext, p ∈ deleted_files ∧ after_last_dot p = Some ext
                     ∧ ext ∈ SUPPORTED_EXTENSIONS ∧ controller = controller_of ext))
  ∧ (∀ before p after,
       deleted_files = before ++ p :: after ->
       (∀ q, q ∈ before -> is_Some (after_last_dot q)) ->
       after_last_dot p = None ->
       ∃ calls,
         _process_deletions db_item deleted_files []
         = (calls, Raise (ValueError "not enough values to unpack (expected 2, got 1)"))
         ∧ _process_deletions db_item before [] = (calls, Ok tt)).
Proof.
  assert (Hdots : ∀ l calls0,
            (∀ p, p ∈ l -> is_Some (after_last_dot p)) ->
            ∃ calls,
              _process_deletions db_item l calls0 = (calls0 ++ calls, Ok tt)
              ∧ (∀ controller db_item_id,
                   RemoveProvMapping controller db_item_id ∈ calls
                   <-> ∃ p ext, p ∈ l ∧ after_last_dot p = Some ext
                                ∧ ext ∈ SUPPORTED_EXTENSIONS
                                ∧ controller = controller_of ext
                                ∧ db_item controller p = Some db_item_id)
              ∧ (∀ controller p,
                   GetDbItemByProvId controller p ∈ calls
                   <-> ∃ ext, p ∈ l ∧ after_last_dot p = Some ext
                              ∧ ext ∈ SUPPORTED_EXTENSIONS ∧ controller = controller_of ext)).
  { induction l as [|p l IH]; intros calls0 Hall.
    { exists []. rewrite app_nil_r. split; [done|]. split.
      - intros c i. split; [by intros ?%elem_of_nil|]. by intros (? & ? & ?%elem_of_nil & _).
      - intros c q. split; [by intros ?%elem_of_nil|]. by intros (? & ?%elem_of_nil & _). }
    destruct (Hall p (list_elem_of_here _ _)) as [ext Hext].
    set (step := if bool_decide (ext ∈ SUPPORTED_EXTENSIONS)
                 then GetDbItemByProvId (controller_of ext) p
                      :: match db_item (controller_of ext) p with
                         | Some i => [RemoveProvMapping (controller_of ext) i]
                         | None => []
                         end
                 else []).
    destruct (IH (calls0 ++ step)) as (calls & E & HR & HG).
    { intros q Hq. apply Hall. by apply list_elem_of_further. }
    exists (step ++ calls). split; [|split].
    - rewrite app_assoc, <- E. unfold _process_deletions. cbn [for_each].
      unfold bind at 1. rewrite Hext. unfold step, controller_of, get_controller.
      destruct (bool_decide (ext ∈ SUPPORTED_EXTENSIONS)); cbn [negb].
      + unfold bind, modify.
        destruct (db_item (if bool_decide (ext ∈ PLAYLIST_EXTENSIONS) then playlists else tracks) p);
          simpl; by rewrite <- ?app_assoc.
      + simpl. by rewrite app_nil_r.
    - intros c i. rewrite elem_of_app, HR. split.
      + intros [Hs|(q & e & Hq & ?)].
        * unfold step in Hs.
          destruct (bool_decide_reflect (ext ∈ SUPPORTED_EXTENSIONS)) as [Hsup|];
            [|by apply elem_of_nil in Hs].
          apply elem_of_cons in Hs as [?|Hs]; [done|].
          destruct (db_item (controller_of ext) p) as [i'|] eqn:Hdb;
            [|by apply elem_of_nil in Hs].
          apply list_elem_of_singleton in Hs as [= -> ->].
          exists p, ext. split; [apply list_elem_of_here|done].
        * exists q, e. split; [by apply list_elem_of_further|done].
      + intros (q & e & [->|Hq]%elem_of_cons & He & Hsup & Hc & Hdb).
        * left. rewrite Hext in He. injection He as <-. unfold step.
          rewrite (bool_decide_eq_true_2 _ Hsup). subst c. rewrite Hdb.
          apply list_elem_of_further, list_elem_of_here.
        * right. by exists q, e.
    - intros c q. rewrite elem_of_app, HG. split.
      + intros [Hs|(e & Hq & ?)].
        * unfold step in Hs.
          destruct (bool_decide_reflect (ext ∈ SUPPORTED_EXTENSIONS)) as [Hsup|];
            [|by apply elem_of_nil in Hs].
          apply elem_of_cons in Hs as [[= -> ->]|Hs].
          -- exists ext. split; [apply list_elem_of_here|done].
          -- destruct (db_item (controller_of ext) p); [|by apply elem_of_nil in Hs].
             by apply list_elem_of_singleton in Hs.
        * exists e. split; [by apply list_elem_of_further|done].
      + intros (e & [->|Hq]%elem_of_cons & He & Hsup & Hc).
        * left. rewrite Hext in He. injection He as <-. unfold step.
          rewrite (bool_decide_eq_true_2 _ Hsup). subst c. apply list_elem_of_here.
        * right. by exists e. }
  split.
  - intros Hall. destruct (Hdots deleted_files [] Hall) as (calls & E & HR & HG).
    exists calls. by split.
  - intros before p after -> Hbefore Hp.
    destruct (Hdots before [] Hbefore) as (calls & E & _).
    exists calls. split; [|exact E]. unfold _process_deletions in *.
    rewrite for_each_app, E. cbn [for_each]. apply bind_Raise. by rewrite Hp.
Qed.

Lemma process_deletions_removes_known_supported_paths_witness :
  ∃ calls,
    _process_deletions (fun _ p => Some ("db:" +:+ p)) ["a/old.mp3"; "notes.txt"; "mix.m3u"] []
    = (calls, Ok tt)
    ∧ RemoveProvMapping playlists "db:mix.m3u" ∈ calls.
Proof.
  destruct (process_deletions_removes_known_supported_paths (fun _ p => Some ("db:" +:+ p))
              ["a/old.mp3"; "notes.txt"; "mix.m3u"]) as [H _].
  destruct H as (calls & E & HR & _).
  - intros p Hp. rewrite !elem_of_cons, elem_of_nil in Hp.
    destruct Hp as [->|[->|[->|[]]]]; by eexists.
  - exists calls. split; [exact E|]. apply HR. exists "mix.m3u", "m3u".
    split; [do 2 apply list_elem_of_further; apply list_elem_of_here|].
    split; [reflexivity|]. split; [|split; reflexivity].
    unfold SUPPORTED_EXTENSIONS. apply elem_of_app. right. apply list_elem_of_here.
Defined.

(** ** A [setup()] that is cancelled *)

(** X29. Cancellation is not swallowed. The handlers of [load_provider]
    catch [MusicAssistantError] and [Exception]; what a [setup()] raises
    that is neither, the [CancelledError] of a cancelled task, leaves
    [load_provider] as it is. The instance has been registered before
    [setup()] was called and stays in the registry as [__init__] made it,
    not available and without an error text; no sync is started for it
    and no [PROVIDERS_UPDATED] event is signalled. *)
Theorem load_provider_lets_cancellation_through
    (s s1 : MusicAssistant) (conf : ProviderConfig) (m : ProviderManifest)
    (members : list (string * Member)) (cls : ProviderBehaviour) (e : Exn) :
  unload_provider (conf_instance_id conf) s = (s1, Ok tt) ->
  enabled conf = true ->
  _available_providers s1 !! conf_domain conf = Some m ->
  (find (fun x => bool_decide (domain x = conf_domain conf)) (providers s1) = None
   ∨ multi_instance m = true) ->
  provider_modules s1 !! conf_domain conf = Some members ->
  find_provider_class m members = Some cls ->
  on_setup cls = Some e ->
  is_Exception e = false ->
  ∃ s',
    load_provider conf s = (s', Raise e)
    ∧ e = CancelledError
    ∧ Dict.get (conf_instance_id conf) (_providers s') = Some (Provider__init__ m conf cls)
    ∧ available (Provider__init__ m conf cls) = false
    ∧ last_error (Provider__init__ m conf cls) = None
    ∧ calls s' = calls s1 ++ [SetupCalled (conf_instance_id conf)]
    ∧ signalled s' = signalled s1
    ∧ in_progress_syncs s' = in_progress_syncs s1.
Proof.
  intros Hun Hen Hm Hex Hmod Hcls Hsetup Hexn.
  assert (He : e = CancelledError) by (by destruct e).
  rewrite (load_provider_past_guards s s1 conf m Hun Hen Hm Hex).
  set (provider := Provider__init__ m conf cls).
  set (id := conf_instance_id conf).
  set (s2 := with_call (SetupCalled id) (with_providers (Dict.set id provider) s1)).
  assert (Hbody : load_provider_body m conf s1 = (s2, Raise e)).
  { unfold load_provider_body.
    rewrite (bind_Ok _ _ s1 s1 members) by (unfold import_module; by rewrite Hmod).
    rewrite (bind_Ok _ _ s1 s1 cls) by (unfold locate_class; by rewrite Hcls).
    fold provider. change (instance_id provider) with id.
    rewrite (bind_Ok _ _ s1 (with_providers (Dict.set id provider) s1) tt) by done.
    apply bind_Raise. unfold try_except. rewrite provider_setup_spec.
    change (on_setup (behaviour provider)) with (on_setup cls). rewrite Hsetup.
    subst e. reflexivity. }
  exists s2. split.
  { apply bind_Raise. unfold try_except. by rewrite Hbody, Hexn. }
  split; [exact He|]. split; [simpl; apply DictFacts.get_set_eq|]. by repeat split.
Qed.

Lemma load_provider_lets_cancellation_through_witness :
  ∃ s',
    load_provider (ex_config "tidal1" "tidal") ex_slow_startup = (s', Raise CancelledError)
    ∧ is_Some (Dict.get "tidal1" (_providers s'))
    ∧ signalled s' = [].
Proof.
  destruct (load_provider_lets_cancellation_through ex_slow_startup ex_slow_startup
              (ex_config "tidal1" "tidal") (ex_manifest MUSIC "tidal" true)
              [("TidalProvider", AClass ProviderSubclass ex_cancelled_behaviour)]
              ex_cancelled_behaviour CancelledError)
    as (s' & E & _ & G & _ & _ & _ & S & _); try reflexivity.
  - by left.
  - exists s'. split; [exact E|]. split; [by eexists|exact S].
Defined.
